(** * pinglist: streaming ping statistics, ranking and start-up

    A shallow embedding of [main.go] of [abbit/pinglist]: the per-target
    statistics ([pingStats] and its methods), the row rendering
    ([pingsToRows]), the per-tick ranking ([model.Update] on an
    [updateRowsMsg], through Go's [sort.Slice]), the target-list loader
    ([readPingTargets]) and the start-up path of [main].

    Go's [int] and [time.Duration] are 64-bit two's-complement integers
    and are modelled as [Z] with the wrap-around written out; [float64]
    is modelled by Rocq's primitive binary64 floats, which implement the
    same IEEE 754 operations, each rounded on its own.

    What [main.go] takes from Go's standard library ([sort.Slice],
    [fmt.Sprintf], [time.Duration], [strings.Cut], [bufio.Scanner],
    [flag]) is embedded after the library's sources and documentation,
    in the modules [Sort], [Fmt], [DurationFmt], [Strings], [Bufio] and
    [Flag]; the prober ([probing.Pinger]) and the table widget are
    outside: the first shows as the sequence of its callbacks, the
    second as the rows it is given. *)

From Stdlib Require Import ZArith Lia List Bool String Ascii.
From Stdlib Require Import PrimFloat SpecFloat FloatOps.
From Stdlib Require FloatAxioms.
From Stdlib Require Import Sorting Permutation DecimalString.
From stdpp Require Import base tactics option list.

Import ListNotations.

(** ** Go's fixed-width arithmetic *)

Module Go.
Local Open Scope Z_scope.

Definition minInt64 : Z := - 2 ^ 63.
Definition maxInt64 : Z := 2 ^ 63 - 1.

Definition inInt64 (z : Z) : Prop := minInt64 <= z <= maxInt64.

Definition inInt64b (z : Z) : bool := (minInt64 <=? z) && (z <=? maxInt64).

(** Two's-complement wrap-around of an [int] / [int64] result. *)
Definition wrap64 (z : Z) : Z := (z + 2 ^ 63) mod 2 ^ 64 - 2 ^ 63.

(** Reinterpretation [uint64(x)] of an [int64]. *)
Definition toUint64 (z : Z) : Z := z mod 2 ^ 64.

Definition add64 (x y : Z) : Z := wrap64 (x + y).
Definition sub64 (x y : Z) : Z := wrap64 (x - y).

(** Integer division truncates towards zero; a zero divisor is a
    run-time panic, and [minInt64 / -1] wraps to [minInt64]. *)
Definition div64 (x y : Z) : option Z :=
  if y =? 0 then None else Some (wrap64 (Z.quot x y)).

(** [x % y] for a non-zero [y]: the remainder has the sign of [x]. *)
Definition rem64 (x y : Z) : Z := Z.rem x y.

(** [float64(x)] for an integer [x]: round to nearest, ties to even. *)
Definition float64_of_int (z : Z) : float :=
  SF2Prim (binary_normalize 53 1024 z 0 false).

(** The integer a finite float truncates to (towards zero). *)
Definition truncSF (x : spec_float) : option Z :=
  match x with
  | S754_zero _ => Some 0
  | S754_finite s m e =>
      let v := if 0 <=? e then Z.shiftl (Zpos m) e
               else Z.shiftr (Zpos m) (- e) in
      Some (if s then - v else v)
  | S754_infinity _ | S754_nan => None
  end.

(** [int64(f)] / [time.Duration(f)] for a [float64]: truncation towards
    zero.  For a NaN or a value outside the [int64] range the language
    leaves the result to the implementation; the model takes the
    "integer indefinite" value [minInt64] that amd64 produces. *)
Definition int_of_float64 (f : float) : Z :=
  match truncSF (Prim2SF f) with
  | Some z => if inInt64b z then z else minInt64
  | None => minInt64
  end.
End Go.

(** ** [time.Duration] *)

Module Duration.
Local Open Scope Z_scope.

Definition Nanosecond : Z := 1.
Definition Microsecond : Z := 1000 * Nanosecond.
Definition Millisecond : Z := 1000 * Microsecond.
Definition Second : Z := 1000 * Millisecond.

Definition ns (n : Z) : Z := n * Nanosecond.
Definition ms (n : Z) : Z := n * Millisecond.
End Duration.

(** ** [pingStats] and its methods *)

(** The part of [probing.Packet] the callbacks read. *)
Record Packet := mkPacket { Rtt : Z }.

(** The fields of [pingStats]; the mutex [mtx] is modelled separately, in
    [Concurrent] below, where the critical sections matter. *)
Record pingStats := mkPingStats {
  Name : string;
  Addr : string;
  pktsSent : Z;
  pktsRecv : Z;
  rttAvg : Z;
  rttVar : float;
  rttStdDev : Z
}.

Definition newPingStats (name addr : string) : pingStats :=
  {| Name := name; Addr := addr;
     pktsSent := 0; pktsRecv := 0; rttAvg := 0;
     rttVar := 0%float; rttStdDev := 0 |}.

Definition PktLoss (s : pingStats) : float :=
  (Go.float64_of_int (Go.sub64 (pktsSent s) (pktsRecv s))
     / Go.float64_of_int (pktsSent s) * Go.float64_of_int 100)%float.

Definition OnPktSend (s : pingStats) (pkt : Packet) : pingStats :=
  {| Name := Name s; Addr := Addr s;
     pktsSent := Go.add64 (pktsSent s) 1;
     pktsRecv := pktsRecv s; rttAvg := rttAvg s;
     rttVar := rttVar s; rttStdDev := rttStdDev s |}.

(** [OnPktRecv]: Welford's update.  [None] stands for the run-time panic
    of the integer division [delta / time.Duration(s.pktsRecv)] when the
    incremented counter is zero. *)
Definition OnPktRecv (s : pingStats) (pkt : Packet) : option pingStats :=
  let recv := Go.add64 (pktsRecv s) 1 in
  if (recv =? 1)%Z then
    Some {| Name := Name s; Addr := Addr s;
            pktsSent := pktsSent s; pktsRecv := recv;
            rttAvg := Rtt pkt;
            rttVar := 0%float;
            rttStdDev := rttStdDev s |}
  else
    let delta := Go.sub64 (Rtt pkt) (rttAvg s) in
    match Go.div64 delta recv with
    | None => None
    | Some q =>
        let avg := Go.add64 (rttAvg s) q in
        let var := (rttVar s
                    + Go.float64_of_int delta
                      * Go.float64_of_int (Go.sub64 (Rtt pkt) avg))%float in
        let sd := Go.int_of_float64
                    (PrimFloat.sqrt
                       (var / Go.float64_of_int (Go.sub64 recv 1))%float) in
        Some {| Name := Name s; Addr := Addr s;
                pktsSent := pktsSent s; pktsRecv := recv;
                rttAvg := avg; rttVar := var; rttStdDev := sd |}
    end.

Definition RttAvg (s : pingStats) : Z := rttAvg s.

Definition RttStdDev (s : pingStats) : Z := rttStdDev s.

(** The events the prober delivers to one target, and their effect in
    the order of delivery. *)
Inductive event :=
| EvSend (pkt : Packet)
| EvRecv (pkt : Packet).

Definition apply_event (s : pingStats) (e : event) : option pingStats :=
  match e with
  | EvSend pkt => Some (OnPktSend s pkt)
  | EvRecv pkt => OnPktRecv s pkt
  end.

Fixpoint run_events (s : pingStats) (es : list event) : option pingStats :=
  match es with
  | [] => Some s
  | e :: es' =>
      match apply_event s e with
      | Some s' => run_events s' es'
      | None => None
      end
  end.

Definition recv_all (rtts : list Z) : list event :=
  map (fun r => EvRecv (mkPacket r)) rtts.

(** ** Rendering: [fmt.Sprintf("%.1f%%", x)] and [Duration.Round/String] *)

Module Fmt.
Local Open Scope Z_scope.

(** Decimal digits of a non-negative integer ("0" for zero). *)
Definition itoa (n : Z) : string :=
  NilZero.string_of_uint (N.to_uint (Z.to_N n)).

(** Nearest integer to [n / d] for [0 <= n], [0 < d], ties to even. *)
Definition roundHalfEven (n d : Z) : Z :=
  let q := n / d in
  let r := n mod d in
  if 2 * r <? d then q
  else if d <? 2 * r then q + 1
  else if Z.even q then q else q + 1.

(** [strconv.FormatFloat(x, 'f', 1, 64)] as [fmt] prints it for the
    verb [%.1f]: the exact binary value rounded to one decimal
    (half to even), [NaN], [+Inf] and [-Inf] spelled out. *)
Definition formatF1 (x : float) : string :=
  match Prim2SF x with
  | S754_nan => "NaN"
  | S754_infinity s => if s then "-Inf" else "+Inf"
  | S754_zero s => (if s then "-0.0" else "0.0")
  | S754_finite s m e =>
      let tenths :=
        if 0 <=? e then Z.shiftl (Zpos m * 10) e
        else roundHalfEven (Zpos m * 10) (Z.shiftl 1 (- e)) in
      ((if s then "-" else "") ++ itoa (tenths / 10) ++ "."
         ++ itoa (tenths mod 10))%string
  end.

(** [fmt.Sprintf("%.1f%%", x)] *)
Definition sprintfLoss (x : float) : string :=
  (formatF1 x ++ "%")%string.
End Fmt.

Module DurationFmt.
Import Duration.
Local Open Scope Z_scope.

(** [lessThanHalf(x, y)]: [uint64(x)+uint64(x) < uint64(y)]. *)
Definition lessThanHalf (x y : Z) : bool :=
  (Go.toUint64 x + Go.toUint64 x) mod 2 ^ 64 <? Go.toUint64 y.

(** [Duration.Round(m)]: the nearest multiple of [m], halfway values
    away from zero, saturating at the ends of the range. *)
Definition Round (d m : Z) : Z :=
  if m <=? 0 then d
  else
    let r := Go.rem64 d m in
    if d <? 0 then
      let r := Go.wrap64 (- r) in
      if lessThanHalf r m then Go.add64 d r
      else
        let d1 := Go.add64 (Go.sub64 d m) r in
        if d1 <? d then d1 else Go.minInt64
    else
      if lessThanHalf r m then Go.sub64 d r
      else
        let d1 := Go.sub64 (Go.add64 d m) r in
        if d <? d1 then d1 else Go.maxInt64.

Definition digit (d : Z) : ascii := ascii_of_nat (48 + Z.to_nat d).

(** [fmtFrac]: the [prec] low decimal digits of [v] as a fraction
    without trailing zeros (and without the point when it is zero),
    together with [v / 10^prec]. *)
Fixpoint fmtFrac_loop (prec : nat) (v : Z) (print : bool) (acc : string)
  : string * Z * bool :=
  match prec with
  | O => (acc, v, print)
  | S p =>
      let dg := v mod 10 in
      let print := print || negb (dg =? 0) in
      let acc := if print then String (digit dg) acc else acc in
      fmtFrac_loop p (v / 10) print acc
  end.

Definition fmtFrac (v : Z) (prec : nat) : string * Z :=
  let '(acc, v, print) := fmtFrac_loop prec v false EmptyString in
  (if print then String "." acc else acc, v).

Definition fmtInt (v : Z) : string := Fmt.itoa v.

(** The micro sign, U+00B5, in UTF-8. *)
Definition micro : string :=
  String (ascii_of_nat 194) (String (ascii_of_nat 181) EmptyString).

(** [Duration.String] *)
Definition String_ (d : Z) : string :=
  let neg := d <? 0 in
  let u := if neg then (- Go.toUint64 d) mod 2 ^ 64 else Go.toUint64 d in
  let body :=
    if u <? Second then
      if u =? 0 then "0s"%string
      else
        let '(prec, unit) :=
          if u <? Microsecond then (0%nat, "ns"%string)
          else if u <? Millisecond then (3%nat, (micro ++ "s")%string)
          else (6%nat, "ms"%string) in
        let '(frac, u) := fmtFrac u prec in
        (fmtInt u ++ frac ++ unit)%string
    else
      let '(frac, u) := fmtFrac u 9 in
      let secs := (fmtInt (u mod 60) ++ frac ++ "s")%string in
      let u := u / 60 in
      if 0 <? u then
        let mins := (fmtInt (u mod 60) ++ "m" ++ secs)%string in
        let u := u / 60 in
        if 0 <? u then (fmtInt u ++ "h" ++ mins)%string else mins
      else secs in
  if neg then String "-" body else body.
End DurationFmt.

(** ** [pingsToRows] *)

(** A [table.Row]: the five cells of one line of the table. *)
Definition Row := list string.

Definition rowOf (s : pingStats) : Row :=
  [ Name s;
    Addr s;
    Fmt.sprintfLoss (PktLoss s);
    DurationFmt.String_ (DurationFmt.Round (RttAvg s) (100 * Duration.Microsecond));
    DurationFmt.String_ (DurationFmt.Round (RttStdDev s) (100 * Duration.Microsecond)) ].

Definition pingsToRows (pings : list pingStats) : list Row :=
  map rowOf pings.

(** ** [sort.Slice]: Go's pattern-defeating quicksort

    [sort.Slice(x, less)] runs [pdqsort_func] of the standard library's
    [sort] package (Go 1.19 and later; [main.go] needs Go 1.21 for the
    built-in [max]) on the pair of the caller's [less] and a swapper of
    the slice.  The functions below follow [zsortfunc.go] one by one.
    The slice is a list, indices are positions in it; [less] is given on
    elements, as the closure of [model.Update] reads the two elements at
    the indices it is handed.  Each [for] loop is a structural recursion
    on the number of iterations it has left, which is computed from the
    loop bounds. *)

Module Sort.
Section WithLess.
Context {A : Type} (less : A -> A -> bool).

(** [data.Less(i, j)].  An index out of range would panic in Go; the
    model answers [false] there, and [Swap] leaves the slice as it is. *)
Definition Less (data : list A) (i j : nat) : bool :=
  match data !! i, data !! j with
  | Some x, Some y => less x y
  | _, _ => false
  end.

(** [data.Swap(i, j)] *)
Definition Swap (data : list A) (i j : nat) : list A :=
  match data !! i, data !! j with
  | Some x, Some y => <[j:=x]> (<[i:=y]> data)
  | _, _ => data
  end.

(** *** insertionSort_func *)

(** [for j := i; j > a && data.Less(j, j-1); j-- { data.Swap(j, j-1) }] *)
Fixpoint insertDown (data : list A) (a j : nat) : list A :=
  match j with
  | O => data
  | S j' =>
      if (a <? j) && Less data j j'
      then insertDown (Swap data j j') a j'
      else data
  end.

(** [for i := a + 1; i < b; i++ { ... }] with [n] iterations left. *)
Fixpoint insertFrom (n : nat) (data : list A) (a i : nat) : list A :=
  match n with
  | O => data
  | S n' => insertFrom n' (insertDown data a i) a (S i)
  end.

Definition insertionSort_func (data : list A) (a b : nat) : list A :=
  insertFrom (b - (a + 1)) data a (a + 1).

(** *** siftDown_func and heapSort_func *)

Fixpoint siftDown_loop (n : nat) (data : list A) (root hi first : nat)
  : list A :=
  match n with
  | O => data
  | S n' =>
      let child := 2 * root + 1 in
      if hi <=? child then data
      else
        let child :=
          if (child + 1 <? hi)
             && Less data (first + child) (first + child + 1)
          then child + 1 else child in
        if negb (Less data (first + root) (first + child)) then data
        else siftDown_loop n' (Swap data (first + root) (first + child))
               child hi first
  end.

(** The root index grows at every round and stays below [hi]. *)
Definition siftDown_func (data : list A) (lo hi first : nat) : list A :=
  siftDown_loop hi data lo hi first.

(** [for i := (hi - 1) / 2; i >= 0; i-- { siftDown_func(data, i, hi, first) }],
    [n] counting the iterations left, [i = n - 1] the current index. *)
Fixpoint heapBuild (n : nat) (data : list A) (hi first : nat) : list A :=
  match n with
  | O => data
  | S i => heapBuild i (siftDown_func data i hi first) hi first
  end.

(** [for i := hi - 1; i >= 0; i-- { data.Swap(first, first+i);
    siftDown_func(data, lo, i, first) }] *)
Fixpoint heapPop (n : nat) (data : list A) (lo first : nat) : list A :=
  match n with
  | O => data
  | S i =>
      heapPop i (siftDown_func (Swap data first (first + i)) lo i first)
        lo first
  end.

Definition heapSort_func (data : list A) (a b : nat) : list A :=
  let first := a in
  let lo := 0 in
  let hi := b - a in
  let data := heapBuild (S ((hi - 1) / 2)) data hi first in
  heapPop hi data lo first.

(** *** partition_func and partitionEqual_func *)

(** [for i <= j && data.Less(i, a) { i++ }] *)
Fixpoint scanLess_loop (n : nat) (data : list A) (a i j : nat) : nat :=
  match n with
  | O => i
  | S n' =>
      if (i <=? j) && Less data i a
      then scanLess_loop n' data a (S i) j else i
  end.

Definition scanLess (data : list A) (a i j : nat) : nat :=
  scanLess_loop (S j - i) data a i j.

(** [for i <= j && !data.Less(j, a) { j-- }] *)
Fixpoint scanNotLess_loop (n : nat) (data : list A) (a i j : nat) : nat :=
  match n with
  | O => j
  | S n' =>
      if (i <=? j) && negb (Less data j a)
      then scanNotLess_loop n' data a i (j - 1) else j
  end.

Definition scanNotLess (data : list A) (a i j : nat) : nat :=
  scanNotLess_loop (S j - i) data a i j.

(** The main loop of [partition_func]; every round that does not
    break narrows [i..j] by two. *)
Fixpoint partition_loop (n : nat) (data : list A) (a i j : nat)
  : list A * nat * nat :=
  match n with
  | O => (data, i, j)
  | S n' =>
      let i := scanLess data a i j in
      let j := scanNotLess data a i j in
      if j <? i then (data, i, j)
      else partition_loop n' (Swap data i j) a (S i) (j - 1)
  end.

Definition partition_func (data : list A) (a b pivot : nat)
  : list A * nat * bool :=
  let data := Swap data a pivot in
  let i := a + 1 in
  let j := b - 1 in
  let i := scanLess data a i j in
  let j := scanNotLess data a i j in
  if j <? i then (Swap data j a, j, true)
  else
    let data := Swap data i j in
    let i := S i in
    let j := j - 1 in
    let '(data, i, j) := partition_loop (S j - i) data a i j in
    (Swap data j a, j, false).

(** [for i <= j && !data.Less(a, i) { i++ }] *)
Fixpoint scanNotGreater_loop (n : nat) (data : list A) (a i j : nat) : nat :=
  match n with
  | O => i
  | S n' =>
      if (i <=? j) && negb (Less data a i)
      then scanNotGreater_loop n' data a (S i) j else i
  end.

Definition scanNotGreater (data : list A) (a i j : nat) : nat :=
  scanNotGreater_loop (S j - i) data a i j.

(** [for i <= j && data.Less(a, j) { j-- }] *)
Fixpoint scanGreater_loop (n : nat) (data : list A) (a i j : nat) : nat :=
  match n with
  | O => j
  | S n' =>
      if (i <=? j) && Less data a j
      then scanGreater_loop n' data a i (j - 1) else j
  end.

Definition scanGreater (data : list A) (a i j : nat) : nat :=
  scanGreater_loop (S j - i) data a i j.

Fixpoint partitionEqual_loop (n : nat) (data : list A) (a i j : nat)
  : list A * nat :=
  match n with
  | O => (data, i)
  | S n' =>
      let i := scanNotGreater data a i j in
      let j := scanGreater data a i j in
      if j <? i then (data, i)
      else partitionEqual_loop n' (Swap data i j) a (S i) (j - 1)
  end.

Definition partitionEqual_func (data : list A) (a b pivot : nat)
  : list A * nat :=
  let data := Swap data a pivot in
  let i := a + 1 in
  let j := b - 1 in
  partitionEqual_loop (S j - i) data a i j.

(** *** partialInsertionSort_func *)

Definition maxSteps : nat := 5.
Definition shortestShifting : nat := 50.

(** [for i < b && !data.Less(i, i-1) { i++ }] *)
Fixpoint skipOrdered_loop (n : nat) (data : list A) (i b : nat) : nat :=
  match n with
  | O => i
  | S n' =>
      if (i <? b) && negb (Less data i (i - 1))
      then skipOrdered_loop n' data (S i) b else i
  end.

Definition skipOrdered (data : list A) (i b : nat) : nat :=
  skipOrdered_loop (b - i) data i b.

(** [for j := i - 1; j >= 1; j-- { if !data.Less(j, j-1) { break };
    data.Swap(j, j-1) }] *)
Fixpoint shiftLeft (data : list A) (j : nat) : list A :=
  match j with
  | O => data
  | S j' =>
      if negb (Less data j j') then data
      else shiftLeft (Swap data j j') j'
  end.

(** [for j := i + 1; j < b; j++ { if !data.Less(j, j-1) { break };
    data.Swap(j, j-1) }] with [n] iterations left. *)
Fixpoint shiftRight (n : nat) (data : list A) (j : nat) : list A :=
  match n with
  | O => data
  | S n' =>
      if negb (Less data j (j - 1)) then data
      else shiftRight n' (Swap data j (j - 1)) (S j)
  end.

(** The outer loop, [steps] rounds left. *)
Fixpoint partialInsertion_loop (steps : nat) (data : list A) (a b i : nat)
  : list A * bool :=
  match steps with
  | O => (data, false)
  | S steps' =>
      let i := skipOrdered data i b in
      if i =? b then (data, true)
      else if b - a <? shortestShifting then (data, false)
      else
        let data := Swap data i (i - 1) in
        let data := if 2 <=? i - a then shiftLeft data (i - 1) else data in
        let data :=
          if 2 <=? b - i then shiftRight (b - (i + 1)) data (i + 1)
          else data in
        partialInsertion_loop steps' data a b i
  end.

Definition partialInsertionSort_func (data : list A) (a b : nat)
  : list A * bool :=
  partialInsertion_loop maxSteps data a b (a + 1).

(** *** breakPatterns_func *)

(** [bits.Len(uint(n))]: the number of bits of [n], 0 for 0. *)
Definition bitsLen (n : nat) : nat :=
  match n with
  | O => O
  | _ => S (Nat.log2 n)
  end.

(** [xorshift.Next] on a [uint64]. *)
Definition xorshift_Next (r : Z) : Z :=
  let r := Z.lxor r (Z.shiftl r 13 mod 2 ^ 64) in
  let r := Z.lxor r (Z.shiftr r 7) in
  let r := Z.lxor r (Z.shiftl r 17 mod 2 ^ 64) in
  r.

Definition nextPowerOfTwo (length : nat) : Z :=
  (Z.shiftl 1 (Z.of_nat (bitsLen length)) mod 2 ^ 64)%Z.

(** [for i := 0; i < 3; i++ { ... }]: three elements from the middle of
    the range, those at [idx], [idx + 1] and [idx + 2], are swapped
    with elements at pseudo-random places of the range. *)
Fixpoint breakPatterns_loop (n : nat) (data : list A)
    (random modulus : Z) (a length idx i : nat) : list A :=
  match n with
  | O => data
  | S n' =>
      let random := xorshift_Next random in
      let other := Z.to_nat (Z.land random (modulus - 1)) in
      let other := if length <=? other then other - length else other in
      breakPatterns_loop n' (Swap data (idx + i) (a + other))
        random modulus a length idx (S i)
  end.

Definition breakPatterns_func (data : list A) (a b : nat) : list A :=
  let length := b - a in
  if 8 <=? length then
    let random := Z.of_nat length in
    let modulus := nextPowerOfTwo length in
    let idx := a + (length / 4) * 2 - 1 in
    breakPatterns_loop 3 data random modulus a length idx 0
  else data.

(** *** choosePivot_func *)

Inductive sortedHint := unknownHint | increasingHint | decreasingHint.

Definition shortestNinther : nat := 50.
Definition maxSwaps : nat := 4 * 3.

(** [order2_func]: the two indices in the order of their elements, and
    the updated count of swaps. *)
Definition order2_func (data : list A) (a b swaps : nat)
  : nat * nat * nat :=
  if Less data b a then (b, a, S swaps) else (a, b, swaps).

Definition median_func (data : list A) (a b c swaps : nat) : nat * nat :=
  let '(a, b, swaps) := order2_func data a b swaps in
  let '(b, c, swaps) := order2_func data b c swaps in
  let '(a, b, swaps) := order2_func data a b swaps in
  (b, swaps).

Definition medianAdjacent_func (data : list A) (a swaps : nat)
  : nat * nat :=
  median_func data (a - 1) a (a + 1) swaps.

Definition choosePivot_func (data : list A) (a b : nat)
  : nat * sortedHint :=
  let l := b - a in
  let swaps := 0 in
  let i := a + l / 4 * 1 in
  let j := a + l / 4 * 2 in
  let k := a + l / 4 * 3 in
  let '(j, swaps) :=
    if 8 <=? l then
      let '(i, j, k, swaps) :=
        if shortestNinther <=? l then
          let '(i, swaps) := medianAdjacent_func data i swaps in
          let '(j, swaps) := medianAdjacent_func data j swaps in
          let '(k, swaps) := medianAdjacent_func data k swaps in
          (i, j, k, swaps)
        else (i, j, k, swaps) in
      median_func data i j k swaps
    else (j, swaps) in
  if swaps =? 0 then (j, increasingHint)
  else if swaps =? maxSwaps then (j, decreasingHint)
  else (j, unknownHint).

(** *** reverseRange_func *)

Fixpoint reverseRange_loop (n : nat) (data : list A) (i j : nat) : list A :=
  match n with
  | O => data
  | S n' =>
      if i <? j then reverseRange_loop n' (Swap data i j) (S i) (j - 1)
      else data
  end.

Definition reverseRange_func (data : list A) (a b : nat) : list A :=
  reverseRange_loop (b - a) data a (b - 1).

(** *** pdqsort_func *)

Definition maxInsertion : nat := 12.

Definition isIncreasing (h : sortedHint) : bool :=
  match h with increasingHint => true | _ => false end.

Definition isDecreasing (h : sortedHint) : bool :=
  match h with decreasingHint => true | _ => false end.

(** One round of the [for] loop of [pdqsort_func] per unit of [fuel];
    the recursive call on the smaller side starts with its own
    [wasBalanced] and [wasPartitioned], both [true].  [None] only when
    the fuel runs out, which [Slice] below never lets happen. *)
Fixpoint pdqsort_func (fuel : nat) (data : list A) (a b limit : nat)
    (wasBalanced wasPartitioned : bool) : option (list A) :=
  match fuel with
  | O => None
  | S fuel' =>
      let length := b - a in
      if length <=? maxInsertion then Some (insertionSort_func data a b)
      else if limit =? 0 then Some (heapSort_func data a b)
      else
        let '(data, limit) :=
          if negb wasBalanced
          then (breakPatterns_func data a b, limit - 1)
          else (data, limit) in
        let '(pivot, hint) := choosePivot_func data a b in
        let '(data, pivot, hint) :=
          if isDecreasing hint
          then (reverseRange_func data a b, (b - 1) - (pivot - a),
                increasingHint)
          else (data, pivot, hint) in
        let '(data, sorted) :=
          if wasBalanced && wasPartitioned && isIncreasing hint
          then partialInsertionSort_func data a b
          else (data, false) in
        if sorted then Some data
        else if (0 <? a) && negb (Less data (a - 1) pivot) then
          let '(data, mid) := partitionEqual_func data a b pivot in
          pdqsort_func fuel' data mid b limit wasBalanced wasPartitioned
        else
          let '(data, mid, alreadyPartitioned) :=
            partition_func data a b pivot in
          let wasPartitioned := alreadyPartitioned in
          let leftLen := mid - a in
          let rightLen := b - mid in
          let balanceThreshold := length / 8 in
          if leftLen <? rightLen then
            let wasBalanced := balanceThreshold <=? leftLen in
            match pdqsort_func fuel' data a mid limit true true with
            | Some data =>
                pdqsort_func fuel' data (mid + 1) b limit
                  wasBalanced wasPartitioned
            | None => None
            end
          else
            let wasBalanced := balanceThreshold <=? rightLen in
            match pdqsort_func fuel' data (mid + 1) b limit true true with
            | Some data =>
                pdqsort_func fuel' data a mid limit
                  wasBalanced wasPartitioned
            | None => None
            end
  end.

(** [sort.Slice(x, less)]; every round of [pdqsort_func] shortens the
    range it works on, so [length + 1] rounds of fuel are enough
    ([Slice_run] below). *)
Definition Slice_run (data : list A) : option (list A) :=
  let length := List.length data in
  let limit := bitsLen length in
  pdqsort_func (S length) data 0 length limit true true.

Definition Slice (data : list A) : list A :=
  match Slice_run data with
  | Some data' => data'
  | None => data
  end.
End WithLess.
End Sort.

(** ** The presentation loop: [model.Update] *)

Record model := mkModel {
  table : list Row;      (* the rows held by the table widget *)
  pings : list pingStats
}.

Inductive Msg :=
| KeyMsg (key : string)
| updateRowsMsg
| otherMsg.

Inductive Cmd := Quit | updateRowsCmd | tableCmd.

(** The comparison closure handed to [sort.Slice]. *)
Definition lessRttAvg (x y : pingStats) : bool := (RttAvg x <? RttAvg y)%Z.

(** The ranking of one tick: sort in place, then re-render. *)
Definition rank (ps : list pingStats) : list pingStats :=
  Sort.Slice lessRttAvg ps.

(** The table widget is external; its own [Update] handles the other
    messages and leaves the rows alone. *)
Definition Update (m : model) (msg : Msg) : model * Cmd :=
  match msg with
  | KeyMsg key =>
      if (String.eqb key "q" || String.eqb key "ctrl+c")%bool then (m, Quit)
      else (m, tableCmd)
  | updateRowsMsg =>
      let ps := rank (pings m) in
      ({| table := pingsToRows ps; pings := ps |}, updateRowsCmd)
  | otherMsg => (m, tableCmd)
  end.

(** ** Loading the target list: [readPingTargets] *)

Module Strings.
(** [strings.Cut(s, sep)] *)
Definition Cut (s sep : string) : string * string * bool :=
  match index 0 sep s with
  | Some i =>
      (substring 0 i s,
       substring (i + String.length sep)
         (String.length s - (i + String.length sep)) s,
       true)
  | None => (s, EmptyString, false)
  end.
End Strings.

Module Bufio.
Definition MaxScanTokenSize : nat := 64 * 1024.

Definition LF : ascii := ascii_of_nat 10.
Definition CR : ascii := ascii_of_nat 13.

(** The line read so far is kept in reverse, last byte first. *)
Definition dropCR (rev_line : list ascii) : list ascii :=
  match rev_line with
  | c :: rest => if Ascii.eqb c CR then rest else rev_line
  | [] => []
  end.

Definition token (rev_line : list ascii) : string :=
  string_of_list_ascii (rev (dropCR rev_line)).

(** The lines a [bufio.Scanner] with the default split function
    [ScanLines] and the default buffer delivers, [scanner.Text()] after
    each successful [scanner.Scan()]: lines end at a line feed, one
    trailing carriage return is dropped, a last line without line feed
    counts when it is not empty, and scanning stops for good at a line
    that does not fit the buffer of [MaxScanTokenSize] bytes together
    with its line feed.  [cur] is the current line so far, reversed,
    and [n] its length. *)
Fixpoint scan (data : string) (cur : list ascii) (n : nat) : list string :=
  match data with
  | EmptyString =>
      if (n =? 0) || (MaxScanTokenSize <=? n) then [] else [token cur]
  | String c rest =>
      if Ascii.eqb c LF then
        if MaxScanTokenSize <=? n then []
        else token cur :: scan rest [] 0
      else scan rest (c :: cur) (S n)
  end.

Definition scanLines (data : string) : list string := scan data [] 0.
End Bufio.

(** What the operating system answers to [os.ReadFile]: the content of
    the file, or an error with its message. *)
Definition FileSystem := string -> string + string.

(** How a run goes on from a function that may call [os.Exit]. *)
Inductive outcome (A : Type) :=
| Exit (code : Z) (stdout stderr : string)
| Continue (x : A).
Arguments Exit {A} code stdout stderr.
Arguments Continue {A} x.

Definition newline : string := String Bufio.LF EmptyString.

(** [fmt.Println(a, b)] writes its operands to standard output, a space
    between them and a line feed at the end. *)
Definition Println2 (a b : string) : string :=
  (a ++ " " ++ b ++ newline)%string.

Definition targetOfLine (line : string) : pingStats :=
  let '(name, addr, _) := Strings.Cut line "|" in
  newPingStats name addr.

Definition readPingTargets (fs : FileSystem) (path : string)
  : outcome (list pingStats) :=
  match fs path with
  | inl err =>
      Exit 1 (Println2 "Error reading config file:" err) EmptyString
  | inr fileBytes =>
      Continue (map targetOfLine (Bufio.scanLines fileBytes))
  end.

(** ** Start-up: [main] up to the launch of the probers *)

Module Flag.
(** [flag.Parse()] for a command line without defined flags, with the
    [ExitOnError] policy of [flag.CommandLine]: the positional
    arguments, or the exit the first flag-like argument causes (status
    0 for [-h] / [-help], status 2 otherwise), with the diagnostic and
    the usage line on standard error. *)
Definition usage (prog : string) : string :=
  ("Usage of " ++ prog ++ ":" ++ newline)%string.

Definition beforeEq (name : string) : string :=
  match index 1 "=" name with
  | Some i => substring 0 i name
  | None => name
  end.

Definition Parse (prog : string) (args : list string)
  : outcome (list string) :=
  match args with
  | [] => Continue []
  | s :: rest =>
      match s with
      | String "-" (String c1 s2 as s1) =>
          if Ascii.eqb c1 "-" && String.eqb s2 EmptyString
          then Continue rest
          else
            let name := if Ascii.eqb c1 "-" then s2 else s1 in
            match name with
            | EmptyString | String "-" _ | String "=" _ =>
                Exit 2 EmptyString
                  ("bad flag syntax: " ++ s ++ newline ++ usage prog)
            | _ =>
                let name := beforeEq name in
                if String.eqb name "help" || String.eqb name "h"
                then Exit 0 EmptyString (usage prog)
                else
                  Exit 2 EmptyString
                    ("flag provided but not defined: -" ++ name
                       ++ newline ++ usage prog)
            end
      | _ => Continue args
      end
  end.

(** [flag.Arg(i)]: the i-th positional argument, or the empty string. *)
Definition Arg (positional : list string) (i : nat) : string :=
  nth i positional EmptyString.
End Flag.

(** What [main] has set up when it goes on: the targets as loaded, for
    each of which it has launched a prober with [go runPing(s)], and
    the model of the table.  The model is given as [main] builds it when
    no callback has run by then; the probers are running from their
    launch on, so in a run the rows can show later states of the same
    targets (every one read as [Concurrent] below has it). *)
Record started := mkStarted {
  probers : list pingStats;   (* one [go runPing(s)] for each *)
  initial : model
}.

Definition main (prog : string) (args : list string) (fs : FileSystem)
  : outcome started :=
  match Flag.Parse prog args with
  | Exit code out err => Exit code out err
  | Continue positional =>
      match readPingTargets fs (Flag.Arg positional 0) with
      | Exit code out err => Exit code out err
      | Continue pings =>
          let rows := pingsToRows pings in
          Continue {| probers := pings;
                      initial := {| table := rows; pings := pings |} |}
      end
  end.

(** ** One target under its mutex: the prober against the presenter

    Every method of [pingStats] locks [mtx] on entry and unlocks it on
    return.  The semantics below interleaves the statements of the
    prober's callbacks with those of the presenter building one row in
    [pingsToRows]; a thread takes the mutex only when it is free. *)

Module Concurrent.
Inductive thread := Prober | Presenter.

Definition set_pktsSent (s : pingStats) (v : Z) : pingStats :=
  {| Name := Name s; Addr := Addr s; pktsSent := v;
     pktsRecv := pktsRecv s; rttAvg := rttAvg s;
     rttVar := rttVar s; rttStdDev := rttStdDev s |}.

Definition set_pktsRecv (s : pingStats) (v : Z) : pingStats :=
  {| Name := Name s; Addr := Addr s; pktsSent := pktsSent s;
     pktsRecv := v; rttAvg := rttAvg s;
     rttVar := rttVar s; rttStdDev := rttStdDev s |}.

Definition set_rttAvg (s : pingStats) (v : Z) : pingStats :=
  {| Name := Name s; Addr := Addr s; pktsSent := pktsSent s;
     pktsRecv := pktsRecv s; rttAvg := v;
     rttVar := rttVar s; rttStdDev := rttStdDev s |}.

Definition set_rttVar (s : pingStats) (v : float) : pingStats :=
  {| Name := Name s; Addr := Addr s; pktsSent := pktsSent s;
     pktsRecv := pktsRecv s; rttAvg := rttAvg s;
     rttVar := v; rttStdDev := rttStdDev s |}.

Definition set_rttStdDev (s : pingStats) (v : Z) : pingStats :=
  {| Name := Name s; Addr := Addr s; pktsSent := pktsSent s;
     pktsRecv := pktsRecv s; rttAvg := rttAvg s;
     rttVar := rttVar s; rttStdDev := v |}.

(** Where the prober stands in its callbacks. *)
Inductive wpc :=
| WIdle                                (* between two callbacks *)
| WSendLocked                          (* OnPktSend, mutex taken *)
| WSendDone                            (* [s.pktsSent++] done *)
| WRecvLocked (pkt : Packet)           (* OnPktRecv, mutex taken *)
| WRecvCounted (pkt : Packet)          (* [s.pktsRecv++] done *)
| WRecvFirst                           (* first sample: [s.rttAvg = pkt.Rtt] done *)
| WRecvDelta (pkt : Packet) (delta : Z)   (* [delta] computed *)
| WRecvAvg (pkt : Packet) (delta : Z)  (* [s.rttAvg += ...] done *)
| WRecvVar                             (* [s.rttVar += ...] done *)
| WRecvDone                            (* body done, unlock pending *)
| WPanicked.                           (* division by zero *)

(** Where the presenter stands in the row of this target, with the
    values it has read so far. *)
Inductive rpc :=
| RStart
| RLossLocked
| RLossRead (loss : float)
| RLoss (loss : float)
| RAvgLocked (loss : float)
| RAvgRead (loss : float) (avg : Z)
| RAvg (loss : float) (avg : Z)
| RDevLocked (loss : float) (avg : Z)
| RDevRead (loss : float) (avg dev : Z)
| RDone (loss : float) (avg dev : Z).

Record config := mkConfig {
  shared : pingStats;
  mtx : option thread;
  todo : list event;      (* callbacks the prober has yet to start *)
  wp : wpc;
  rp : rpc
}.

Definition initial (s : pingStats) (es : list event) : config :=
  {| shared := s; mtx := None; todo := es; wp := WIdle; rp := RStart |}.

Inductive step : config -> config -> Prop :=
(* the prober *)
| step_send_lock s pkt es r :
    step (mkConfig s None (EvSend pkt :: es) WIdle r)
         (mkConfig s (Some Prober) es WSendLocked r)
| step_send_incr s m es r :
    step (mkConfig s m es WSendLocked r)
         (mkConfig (set_pktsSent s (Go.add64 (pktsSent s) 1)) m es
            WSendDone r)
| step_send_unlock s m es r :
    step (mkConfig s m es WSendDone r) (mkConfig s None es WIdle r)
| step_recv_lock s pkt es r :
    step (mkConfig s None (EvRecv pkt :: es) WIdle r)
         (mkConfig s (Some Prober) es (WRecvLocked pkt) r)
| step_recv_incr s m es pkt r :
    step (mkConfig s m es (WRecvLocked pkt) r)
         (mkConfig (set_pktsRecv s (Go.add64 (pktsRecv s) 1)) m es
            (WRecvCounted pkt) r)
| step_recv_first s m es pkt r :
    pktsRecv s = 1%Z ->
    step (mkConfig s m es (WRecvCounted pkt) r)
         (mkConfig (set_rttAvg s (Rtt pkt)) m es WRecvFirst r)
| step_recv_first_var s m es r :
    step (mkConfig s m es WRecvFirst r)
         (mkConfig (set_rttVar s 0%float) m es WRecvDone r)
| step_recv_delta s m es pkt r :
    pktsRecv s <> 1%Z ->
    step (mkConfig s m es (WRecvCounted pkt) r)
         (mkConfig s m es
            (WRecvDelta pkt (Go.sub64 (Rtt pkt) (rttAvg s))) r)
| step_recv_avg s m es pkt delta q r :
    Go.div64 delta (pktsRecv s) = Some q ->
    step (mkConfig s m es (WRecvDelta pkt delta) r)
         (mkConfig (set_rttAvg s (Go.add64 (rttAvg s) q)) m es
            (WRecvAvg pkt delta) r)
| step_recv_panic s m es pkt delta r :
    Go.div64 delta (pktsRecv s) = None ->
    step (mkConfig s m es (WRecvDelta pkt delta) r)
         (mkConfig s m es WPanicked r)
| step_recv_var s m es pkt delta r :
    step (mkConfig s m es (WRecvAvg pkt delta) r)
         (mkConfig
            (set_rttVar s
               (rttVar s
                + Go.float64_of_int delta
                  * Go.float64_of_int (Go.sub64 (Rtt pkt) (rttAvg s)))%float)
            m es WRecvVar r)
| step_recv_dev s m es r :
    step (mkConfig s m es WRecvVar r)
         (mkConfig
            (set_rttStdDev s
               (Go.int_of_float64
                  (PrimFloat.sqrt
                     (rttVar s
                      / Go.float64_of_int (Go.sub64 (pktsRecv s) 1))%float)))
            m es WRecvDone r)
| step_recv_unlock s m es r :
    step (mkConfig s m es WRecvDone r) (mkConfig s None es WIdle r)
(* the presenter; a panic of the prober has ended the process *)
| step_loss_lock s es w :
    w <> WPanicked ->
    step (mkConfig s None es w RStart)
         (mkConfig s (Some Presenter) es w RLossLocked)
| step_loss_read s m es w :
    w <> WPanicked ->
    step (mkConfig s m es w RLossLocked)
         (mkConfig s m es w (RLossRead (PktLoss s)))
| step_loss_unlock s m es w loss :
    w <> WPanicked ->
    step (mkConfig s m es w (RLossRead loss))
         (mkConfig s None es w (RLoss loss))
| step_avg_lock s es w loss :
    w <> WPanicked ->
    step (mkConfig s None es w (RLoss loss))
         (mkConfig s (Some Presenter) es w (RAvgLocked loss))
| step_avg_read s m es w loss :
    w <> WPanicked ->
    step (mkConfig s m es w (RAvgLocked loss))
         (mkConfig s m es w (RAvgRead loss (RttAvg s)))
| step_avg_unlock s m es w loss avg :
    w <> WPanicked ->
    step (mkConfig s m es w (RAvgRead loss avg))
         (mkConfig s None es w (RAvg loss avg))
| step_dev_lock s es w loss avg :
    w <> WPanicked ->
    step (mkConfig s None es w (RAvg loss avg))
         (mkConfig s (Some Presenter) es w (RDevLocked loss avg))
| step_dev_read s m es w loss avg :
    w <> WPanicked ->
    step (mkConfig s m es w (RDevLocked loss avg))
         (mkConfig s m es w (RDevRead loss avg (RttStdDev s)))
| step_dev_unlock s m es w loss avg dev :
    w <> WPanicked ->
    step (mkConfig s m es w (RDevRead loss avg dev))
         (mkConfig s None es w (RDone loss avg dev)).

(** Executions: any number of steps. *)
Inductive steps : config -> config -> Prop :=
| steps_refl c : steps c c
| steps_step c1 c2 c3 : steps c1 c2 -> step c2 c3 -> steps c1 c3.

(** The row the presenter hands to the table once it has read all
    three values. *)
Definition rowRead (c : config) : option Row :=
  match rp c with
  | RDone loss avg dev =>
      Some [ Name (shared c); Addr (shared c);
             Fmt.sprintfLoss loss;
             DurationFmt.String_
               (DurationFmt.Round avg (100 * Duration.Microsecond));
             DurationFmt.String_
               (DurationFmt.Round dev (100 * Duration.Microsecond)) ]
  | _ => None
  end.
End Concurrent.

(** * Vocabulary of the properties *)

(** ** Sequences of callbacks on one target *)

Definition isSend (e : event) : bool :=
  match e with EvSend _ => true | EvRecv _ => false end.

Definition isRecv (e : event) : bool := negb (isSend e).

(** How many sends, and how many receives, a sequence of calls holds. *)
Definition sends (es : list event) : Z :=
  Z.of_nat (List.length (List.filter isSend es)).

Definition recvs (es : list event) : Z :=
  Z.of_nat (List.length (List.filter isRecv es)).

(** Each receive is preceded by a send of its own: no prefix holds
    more receives than sends. *)
Definition sendsFirst (es : list event) : Prop :=
  forall k : nat, (recvs (take k es) <= sends (take k es))%Z.

Definition sample_calls : list event :=
  [EvSend (mkPacket 0); EvRecv (mkPacket (Duration.ms 10));
   EvSend (mkPacket 0)].

Definition after_one_sample : pingStats :=
  {| Name := "gw"; Addr := "10.0.0.1"; pktsSent := 2;
     pktsRecv := 1; rttAvg := Duration.ms 10;
     rttVar := 0%float; rttStdDev := 0 |}.

(** ** Rows *)

(** The packet-loss cell of a row. *)
Definition lossCell (r : Row) : string := nth 2 r EmptyString.

(** ** Target lists *)

Definition hasBar (line : string) : Prop :=
  In "|"%char (list_ascii_of_string line).

Definition sample_list : string :=
  ("router|192.168.0.1" ++ newline ++ "printer" ++ newline)%string.

Definition sample_fs : FileSystem :=
  fun path =>
    if String.eqb path "targets.txt" then inr sample_list
    else inl ("open " ++ path ++ ": no such file or directory")%string.

(** A file given by its lines, each closed by a line feed. *)
Definition fileOf (lines : list (list ascii)) : string :=
  fold_right
    (fun l rest => (string_of_list_ascii l ++ String Bufio.LF rest)%string)
    EmptyString lines.

(** A line the scanner's buffer can hold. *)
Definition okLine (l : list ascii) : Prop :=
  ~ In Bufio.LF l /\ List.length l < Bufio.MaxScanTokenSize.

(** What [readPingTargets] prints when the file cannot be read. *)
Definition readError (err : string) : string :=
  Println2 "Error reading config file:" err.

(** ** Executions of the prober and the presenter *)

Module Observed.
Import Concurrent.

Definition wLocked (w : wpc) : bool :=
  match w with WIdle => false | _ => true end.

Definition rLocked (r : rpc) : bool :=
  match r with
  | RLossLocked | RLossRead _ | RAvgLocked _ | RAvgRead _ _
  | RDevLocked _ _ | RDevRead _ _ _ => true
  | _ => false
  end.

Definition lossOf (r : rpc) : option float :=
  match r with
  | RStart | RLossLocked => None
  | RLossRead l | RLoss l | RAvgLocked l | RAvgRead l _ | RAvg l _
  | RDevLocked l _ | RDevRead l _ _ | RDone l _ _ => Some l
  end.

Definition avgOf (r : rpc) : option Z :=
  match r with
  | RAvgRead _ a | RAvg _ a | RDevLocked _ a | RDevRead _ a _
  | RDone _ a _ => Some a
  | _ => None
  end.

Definition devOf (r : rpc) : option Z :=
  match r with
  | RDevRead _ _ d | RDone _ _ d => Some d
  | _ => None
  end.

(** The state of the target once the first [k] callbacks of [es0] are
    over, from the state [s0]. *)
Definition after (s0 : pingStats) (es0 : list event) (k : nat)
  : option pingStats :=
  run_events s0 (take k es0).

(** [v], when the presenter has read it, is what the accessor [f]
    returns in the state after [k] whole callbacks. *)
Definition seen {T} (s0 : pingStats) (es0 : list event)
    (f : pingStats -> T) (k : nat) (v : option T) : Prop :=
  forall x, v = Some x -> exists s, after s0 es0 k = Some s /\ x = f s.

(** The prober side: [sd] is the state after the callbacks that are
    over, [cur] what is left to do from there; inside a callback the
    shared fields stand between [sd] and the state after it. *)
Definition wInv (sd : pingStats) (cur : list event) (c : config) : Prop :=
  let recv := Go.add64 (pktsRecv sd) 1 in
  let counted := set_pktsRecv sd recv in
  match wp c with
  | WIdle => cur = todo c /\ shared c = sd
  | WSendLocked =>
      exists pkt, cur = EvSend pkt :: todo c /\ shared c = sd
  | WSendDone =>
      exists pkt, cur = EvSend pkt :: todo c
                  /\ shared c = OnPktSend sd pkt
  | WRecvLocked pkt => cur = EvRecv pkt :: todo c /\ shared c = sd
  | WRecvCounted pkt =>
      cur = EvRecv pkt :: todo c /\ shared c = counted
  | WRecvFirst =>
      exists pkt, cur = EvRecv pkt :: todo c /\ recv = 1%Z
                  /\ shared c = set_rttAvg counted (Rtt pkt)
  | WRecvDelta pkt delta =>
      cur = EvRecv pkt :: todo c /\ recv <> 1%Z
      /\ delta = Go.sub64 (Rtt pkt) (rttAvg sd)
      /\ shared c = counted
  | WRecvAvg pkt delta =>
      cur = EvRecv pkt :: todo c /\ recv <> 1%Z
      /\ delta = Go.sub64 (Rtt pkt) (rttAvg sd)
      /\ exists q, Go.div64 delta recv = Some q
                   /\ shared c
                      = set_rttAvg counted (Go.add64 (rttAvg sd) q)
  | WRecvVar =>
      exists pkt q,
        cur = EvRecv pkt :: todo c /\ recv <> 1%Z
        /\ Go.div64 (Go.sub64 (Rtt pkt) (rttAvg sd)) recv = Some q
        /\ shared c
           = set_rttVar
               (set_rttAvg counted (Go.add64 (rttAvg sd) q))
               (rttVar sd
                + Go.float64_of_int (Go.sub64 (Rtt pkt) (rttAvg sd))
                  * Go.float64_of_int
                      (Go.sub64 (Rtt pkt) (Go.add64 (rttAvg sd) q)))%float
  | WRecvDone =>
      exists pkt, cur = EvRecv pkt :: todo c
                  /\ OnPktRecv sd pkt = Some (shared c)
  | WPanicked => True
  end.

(** What holds of every configuration an execution reaches: the mutex
    is held by a thread exactly inside its critical sections, the shared
    fields are those of a whole number [done] of callbacks whenever the
    prober is outside its own, and each value the presenter holds was
    read in such a state, the three of them in this order. *)
Inductive Inv (s0 : pingStats) (es0 : list event) (c : config) : Prop :=
| mkInv (done : nat) (sd : pingStats) (k1 k2 k3 : nat) :
    after s0 es0 done = Some sd ->
    done <= List.length es0 ->
    wInv sd (drop done es0) c ->
    (wp c <> WPanicked ->
     (mtx c = Some Prober <-> wLocked (wp c) = true)) ->
    (mtx c = Some Presenter <-> rLocked (rp c) = true) ->
    k1 <= k2 -> k2 <= k3 -> k3 <= done ->
    seen s0 es0 PktLoss k1 (lossOf (rp c)) ->
    seen s0 es0 RttAvg k2 (avgOf (rp c)) ->
    seen s0 es0 RttStdDev k3 (devOf (rp c)) ->
    Inv s0 es0 c.

(** One send, then one reply after 10ms. *)
Definition ping_once : list event :=
  [EvSend (mkPacket 0); EvRecv (mkPacket (Duration.ms 10))].

Definition gw : pingStats := newPingStats "gw" "10.0.0.1".

(** The shared fields after the send, and after the reply. *)
Definition gw_sent : pingStats :=
  Eval vm_compute in OnPktSend gw (mkPacket 0).

Definition gw_replied : pingStats :=
  Eval vm_compute in
    set_rttVar
      (set_rttAvg (set_pktsRecv gw_sent 1) (Duration.ms 10)) 0%float.

(** The configuration in which the presenter has read the loss between
    the send and the reply, and the other two cells after the reply. *)
Definition torn : config :=
  {| shared := gw_replied; mtx := None; todo := []; wp := WIdle;
     rp := RDone (PktLoss gw_sent) (RttAvg gw_replied)
             (RttStdDev gw_replied) |}.
End Observed.

(** ** Ranges of a slice under [sort.Slice] *)

Module SortSpec.
Section Keys.
Context {A : Type} (key : A -> Z).

(** The comparison by key that [model.Update] hands to [sort.Slice]. *)
Definition keyLess (x y : A) : bool := (key x <? key y)%Z.

(** Every element at an index of [a, b) satisfies [P]. *)
Definition allR (P : A -> Prop) (d : list A) (a b : nat) : Prop :=
  forall k x, a <= k < b -> d !! k = Some x -> P x.

(** The keys at the indices of [a, b) do not decrease. *)
Definition sortedR (d : list A) (a b : nat) : Prop :=
  forall i j x y, a <= i -> i <= j -> j < b ->
    d !! i = Some x -> d !! j = Some y -> (key x <= key y)%Z.

(** [d'] is [d] outside [a, b). *)
Definition sameOut (a b : nat) (d d' : list A) : Prop :=
  forall k, k < a \/ b <= k -> d' !! k = d !! k.

(** [d'] is [d] with the elements at [a, b) rearranged. *)
Definition Within (a b : nat) (d d' : list A) : Prop :=
  d ≡ₚ d' /\ sameOut a b d d'.

(** The element before the range, when there is one, is no greater than
    any element of the range. *)
Definition lbound (d : list A) (a b : nat) : Prop :=
  a = 0 \/ exists p, d !! (a - 1) = Some p
                     /\ allR (fun x => (key p <= key x)%Z) d a b.

(** The elements at [a, b), in order. *)
Definition slice (a b : nat) (d : list A) : list A := drop a (take b d).

(** The elements of key [k], in the order of the list. *)
Definition withKey (k : Z) (d : list A) : list A :=
  List.filter (fun x => (key x =? k)%Z) d.

(** The node [p] of the heap laid out from index [first], of size [hi],
    is no smaller than its children. *)
Definition heapOK (d : list A) (first hi p : nat) : Prop :=
  forall c x y, c = 2 * p + 1 \/ c = 2 * p + 2 -> c < hi ->
    d !! (first + p) = Some x -> d !! (first + c) = Some y ->
    (key y <= key x)%Z.

Definition heapFrom (d : list A) (first hi lo : nat) : Prop :=
  forall p, lo <= p -> heapOK d first hi p.

(** The state of the partition between two rounds: the pivot [p] sits at
    [a], everything from [a + 1] up to [i] is smaller, everything after
    [j] is not. *)
Definition parted (d : list A) (a b i j : nat) (p : A) : Prop :=
  d !! a = Some p /\ a + 1 <= i /\ i <= j + 1 /\ j + 1 <= b
  /\ allR (fun x => (key x < key p)%Z) d (a + 1) i
  /\ allR (fun x => (key p <= key x)%Z) d (j + 1) b.

Definition partedEq (d : list A) (a b i j : nat) (p : A) : Prop :=
  d !! a = Some p /\ a + 1 <= i /\ i <= j + 1 /\ j + 1 <= b
  /\ allR (fun x => (key x <= key p)%Z) d (a + 1) i
  /\ allR (fun x => (key p < key x)%Z) d (j + 1) b.
End Keys.
End SortSpec.

(** ** Sample target lists *)

(** A target that has sent [sent] packets and received [recv] replies,
    with mean round-trip time [mean]. *)
Definition probed (name : string) (sent recv mean : Z) : pingStats :=
  {| Name := name; Addr := EmptyString; pktsSent := sent; pktsRecv := recv;
     rttAvg := mean; rttVar := 0%float; rttStdDev := 0 |}.

Definition targetA : pingStats := probed "A" 5 5 (Duration.ms 20).
Definition targetB : pingStats := probed "B" 5 5 (Duration.ms 10).
Definition targetC : pingStats := probed "C" 5 5 (Duration.ms 20).

(** Thirteen targets: the first at 20ms, the twelve others at 10ms. *)
Definition thirteen : list pingStats :=
  probed "t0" 5 5 (Duration.ms 20)
  :: map (fun name => probed name 5 5 (Duration.ms 10))
       ["t1"; "t2"; "t3"; "t4"; "t5"; "t6"; "t7"; "t8"; "t9"; "t10";
        "t11"; "t12"]%string.

(** A target with one reply after 10ms, and one that has sent three
    packets without any reply. *)
Definition answered : pingStats := probed "up" 1 1 (Duration.ms 10).
Definition silent : pingStats := probed "down" 3 0 0.

(** The targets of a ranking that have received nothing come after all
    those that have received something. *)
Definition unrepliedLast (out : list pingStats) : Prop :=
  forall i j x y,
    out !! i = Some x -> out !! j = Some y ->
    pktsRecv x = 0%Z -> (0 < pktsRecv y)%Z -> j < i.

(** Targets of equal mean keep their relative order from [ps] to [out]. *)
Definition sameOrderOfEquals (ps out : list pingStats) : Prop :=
  forall mean : Z,
    SortSpec.withKey RttAvg mean out = SortSpec.withKey RttAvg mean ps.

(** ** Proof steps shared by the lemmas *)

(** Closes the routine parts of an invariant of [Concurrent.step]. *)
Ltac inv_fin :=
  unfold Observed.wInv; simpl; try assumption; try lia;
  try (unfold Observed.seen; intros ? ?; discriminate);
  try (intuition congruence); eauto.

(** A fact about two looked-up elements, from a hypothesis on ranges:
    the look-ups come from the context, the bounds from arithmetic. *)
Ltac use_two H :=
  eapply H; [.. | eassumption | eassumption]; lia.

Ltac use_one H :=
  eapply H; [.. | eassumption]; lia.

Ltac by_sorted H :=
  eapply H; [| | | eassumption | eassumption]; lia.

Ltac by_between H :=
  eapply H; [| | eassumption | eassumption]; lia.

(** * Vocabulary of the further properties *)

(** ** Replies and their round-trip times *)

(** The round-trip times of the replies in a sequence of callbacks, in
    the order of the replies. *)
Definition rttsOf (es : list event) : list Z :=
  flat_map
    (fun e => match e with EvSend _ => [] | EvRecv pkt => [Rtt pkt] end) es.

Definition sumZ (xs : list Z) : Z := fold_right Z.add 0%Z xs.

(** Every sample lies between [lo] and [hi]. *)
Definition samplesIn (lo hi : Z) (xs : list Z) : Prop :=
  Forall (fun x => (lo <= x <= hi)%Z) xs.

(** The replies of a sequence of callbacks, and its sends. *)
Definition recvPart (es : list event) : list event := List.filter isRecv es.
Definition sendPart (es : list event) : list event := List.filter isSend es.

(** What the mean keeps between two callbacks when the round-trip times
    lie in [lo, hi] and add up to [total]: once a reply has come it lies
    in that range, and the count times the mean is off [total] by no
    more than half of count times (count - 1). *)
Definition meanOK (lo hi : Z) (s : pingStats) (total : Z) : Prop :=
  (0 <= pktsRecv s
   /\ (1 <= pktsRecv s -> lo <= rttAvg s <= hi)
   /\ (pktsRecv s = 0 -> total = 0)
   /\ 2 * Z.abs (pktsRecv s * rttAvg s - total)
      <= pktsRecv s * (pktsRecv s - 1))%Z.

(** What a target keeps while every reply takes the same time [x]. *)
Definition steadyOK (x : Z) (s : pingStats) : Prop :=
  (0 <= pktsRecv s)%Z /\ rttStdDev s = 0%Z
  /\ ((1 <= pktsRecv s)%Z -> rttAvg s = x /\ rttVar s = 0%float).

(** Two pings answered after 1ns and 2ns, and three answered after 10ms
    each. *)
Definition jittery : list event :=
  [EvSend (mkPacket 0); EvRecv (mkPacket (Duration.ns 1));
   EvSend (mkPacket 0); EvRecv (mkPacket (Duration.ns 2))].

Definition steady_calls : list event :=
  [EvSend (mkPacket 0); EvRecv (mkPacket (Duration.ms 10));
   EvSend (mkPacket 0); EvRecv (mkPacket (Duration.ms 10));
   EvSend (mkPacket 0); EvRecv (mkPacket (Duration.ms 10))].

(** ** Floats *)

(** A float that is a number and is not negative: zero, a positive
    finite number or the positive infinity. *)
Definition nonnegSF (x : spec_float) : Prop :=
  x = S754_zero false \/ (exists m e, x = S754_finite false m e)
  \/ x = S754_infinity false.

(** ** Cells *)

Definition avgCell (r : Row) : string := nth 3 r EmptyString.
Definition devCell (r : Row) : string := nth 4 r EmptyString.

(** The unit the two duration cells are rounded to. *)
Definition cellUnit : Z := (100 * Duration.Microsecond)%Z.

(** [d] is a multiple of [m] nearest to [x]. *)
Definition nearestMultiple (m x d : Z) : Prop :=
  (exists k, d = k * m)%Z /\ (2 * Z.abs (d - x) <= m)%Z.

(** How a duration of [k] tenths of a millisecond reads. *)
Definition tenthsOfMs (k : Z) : string :=
  (Fmt.itoa (k / 10)
   ++ (if (k mod 10 =? 0)%Z then EmptyString
       else String "." (String (DurationFmt.digit (k mod 10)) EmptyString))
   ++ "ms")%string.

(** ** Target lists, written and read *)

(** The line of the target list for a name and an address. *)
Definition lineOf (target : string * string) : list ascii :=
  list_ascii_of_string (fst target ++ "|" ++ snd target).

(** A line without line feed and carriage return that the scanner's
    buffer can hold. *)
Definition plainLine (l : list ascii) : Prop :=
  ~ In Bufio.LF l /\ ~ In Bufio.CR l
  /\ List.length l < Bufio.MaxScanTokenSize.

(** A name and an address that a line of the target list can carry:
    the name holds no separator (the address may). *)
Definition writable (target : string * string) : Prop :=
  ~ hasBar (fst target) /\ plainLine (lineOf target).

(** A line too long for the scanner's buffer. *)
Definition longLine (l : list ascii) : Prop :=
  ~ In Bufio.LF l /\ Bufio.MaxScanTokenSize <= List.length l.

(** The file of the same lines with a carriage return before every line
    feed. *)
Definition fileOfCRLF (lines : list (list ascii)) : string :=
  fileOf (map (fun l => l ++ [Bufio.CR]) lines).

(** The lines of a file: those that end in a line feed, and what
    follows the last line feed when the file goes on after it. *)
Definition linesOf (lines : list (list ascii)) (tail : list ascii)
  : list (list ascii) :=
  lines ++ match tail with [] => [] | _ => [tail] end.

(** A line the scanner's buffer has room for. *)
Definition fits (l : list ascii) : bool :=
  List.length l <? Bufio.MaxScanTokenSize.

(** The lines before the first one of 64 KiB or more. *)
Fixpoint beforeLong (ls : list (list ascii)) : list (list ascii) :=
  match ls with
  | [] => []
  | l :: rest => if fits l then l :: beforeLong rest else []
  end.

Definition sample_targets : list (string * string) :=
  [("router", "192.168.0.1"); ("dns", "9.9.9.9|backup")]%string.

Definition sample_lines : list (list ascii) :=
  map list_ascii_of_string ["router|192.168.0.1"; "printer"]%string.

(** A file system with the sample list written in four ways, an empty
    file, and a file whose second line is too long. *)
Definition overlong : list ascii := repeat "a"%char Bufio.MaxScanTokenSize.

Definition files : FileSystem :=
  fun path =>
    if String.eqb path "written.txt"
    then inr (fileOf (map lineOf sample_targets))
    else if String.eqb path "unix.txt" then inr (fileOf sample_lines)
    else if String.eqb path "dos.txt" then inr (fileOfCRLF sample_lines)
    else if String.eqb path "closed.txt"
    then inr (fileOf (sample_lines ++ [list_ascii_of_string "nas"]))
    else if String.eqb path "open.txt"
    then inr (fileOf sample_lines ++ "nas")%string
    else if String.eqb path "empty.txt" then inr EmptyString
    else if String.eqb path "long.txt"
    then inr (fileOf [list_ascii_of_string "router|192.168.0.1"]
              ++ string_of_list_ascii overlong
              ++ String Bufio.LF "printer")%string
    else inl ("open " ++ path ++ ": no such file or directory")%string.

(** A target list of three lines without separator, the second of
    64 KiB. *)
Definition cut_list : string :=
  (fileOf [list_ascii_of_string "printer"]
   ++ string_of_list_ascii overlong ++ String Bufio.LF "nas")%string.

Definition cut_fs : FileSystem :=
  fun path =>
    if String.eqb path "cut.txt" then inr cut_list
    else inl ("open " ++ path ++ ": no such file or directory")%string.

(** ** The command line *)

(** An argument that [flag.Parse] takes for a flag: a dash and at least
    one more character. *)
Definition flagLike (s : string) : bool :=
  match s with
  | String "-" (String _ _) => true
  | _ => false
  end.

(** The name [flag.Parse] reads off a flag: what follows the one or two
    dashes, up to an equals sign that is not its first character. *)
Definition flagName (s : string) : string :=
  match s with
  | String "-" (String "-" name) => Flag.beforeEq name
  | String "-" name => Flag.beforeEq name
  | _ => s
  end.

(** The help flags: [-h], [-help], [--h], [--help], with or without a
    value after an equals sign. *)
Definition helpFlag (s : string) : bool :=
  String.eqb (flagName s) "help" || String.eqb (flagName s) "h".

(** The start with no target at all. *)
Definition started_empty : started :=
  {| probers := []; initial := {| table := []; pings := [] |} |}.

(** ** Rankings *)

(** The means do not decrease along the list. *)
Definition ascending (ps : list pingStats) : Prop :=
  StronglySorted (fun x y => (RttAvg x <= RttAvg y)%Z) ps.

(** A target that has received no reply so far: a state that fewer than
    2^63 callbacks have brought a fresh target to, with no reply
    counted. *)
Definition sentOnly (t : pingStats) : Prop :=
  exists name addr es,
    (Z.of_nat (List.length es) <= Go.maxInt64)%Z
    /\ run_events (newPingStats name addr) es = Some t
    /\ pktsRecv t = 0%Z.

(** Two targets without a reply, the first with one packet sent. *)
Definition waiting : model :=
  {| table := [];
     pings := [OnPktSend (newPingStats "gw" "10.0.0.1") (mkPacket 0);
               newPingStats "dns" "9.9.9.9"] |}.

(** Thirteen fresh targets. *)
Definition idle_targets : list pingStats :=
  map (fun name => newPingStats name EmptyString)
    ["t0"; "t1"; "t2"; "t3"; "t4"; "t5"; "t6"; "t7"; "t8"; "t9"; "t10";
     "t11"; "t12"]%string.

(** ** Executions, continued *)

Module ObservedMore.
Import Concurrent.

(** The run is over: the prober has made all its callbacks and the
    presenter holds the three values of the row. *)
Definition finished (c : config) : Prop :=
  todo c = [] /\ wp c = WIdle
  /\ exists loss avg dev, rp c = RDone loss avg dev.

(** The prober inside [OnPktSend], holding the mutex, the presenter
    about to start its row. *)
Definition sending : config :=
  {| shared := Observed.gw; mtx := Some Prober;
     todo := [EvRecv (mkPacket (Duration.ms 10))];
     wp := WSendLocked; rp := RStart |}.
End ObservedMore.

(** * Properties *)

(** ** Fixed-width arithmetic *)

Lemma wrap64_inrange (z : Z) : Go.inInt64 z -> Go.wrap64 z = z.
Proof.
  unfold Go.inInt64, Go.minInt64, Go.maxInt64, Go.wrap64. intros H.
  rewrite Z.mod_small; lia.
Qed.

Lemma wrap64_bounds (z : Z) : Go.inInt64 (Go.wrap64 z).
Proof.
  unfold Go.inInt64, Go.minInt64, Go.maxInt64, Go.wrap64.
  pose proof (Z.mod_pos_bound (z + 2 ^ 63) (2 ^ 64) ltac:(lia)). lia.
Qed.

Lemma add64_small (x y : Z) :
  Go.inInt64 (x + y) -> Go.add64 x y = (x + y)%Z.
Proof. apply wrap64_inrange. Qed.

Lemma sub64_small (x y : Z) :
  Go.inInt64 (x - y) -> Go.sub64 x y = (x - y)%Z.
Proof. apply wrap64_inrange. Qed.

(** ** The counters *)

Section Counters.
Local Open Scope Z_scope.

Lemma sends_cons e es :
  sends (e :: es) = (if isSend e then 1 else 0) + sends es.
Proof. unfold sends. simpl. destruct (isSend e); simpl; lia. Qed.

Lemma recvs_cons e es :
  recvs (e :: es) = (if isSend e then 0 else 1) + recvs es.
Proof.
  unfold recvs, isRecv. simpl. destruct (isSend e); simpl; lia.
Qed.

Lemma sends_nonneg es : 0 <= sends es.
Proof. unfold sends. lia. Qed.

Lemma recvs_nonneg es : 0 <= recvs es.
Proof. unfold recvs. lia. Qed.

Lemma sends_recvs_length es :
  sends es + recvs es = Z.of_nat (List.length es).
Proof.
  induction es as [|e es IH]; [reflexivity|].
  rewrite sends_cons, recvs_cons. simpl List.length.
  destruct (isSend e); lia.
Qed.

Lemma sends_take_le k es : sends (take k es) <= sends es.
Proof.
  revert k; induction es as [|e es IH]; intros [|k]; simpl;
    try apply sends_nonneg; try lia.
  rewrite !sends_cons. specialize (IH k). lia.
Qed.

Lemma recvs_take_le k es : recvs (take k es) <= recvs es.
Proof.
  revert k; induction es as [|e es IH]; intros [|k]; simpl;
    try apply recvs_nonneg; try lia.
  rewrite !recvs_cons. specialize (IH k). lia.
Qed.

Lemma sends_take_mono j k es :
  (j <= k)%nat -> sends (take j es) <= sends (take k es).
Proof.
  intros Hjk. replace (take j es) with (take j (take k es)).
  - apply sends_take_le.
  - rewrite take_take. f_equal. lia.
Qed.

Lemma recvs_take_mono j k es :
  (j <= k)%nat -> recvs (take j es) <= recvs (take k es).
Proof.
  intros Hjk. replace (take j es) with (take j (take k es)).
  - apply recvs_take_le.
  - rewrite take_take. f_equal. lia.
Qed.

(** As long as neither counter reaches the end of the [int] range, a
    sequence of calls runs to its end without a panic and leaves the
    two counters at the numbers of sends and of receives. *)
Lemma run_events_counters es : forall s,
  0 <= pktsSent s -> 0 <= pktsRecv s ->
  pktsSent s + sends es <= Go.maxInt64 ->
  pktsRecv s + recvs es <= Go.maxInt64 ->
  exists s', run_events s es = Some s'
    /\ pktsSent s' = pktsSent s + sends es
    /\ pktsRecv s' = pktsRecv s + recvs es
    /\ Name s' = Name s /\ Addr s' = Addr s.
Proof.
  induction es as [|e es IH]; intros s HS HR HSm HRm.
  - exists s. unfold sends, recvs. simpl. repeat split; lia.
  - rewrite sends_cons in HSm. rewrite recvs_cons in HRm.
    pose proof (sends_nonneg es) as Hs0.
    pose proof (recvs_nonneg es) as Hr0.
    assert (Hmax : Go.maxInt64 = 2 ^ 63 - 1) by reflexivity.
    destruct e as [pkt|pkt]; simpl in HSm, HRm.
    + simpl.
      destruct (IH (OnPktSend s pkt)) as (s' & Hrun & H1 & H2 & H3 & H4);
        simpl; rewrite ?add64_small;
        try (unfold Go.inInt64, Go.minInt64; lia).
      exists s'. rewrite sends_cons, recvs_cons. simpl.
      simpl in H1, H2, H3, H4. rewrite add64_small in H1
        by (unfold Go.inInt64, Go.minInt64; lia).
      repeat split; try assumption; lia.
    + assert (Hadd : Go.add64 (pktsRecv s) 1 = pktsRecv s + 1)
        by (apply add64_small; unfold Go.inInt64, Go.minInt64; lia).
      assert (exists s1, OnPktRecv s pkt = Some s1
                /\ pktsSent s1 = pktsSent s
                /\ pktsRecv s1 = pktsRecv s + 1
                /\ Name s1 = Name s /\ Addr s1 = Addr s)
        as (s1 & Hs1 & E1 & E2 & E3 & E4).
      { unfold OnPktRecv. rewrite Hadd.
        destruct (pktsRecv s + 1 =? 1) eqn:E.
        - eexists; split; [reflexivity|]. simpl. auto.
        - unfold Go.div64.
          destruct (pktsRecv s + 1 =? 0) eqn:E0; [lia|].
          eexists; split; [reflexivity|]. simpl. auto. }
      simpl. rewrite Hs1.
      destruct (IH s1) as (s' & Hrun & H1 & H2 & H3 & H4); try lia.
      exists s'. rewrite sends_cons, recvs_cons. simpl.
      repeat split; try congruence; lia.
Qed.
End Counters.

Section CountersInvariant.
Local Open Scope Z_scope.

Lemma run_prefix_counters name addr es k :
  Z.of_nat (List.length es) <= Go.maxInt64 ->
  exists s, run_events (newPingStats name addr) (take k es) = Some s
    /\ pktsSent s = sends (take k es)
    /\ pktsRecv s = recvs (take k es).
Proof.
  intros Hlen.
  pose proof (sends_recvs_length es) as Hsum.
  pose proof (sends_take_le k es) as Hs.
  pose proof (recvs_take_le k es) as Hr.
  pose proof (sends_nonneg es) as Hs0.
  pose proof (recvs_nonneg es) as Hr0.
  pose proof (sends_nonneg (take k es)) as Hsk.
  pose proof (recvs_nonneg (take k es)) as Hrk.
  destruct (run_events_counters (take k es) (newPingStats name addr))
    as (s & Hrun & H1 & H2 & _); simpl; try lia.
  exists s. simpl in H1, H2. repeat split; try assumption; lia.
Qed.

(** C7.  Along every sequence of [OnPktSend] / [OnPktRecv] calls on one
    fresh target in which each receive has its send before it (and
    which is shorter than the range of an [int], as any run is), after
    every call the target has received no more packets than it has
    sent, both counters are non-negative, and neither has gone down
    since any earlier point of the sequence. *)
Theorem counters_invariant (name addr : string) (es : list event) :
  sendsFirst es ->
  Z.of_nat (List.length es) <= Go.maxInt64 ->
  forall k : nat,
  exists s,
    run_events (newPingStats name addr) (take k es) = Some s
    /\ 0 <= pktsRecv s <= pktsSent s
    /\ forall j : nat, (j <= k)%nat ->
       exists s0,
         run_events (newPingStats name addr) (take j es) = Some s0
         /\ pktsSent s0 <= pktsSent s
         /\ pktsRecv s0 <= pktsRecv s.
Proof.
  intros Hwf Hlen k.
  destruct (run_prefix_counters name addr es k Hlen) as (s & Hrun & HS & HR).
  exists s. split; [exact Hrun|]. split.
  - rewrite HS, HR. split; [apply recvs_nonneg | apply Hwf].
  - intros j Hjk.
    destruct (run_prefix_counters name addr es j Hlen)
      as (s0 & Hrun0 & HS0 & HR0).
    exists s0. split; [exact Hrun0|].
    rewrite HS, HR, HS0, HR0.
    split; [apply sends_take_mono | apply recvs_take_mono]; exact Hjk.
Qed.

Lemma sample_calls_sendsFirst : sendsFirst sample_calls.
Proof.
  intros k. do 4 (destruct k as [|k]; [vm_compute; discriminate|]).
  vm_compute; discriminate.
Qed.

Lemma counters_invariant_witness :
  exists s,
    run_events (newPingStats "gw" "10.0.0.1") (take 2 sample_calls) = Some s
    /\ 0 <= pktsRecv s <= pktsSent s
    /\ forall j : nat, (j <= 2)%nat ->
       exists s0,
         run_events (newPingStats "gw" "10.0.0.1") (take j sample_calls)
           = Some s0
         /\ pktsSent s0 <= pktsSent s
         /\ pktsRecv s0 <= pktsRecv s.
Proof.
  apply (counters_invariant "gw" "10.0.0.1" sample_calls).
  - exact sample_calls_sendsFirst.
  - vm_compute; discriminate.
Defined.
End CountersInvariant.

(** ** Welford's update *)

Section Welford.
Local Open Scope Z_scope.

Lemma OnPktRecv_first s pkt :
  pktsRecv s = 0 ->
  exists s', OnPktRecv s pkt = Some s'
    /\ pktsRecv s' = 1
    /\ rttAvg s' = Rtt pkt
    /\ rttVar s' = 0%float.
Proof.
  intros H0. unfold OnPktRecv. rewrite H0.
  eexists; split; [reflexivity|]. simpl. auto.
Qed.

Lemma OnPktRecv_later s pkt :
  1 <= pktsRecv s < Go.maxInt64 ->
  let n := pktsRecv s + 1 in
  let delta := Go.sub64 (Rtt pkt) (rttAvg s) in
  let mean := Go.add64 (rttAvg s) (Go.wrap64 (Z.quot delta n)) in
  let acc :=
    (rttVar s
     + Go.float64_of_int delta
       * Go.float64_of_int (Go.sub64 (Rtt pkt) mean))%float in
  exists s', OnPktRecv s pkt = Some s'
    /\ pktsRecv s' = n
    /\ rttAvg s' = mean
    /\ rttVar s' = acc
    /\ rttStdDev s'
       = Go.int_of_float64
           (PrimFloat.sqrt (acc / Go.float64_of_int (n - 1))%float).
Proof.
  intros Hn n delta mean acc.
  assert (Hmax : Go.maxInt64 = 2 ^ 63 - 1) by reflexivity.
  assert (Hadd : Go.add64 (pktsRecv s) 1 = n)
    by (apply add64_small; unfold Go.inInt64, Go.minInt64; lia).
  assert (Hsub : Go.sub64 n 1 = n - 1)
    by (apply sub64_small; unfold Go.inInt64, Go.minInt64; lia).
  unfold OnPktRecv. rewrite Hadd.
  destruct (n =? 1) eqn:E1; [lia|].
  unfold Go.div64. destruct (n =? 0) eqn:E0; [lia|].
  eexists; split; [reflexivity|]. simpl.
  rewrite Hsub. auto.
Qed.

(** C4.  [OnPktRecv] is Welford's update in Go's arithmetic: the first
    sample sets the mean to the round-trip time and the accumulator to
    zero; a later sample, the n-th, moves the mean by the truncated
    quotient of [delta = rtt - mean] by n, adds [delta] times the
    distance of the sample to the new mean to the accumulator, and
    stores the square root of the accumulator over n - 1, truncated to
    nanoseconds.  On a fresh target, samples of 10ms, 20ms and 30ms
    leave a mean of 20ms and a standard deviation of 10ms. *)
Theorem OnPktRecv_welford :
  (forall s pkt, pktsRecv s = 0 ->
     exists s', OnPktRecv s pkt = Some s'
       /\ pktsRecv s' = 1
       /\ rttAvg s' = Rtt pkt
       /\ rttVar s' = 0%float)
  /\ (forall s pkt, 1 <= pktsRecv s < Go.maxInt64 ->
        let n := pktsRecv s + 1 in
        let delta := Go.sub64 (Rtt pkt) (rttAvg s) in
        let mean := Go.add64 (rttAvg s) (Go.wrap64 (Z.quot delta n)) in
        let acc :=
          (rttVar s
           + Go.float64_of_int delta
             * Go.float64_of_int (Go.sub64 (Rtt pkt) mean))%float in
        exists s', OnPktRecv s pkt = Some s'
          /\ pktsRecv s' = n
          /\ rttAvg s' = mean
          /\ rttVar s' = acc
          /\ rttStdDev s'
             = Go.int_of_float64
                 (PrimFloat.sqrt (acc / Go.float64_of_int (n - 1))%float))
  /\ (forall name addr,
        exists s',
          run_events (newPingStats name addr)
            (recv_all [Duration.ms 10; Duration.ms 20; Duration.ms 30])
          = Some s'
          /\ RttAvg s' = Duration.ms 20
          /\ RttStdDev s' = Duration.ms 10).
Proof.
  split; [|split].
  - exact OnPktRecv_first.
  - exact OnPktRecv_later.
  - intros name addr. eexists. split; [reflexivity|].
    split; vm_compute; reflexivity.
Qed.

Lemma OnPktRecv_welford_witness :
  exists s',
    OnPktRecv after_one_sample (mkPacket (Duration.ms 20)) = Some s'
    /\ pktsRecv s' = 2
    /\ rttAvg s' = Duration.ms 15
    /\ rttStdDev s' = 7071067.
Proof.
  destruct (proj1 (proj2 OnPktRecv_welford) after_one_sample
              (mkPacket (Duration.ms 20)))
    as (s' & H1 & H2 & H3 & H4 & H5).
  - unfold Go.maxInt64. simpl. lia.
  - exists s'. split; [exact H1|]. split; [exact H2|].
    split; [rewrite H3; vm_compute; reflexivity|].
    rewrite H5. vm_compute. reflexivity.
Defined.

(** C6.  One [OnPktRecv] with round-trip time [X] on a target that has
    only sent so far leaves the mean at [X], the accumulator at zero
    and the standard deviation at zero. *)
Theorem OnPktRecv_first_sample
    (name addr : string) (sent : list Packet) (X : Z) :
  exists s,
    run_events (newPingStats name addr)
      (map EvSend sent ++ [EvRecv (mkPacket X)]) = Some s
    /\ pktsRecv s = 1
    /\ RttAvg s = X
    /\ RttStdDev s = 0
    /\ rttVar s = 0%float.
Proof.
  assert (Hgen : forall s, pktsRecv s = 0 -> rttStdDev s = 0 ->
    exists s', run_events s (map EvSend sent ++ [EvRecv (mkPacket X)])
               = Some s'
      /\ pktsRecv s' = 1 /\ RttAvg s' = X /\ RttStdDev s' = 0
      /\ rttVar s' = 0%float).
  { induction sent as [|p sent IH]; intros s H0 Hd.
    - simpl. unfold OnPktRecv. rewrite H0. simpl.
      eexists; split; [reflexivity|]. simpl. auto.
    - simpl. apply IH; assumption. }
  apply Hgen; reflexivity.
Qed.

(** C10.  The mean moves by the truncated integer quotient of the
    difference by the count, so it can differ from the arithmetic mean
    of the samples: after samples of 1ns and 2ns it is 1ns, and twice
    1ns is not 1ns + 2ns. *)
Theorem RttAvg_truncates :
  (forall s pkt, 1 <= pktsRecv s < Go.maxInt64 ->
     exists s', OnPktRecv s pkt = Some s'
       /\ RttAvg s'
          = Go.add64 (RttAvg s)
              (Go.wrap64
                 (Z.quot (Go.sub64 (Rtt pkt) (RttAvg s)) (pktsRecv s + 1))))
  /\ (forall name addr,
        exists s,
          run_events (newPingStats name addr)
            (recv_all [Duration.ns 1; Duration.ns 2]) = Some s
          /\ RttAvg s = Duration.ns 1
          /\ 2 * RttAvg s <> Duration.ns 1 + Duration.ns 2).
Proof.
  split.
  - intros s pkt Hn.
    destruct (OnPktRecv_later s pkt Hn) as (s' & H1 & _ & H3 & _).
    exists s'. split; [exact H1|]. exact H3.
  - intros name addr. eexists. split; [reflexivity|].
    split; vm_compute; [reflexivity | discriminate].
Qed.
End Welford.

Section WelfordWitness.
Local Open Scope Z_scope.

Lemma RttAvg_truncates_witness :
  exists s',
    OnPktRecv after_one_sample (mkPacket (Duration.ms 20)) = Some s'
    /\ RttAvg s'
       = Go.add64 (RttAvg after_one_sample)
           (Go.wrap64
              (Z.quot
                 (Go.sub64 (Rtt (mkPacket (Duration.ms 20)))
                    (RttAvg after_one_sample))
                 (pktsRecv after_one_sample + 1))).
Proof.
  apply (proj1 RttAvg_truncates after_one_sample
           (mkPacket (Duration.ms 20))).
  unfold Go.maxInt64. simpl. lia.
Defined.
End WelfordWitness.

(** ** Packet loss *)

Section PacketLoss.
Local Open Scope Z_scope.

(** Past the first send the accessor is the quotient it is meant to
    be; with four packets sent and two received the cell reads 50.0%. *)
Lemma PktLoss_half name addr avg var dev :
  lossCell (rowOf (mkPingStats name addr 4 2 avg var dev)) = "50.0%"%string.
Proof. vm_compute. reflexivity. Qed.

Lemma fresh_row_loss name addr :
  lossCell (rowOf (newPingStats name addr)) = "NaN%"%string.
Proof. vm_compute. reflexivity. Qed.

(** C3.  On a target that has not sent anything [PktLoss] divides zero
    by zero: it returns the float NaN, and the row of the target shows
    it, as the text NaN%, in its packet-loss cell. *)
Theorem PktLoss_unsent_is_NaN (name addr : string) :
  PrimFloat.is_nan (PktLoss (newPingStats name addr)) = true
  /\ lossCell (rowOf (newPingStats name addr)) = "NaN%"%string.
Proof. split; [vm_compute; reflexivity | apply fresh_row_loss]. Qed.

End PacketLoss.

(** ** Loading the target list *)

Section Loading.

Lemma index_bar_none line : ~ hasBar line -> index 0 "|" line = None.
Proof.
  unfold hasBar. induction line as [|c line IH]; intros Hno.
  - reflexivity.
  - simpl in Hno. cbn [index String.prefix].
    destruct (ascii_dec "|" c) as [E|Hne].
    + exfalso. apply Hno. left. now symmetry.
    + rewrite IH; [reflexivity|]. intros Hin. apply Hno. now right.
Qed.

Lemma Cut_no_bar line :
  ~ hasBar line -> Strings.Cut line "|" = (line, EmptyString, false).
Proof. intros Hno. unfold Strings.Cut. now rewrite index_bar_none. Qed.

Lemma targetOfLine_no_bar line :
  ~ hasBar line -> targetOfLine line = newPingStats line EmptyString.
Proof. intros Hno. unfold targetOfLine. now rewrite Cut_no_bar. Qed.

(** The scanner reads a line that fits its buffer up to the line feed
    and goes on after it. *)
Lemma scan_line l : forall rest cur n,
  ~ In Bufio.LF l ->
  n + List.length l < Bufio.MaxScanTokenSize ->
  Bufio.scan (string_of_list_ascii l ++ String Bufio.LF rest) cur n
  = Bufio.token (rev l ++ cur) :: Bufio.scan rest [] 0.
Proof.
  induction l as [|c l IH]; intros rest cur n Hno Hlen.
  - cbn [string_of_list_ascii String.append Bufio.scan rev app].
    rewrite Ascii.eqb_refl.
    destruct (Bufio.MaxScanTokenSize <=? n) eqn:E; [|reflexivity].
    apply Nat.leb_le in E. simpl in Hlen. lia.
  - cbn [string_of_list_ascii String.append Bufio.scan].
    destruct (Ascii.eqb c Bufio.LF) eqn:E.
    + apply Ascii.eqb_eq in E. exfalso. apply Hno. now left.
    + rewrite IH.
      * simpl rev. now rewrite <- app_assoc.
      * intros Hin. apply Hno. now right.
      * simpl in Hlen. lia.
Qed.

(** On a file whose lines fit the buffer, the scanner delivers the lines
    of the file, each without its line feed and without one trailing
    carriage return. *)
Lemma scanLines_fileOf lines :
  Forall okLine lines ->
  Bufio.scanLines (fileOf lines)
  = map (fun l => Bufio.token (rev l)) lines.
Proof.
  unfold Bufio.scanLines.
  induction lines as [|l lines IH]; intros Hok.
  - reflexivity.
  - inversion Hok as [|? ? [Hno Hlen] Hrest]; subst.
    cbn [fileOf fold_right]. rewrite scan_line by (simpl; assumption).
    rewrite app_nil_r. cbn [map]. f_equal. now apply IH.
Qed.

(** So a readable file of such lines loads into one target per line. *)
Lemma readPingTargets_fileOf (fs : FileSystem) path lines :
  fs path = inr (fileOf lines) ->
  Forall okLine lines ->
  readPingTargets fs path
  = Continue (map (fun l => targetOfLine (Bufio.token (rev l))) lines).
Proof.
  intros Hfs Hok. unfold readPingTargets.
  now rewrite Hfs, scanLines_fileOf, map_map.
Qed.
End Loading.

(** ** Start-up failures *)

Section Startup.

Lemma main_unreadable prog positional fs args err :
  Flag.Parse prog args = Continue positional ->
  fs (Flag.Arg positional 0) = inl err ->
  main prog args fs = Exit 1 (readError err) EmptyString.
Proof.
  intros Hparse Hfs. unfold main, readPingTargets.
  now rewrite Hparse, Hfs.
Qed.

(** The claim of C9 as it was stated fails on a missing file: the
    process does exit with a non-zero status, but the message of the
    failed read is on standard output and standard error stays
    empty. *)
Lemma main_unreadable_stderr_empty :
  main "pinglist" ["missing.txt"%string] sample_fs
  = Exit 1
      (readError "open missing.txt: no such file or directory")
      EmptyString
  /\ ~ (exists code out err,
          main "pinglist" ["missing.txt"%string] sample_fs
          = Exit code out err
          /\ code <> 0%Z /\ err <> EmptyString).
Proof.
  split; [reflexivity|].
  intros (code & out & err & Hmain & _ & Herr).
  apply Herr. vm_compute in Hmain. now inversion Hmain.
Qed.

(** C9, amended.  Without a path argument [main] reads the file named
    by the empty string; when that read fails, and likewise when the
    file named by the first argument cannot be read, the line
    [Error reading config file: <error>] goes to standard output,
    nothing goes to standard error, and the process exits with status
    1 at once: no prober is started and no table is built. *)
Theorem main_read_failure (prog : string) (fs : FileSystem) :
  (forall err, fs EmptyString = inl err ->
     main prog [] fs = Exit 1 (readError err) EmptyString)
  /\ (forall path rest err,
        Flag.Parse prog (path :: rest) = Continue (path :: rest) ->
        fs path = inl err ->
        main prog (path :: rest) fs = Exit 1 (readError err) EmptyString).
Proof.
  split.
  - intros err Hfs. now apply (main_unreadable prog []).
  - intros path rest err Hparse Hfs.
    now apply (main_unreadable prog (path :: rest)).
Qed.

Lemma main_read_failure_witness :
  main "pinglist" [] sample_fs
  = Exit 1 (readError "open : no such file or directory") EmptyString
  /\ main "pinglist" ["missing.txt"%string] sample_fs
     = Exit 1 (readError "open missing.txt: no such file or directory")
         EmptyString.
Proof.
  split.
  - apply (proj1 (main_read_failure "pinglist" sample_fs)). reflexivity.
  - apply (proj2 (main_read_failure "pinglist" sample_fs)); reflexivity.
Defined.
End Startup.

(** ** The presenter against the prober *)

Module ConcurrentFacts.
Import Concurrent.

Lemma steps_cons c1 c2 c3 : step c1 c2 -> steps c2 c3 -> steps c1 c3.
Proof.
  intros H12 H23. induction H23 as [c|c2 c3 c4 _ IH H34].
  - eapply steps_step; [apply steps_refl | exact H12].
  - eapply steps_step; [apply IH; exact H12 | exact H34].
Qed.
Import Observed.

Lemma run_events_app es1 : forall s es2,
  run_events s (es1 ++ es2)
  = match run_events s es1 with
    | Some s' => run_events s' es2
    | None => None
    end.
Proof.
  induction es1 as [|e es1 IH]; intros s es2; simpl; [reflexivity|].
  destruct (apply_event s e); [apply IH | reflexivity].
Qed.

Lemma drop_cons_inv {T} (l : list T) n x rest :
  drop n l = x :: rest ->
  n < List.length l /\ take (S n) l = take n l ++ [x]
  /\ drop (S n) l = rest.
Proof.
  revert n; induction l as [|y l IH]; intros [|n] H; simpl in *;
    try discriminate.
  - inversion H; subst. split; [lia|]. split; [now rewrite take_0|].
    reflexivity.
  - destruct (IH n H) as (H1 & H2 & H3).
    split; [lia|]. split; [now rewrite H2 | exact H3].
Qed.

Lemma after_next s0 es0 done sd e rest sd' :
  after s0 es0 done = Some sd ->
  drop done es0 = e :: rest ->
  apply_event sd e = Some sd' ->
  after s0 es0 (S done) = Some sd'
  /\ S done <= List.length es0
  /\ drop (S done) es0 = rest.
Proof.
  unfold after. intros Hrun Hdrop Hev.
  destruct (drop_cons_inv _ _ _ _ Hdrop) as (Hlt & Htake & Hrest).
  rewrite Htake, run_events_app, Hrun. simpl. rewrite Hev.
  split; [reflexivity|]. split; [lia | exact Hrest].
Qed.

Lemma seen_none {T} s0 es0 (f : pingStats -> T) k : seen s0 es0 f k None.
Proof. intros x Hx. discriminate. Qed.

Lemma seen_now {T} s0 es0 (f : pingStats -> T) k s :
  after s0 es0 k = Some s -> seen s0 es0 f k (Some (f s)).
Proof. intros Hk x [= <-]. now exists s. Qed.

Lemma Inv_initial s0 es0 : Inv s0 es0 (initial s0 es0).
Proof.
  apply (mkInv s0 es0 _ 0 s0 0 0 0); simpl;
    try reflexivity; try lia; try apply seen_none.
  - split; [now rewrite drop_0 | reflexivity].
  - intros _. split; discriminate.
  - split; discriminate.
Qed.

Lemma OnPktRecv_first_steps sd pkt :
  Go.add64 (pktsRecv sd) 1 = 1%Z ->
  OnPktRecv sd pkt
  = Some (set_rttVar
            (set_rttAvg (set_pktsRecv sd (Go.add64 (pktsRecv sd) 1)) (Rtt pkt))
            0%float).
Proof. intros H. unfold OnPktRecv. rewrite H. reflexivity. Qed.

Lemma OnPktRecv_later_steps sd pkt q :
  Go.add64 (pktsRecv sd) 1 <> 1%Z ->
  Go.div64 (Go.sub64 (Rtt pkt) (rttAvg sd)) (Go.add64 (pktsRecv sd) 1)
  = Some q ->
  let counted := set_pktsRecv sd (Go.add64 (pktsRecv sd) 1) in
  let averaged := set_rttAvg counted (Go.add64 (rttAvg sd) q) in
  let summed :=
    set_rttVar averaged
      (rttVar sd
       + Go.float64_of_int (Go.sub64 (Rtt pkt) (rttAvg sd))
         * Go.float64_of_int (Go.sub64 (Rtt pkt) (Go.add64 (rttAvg sd) q)))%float in
  OnPktRecv sd pkt
  = Some (set_rttStdDev summed
            (Go.int_of_float64
               (PrimFloat.sqrt
                  (rttVar summed
                   / Go.float64_of_int (Go.sub64 (pktsRecv summed) 1))%float))).
Proof.
  intros Hne Hq. unfold OnPktRecv.
  destruct (Go.add64 (pktsRecv sd) 1 =? 1)%Z eqn:E; [apply Z.eqb_eq in E; contradiction|].
  rewrite Hq. reflexivity.
Qed.

Lemma idle_of_presenter w m :
  w <> WPanicked ->
  (w <> WPanicked -> (m = Some Prober <-> wLocked w = true)) ->
  m = Some Presenter -> w = WIdle.
Proof.
  intros Hw Hm ->. destruct (Hm Hw) as [_ H].
  destruct w; try reflexivity; simpl in H; specialize (H eq_refl);
    discriminate.
Qed.

Lemma Inv_step s0 es0 c c' : Inv s0 es0 c -> step c c' -> Inv s0 es0 c'.
Proof.
  intros [done sd k1 k2 k3 Hafter Hle Hw Hmw Hmr H12 H23 H3d Hl Ha Hd] Hstep.
  inversion Hstep; subst; clear Hstep; unfold wInv in Hw; simpl in *.
  - (* send: lock *)
    destruct Hw as [Hcur ->].
    apply (mkInv s0 es0 _ done sd k1 k2 k3); inv_fin.
  - (* send: increment *)
    destruct Hw as (pkt & Hcur & ->).
    apply (mkInv s0 es0 _ done sd k1 k2 k3); inv_fin.
  - (* send: unlock *)
    destruct Hw as (pkt & Hcur & ->).
    destruct (after_next s0 es0 done sd _ _ (OnPktSend sd pkt) Hafter Hcur
                eq_refl) as (Hafter' & Hle' & Hrest).
    apply (mkInv s0 es0 _ (S done) (OnPktSend sd pkt) k1 k2 k3); inv_fin.
  - (* receive: lock *)
    destruct Hw as [Hcur ->].
    apply (mkInv s0 es0 _ done sd k1 k2 k3); inv_fin.
  - (* receive: count *)
    destruct Hw as [Hcur ->].
    apply (mkInv s0 es0 _ done sd k1 k2 k3); inv_fin.
  - (* receive: first sample, mean *)
    destruct Hw as [Hcur ->]. simpl in *.
    apply (mkInv s0 es0 _ done sd k1 k2 k3); inv_fin.
  - (* receive: first sample, accumulator *)
    destruct Hw as (pkt & Hcur & Hone & ->).
    apply (mkInv s0 es0 _ done sd k1 k2 k3); inv_fin.
    exists pkt. split; [exact Hcur|]. now apply OnPktRecv_first_steps.
  - (* receive: delta *)
    destruct Hw as [Hcur ->]. simpl in *.
    apply (mkInv s0 es0 _ done sd k1 k2 k3); inv_fin.
  - (* receive: mean *)
    destruct Hw as (Hcur & Hne & -> & ->). simpl in *.
    apply (mkInv s0 es0 _ done sd k1 k2 k3); inv_fin.
    repeat (split; [assumption || reflexivity|]). exists q. auto.
  - (* receive: panic *)
    apply (mkInv s0 es0 _ done sd k1 k2 k3); inv_fin.
  - (* receive: accumulator *)
    destruct Hw as (Hcur & Hne & -> & q & Hq & ->). simpl in *.
    apply (mkInv s0 es0 _ done sd k1 k2 k3); inv_fin.
    exists pkt, q. auto.
  - (* receive: deviation *)
    destruct Hw as (pkt & q & Hcur & Hne & Hq & ->).
    apply (mkInv s0 es0 _ done sd k1 k2 k3); inv_fin.
    exists pkt. split; [exact Hcur|].
    now rewrite (OnPktRecv_later_steps sd pkt q Hne Hq).
  - (* receive: unlock *)
    destruct Hw as (pkt & Hcur & Hrecv).
    destruct (after_next s0 es0 done sd _ _ s Hafter Hcur Hrecv)
      as (Hafter' & Hle' & Hrest).
    apply (mkInv s0 es0 _ (S done) s k1 k2 k3); inv_fin.
  - (* loss: lock *)
    apply (mkInv s0 es0 _ done sd k1 k2 k3); inv_fin.
  - (* loss: read *)
    assert (w = WIdle) as -> by (eapply idle_of_presenter; intuition eauto).
    destruct Hw as [Hcur ->].
    apply (mkInv s0 es0 _ done sd done done done); inv_fin.
    now apply seen_now.
  - (* loss: unlock *)
    apply (mkInv s0 es0 _ done sd k1 k2 k3); inv_fin.
  - (* mean: lock *)
    apply (mkInv s0 es0 _ done sd k1 k2 k3); inv_fin.
  - (* mean: read *)
    assert (w = WIdle) as -> by (eapply idle_of_presenter; intuition eauto).
    destruct Hw as [Hcur ->].
    apply (mkInv s0 es0 _ done sd k1 done done); inv_fin.
    now apply seen_now.
  - (* mean: unlock *)
    apply (mkInv s0 es0 _ done sd k1 k2 k3); inv_fin.
  - (* deviation: lock *)
    apply (mkInv s0 es0 _ done sd k1 k2 k3); inv_fin.
  - (* deviation: read *)
    assert (w = WIdle) as -> by (eapply idle_of_presenter; intuition eauto).
    destruct Hw as [Hcur ->].
    apply (mkInv s0 es0 _ done sd k1 k2 done); inv_fin.
    now apply seen_now.
  - (* deviation: unlock *)
    apply (mkInv s0 es0 _ done sd k1 k2 k3); inv_fin.
Qed.

Lemma Inv_steps s0 es0 c : steps (initial s0 es0) c -> Inv s0 es0 c.
Proof.
  intros H. remember (initial s0 es0) as c0 eqn:E.
  induction H as [c|c1 c2 c3 _ IH H23]; subst.
  - apply Inv_initial.
  - eapply Inv_step; [apply IH; reflexivity | exact H23].
Qed.

(** Neither thread is inside a critical section while the other is. *)
Lemma mutual_exclusion s0 es0 c :
  steps (initial s0 es0) c -> wp c <> WPanicked ->
  wLocked (wp c) && rLocked (rp c) = false.
Proof.
  intros H Hw. destruct (Inv_steps _ _ _ H)
    as [done sd k1 k2 k3 _ _ _ Hmw Hmr _ _ _ _ _ _].
  destruct (wLocked (wp c)) eqn:E1, (rLocked (rp c)) eqn:E2; try reflexivity.
  destruct (Hmw Hw) as [_ H1]. destruct Hmr as [_ H2].
  rewrite H1 in H2 by reflexivity. specialize (H2 eq_refl). discriminate.
Qed.

Lemma torn_execution : steps (initial gw ping_once) torn.
Proof.
  unfold initial, gw, ping_once.
  eapply steps_cons; [apply step_send_lock|].
  eapply steps_cons; [apply step_send_incr|].
  eapply steps_cons; [apply step_send_unlock|].
  eapply steps_cons; [apply step_loss_lock; discriminate|].
  eapply steps_cons; [apply step_loss_read; discriminate|].
  eapply steps_cons; [apply step_loss_unlock; discriminate|].
  eapply steps_cons; [apply step_recv_lock|].
  eapply steps_cons; [apply step_recv_incr|].
  eapply steps_cons; [apply step_recv_first; reflexivity|].
  eapply steps_cons; [apply step_recv_first_var|].
  eapply steps_cons; [apply step_recv_unlock|].
  eapply steps_cons; [apply step_avg_lock; discriminate|].
  eapply steps_cons; [apply step_avg_read; discriminate|].
  eapply steps_cons; [apply step_avg_unlock; discriminate|].
  eapply steps_cons; [apply step_dev_lock; discriminate|].
  eapply steps_cons; [apply step_dev_read; discriminate|].
  eapply steps_cons; [apply step_dev_unlock; discriminate|].
  apply steps_refl.
Qed.

Lemma gw_states :
  after gw ping_once 0 = Some gw
  /\ after gw ping_once 1 = Some gw_sent
  /\ forall k, after gw ping_once (S (S k)) = Some gw_replied.
Proof.
  split; [reflexivity|]. split; [reflexivity|].
  intros k. unfold after, ping_once. cbn [take]. rewrite take_nil.
  vm_compute. reflexivity.
Qed.

(** The claim of C5 as it was stated fails: in this execution the row
    pairs the loss of the state before the reply (100.0%, no packet
    received) with the mean of the state after it (10ms, one packet
    received); no state of the target has both. *)
Lemma torn_snapshot :
  steps (initial gw ping_once) torn
  /\ rowRead torn
     = Some ["gw"; "10.0.0.1"; "100.0%"; "10ms"; "0s"]%string
  /\ ~ (exists k s,
          after gw ping_once k = Some s
          /\ PktLoss gw_sent = PktLoss s
          /\ RttAvg gw_replied = RttAvg s
          /\ RttStdDev gw_replied = RttStdDev s).
Proof.
  split; [exact torn_execution|]. split; [vm_compute; reflexivity|].
  intros (k & s & Hk & Hl & Ha & _).
  destruct gw_states as (H0 & H1 & H2).
  destruct k as [|[|k]].
  - rewrite H0 in Hk. injection Hk as <-. vm_compute in Ha. discriminate.
  - rewrite H1 in Hk. injection Hk as <-. vm_compute in Ha. discriminate.
  - rewrite H2 in Hk. injection Hk as <-.
    apply (f_equal Prim2SF) in Hl. vm_compute in Hl. discriminate.
Qed.

(** C5, amended.  Each of the three accessor calls of a row reads the
    target under its mutex, in the state a whole number of finished
    callbacks has left: no value comes from the middle of an update.
    The three calls are three critical sections, so the numbers of
    callbacks they reflect may differ; they do not decrease from the
    loss to the mean to the deviation. *)
Theorem accessors_read_whole_states
    (s0 : pingStats) (es0 : list event) (c : config)
    (loss : float) (avg dev : Z) :
  steps (initial s0 es0) c ->
  rp c = RDone loss avg dev ->
  exists k1 k2 k3 s1 s2 s3,
    k1 <= k2 /\ k2 <= k3 /\ k3 <= List.length es0
    /\ after s0 es0 k1 = Some s1 /\ loss = PktLoss s1
    /\ after s0 es0 k2 = Some s2 /\ avg = RttAvg s2
    /\ after s0 es0 k3 = Some s3 /\ dev = RttStdDev s3.
Proof.
  intros Hsteps Hrp.
  destruct (Inv_steps _ _ _ Hsteps)
    as [done sd k1 k2 k3 _ Hle _ _ _ H12 H23 H3d Hl Ha Hd].
  rewrite Hrp in Hl, Ha, Hd. simpl in Hl, Ha, Hd.
  destruct (Hl _ eq_refl) as (s1 & Hs1 & E1).
  destruct (Ha _ eq_refl) as (s2 & Hs2 & E2).
  destruct (Hd _ eq_refl) as (s3 & Hs3 & E3).
  exists k1, k2, k3, s1, s2, s3. repeat split; try assumption. lia.
Qed.

Lemma accessors_read_whole_states_witness :
  exists k1 k2 k3 s1 s2 s3,
    k1 <= k2 /\ k2 <= k3 /\ k3 <= List.length ping_once
    /\ after gw ping_once k1 = Some s1 /\ PktLoss gw_sent = PktLoss s1
    /\ after gw ping_once k2 = Some s2 /\ RttAvg gw_replied = RttAvg s2
    /\ after gw ping_once k3 = Some s3
    /\ RttStdDev gw_replied = RttStdDev s3.
Proof.
  apply (accessors_read_whole_states gw ping_once torn).
  - exact torn_execution.
  - reflexivity.
Defined.
End ConcurrentFacts.

(** ** [sort.Slice] sorts *)

Module SortFacts.
Import Sort SortSpec.

Section Ranges.
Context {A : Type} (key : A -> Z).

Local Abbreviation keyLess := (SortSpec.keyLess key).
Local Abbreviation sortedR := (SortSpec.sortedR key).
Local Abbreviation lbound := (SortSpec.lbound key).
Local Abbreviation withKey := (SortSpec.withKey key).
Local Abbreviation heapOK := (SortSpec.heapOK key).
Local Abbreviation heapFrom := (SortSpec.heapFrom key).
Local Abbreviation parted := (SortSpec.parted key).
Local Abbreviation partedEq := (SortSpec.partedEq key).

Lemma Swap_length (d : list A) i j : length (Swap d i j) = length d.
Proof.
  unfold Swap. destruct (d !! i), (d !! j); try reflexivity.
  now rewrite !length_insert.
Qed.

Lemma Swap_lookup (d : list A) i j k :
  i < length d -> j < length d ->
  Swap d i j !! k
  = if decide (k = j) then d !! i
    else if decide (k = i) then d !! j else d !! k.
Proof.
  intros Hi Hj. unfold Swap.
  destruct (lookup_lt_is_Some_2 d i Hi) as [x Hx].
  destruct (lookup_lt_is_Some_2 d j Hj) as [y Hy].
  rewrite Hx, Hy.
  destruct (decide (k = j)) as [->|Hkj].
  - rewrite list_lookup_insert_eq; [reflexivity|].
    now rewrite length_insert.
  - rewrite list_lookup_insert_ne by congruence.
    destruct (decide (k = i)) as [->|Hki].
    + now rewrite list_lookup_insert_eq.
    + now rewrite list_lookup_insert_ne by congruence.
Qed.

Lemma Swap_same (d : list A) i : Swap d i i = d.
Proof.
  unfold Swap. destruct (d !! i) as [x|] eqn:Hx; [|reflexivity].
  rewrite list_insert_insert_eq. now apply list_insert_id.
Qed.

Lemma delete_insert_same (d : list A) i x :
  delete i (<[i:=x]> d) = delete i d.
Proof.
  revert i; induction d as [|z d IH]; intros [|i]; simpl; try reflexivity.
  f_equal. apply IH.
Qed.

Lemma Swap_perm (d : list A) i j : d ≡ₚ Swap d i j.
Proof.
  unfold Swap.
  destruct (d !! i) as [x|] eqn:Hx; [|reflexivity].
  destruct (d !! j) as [y|] eqn:Hy; [|reflexivity].
  destruct (decide (i = j)) as [->|Hij].
  - rewrite list_insert_insert_eq.
    rewrite list_insert_id; [reflexivity | exact Hx].
  - assert (Hil := lookup_lt_Some _ _ _ Hx).
    assert (Hjl := lookup_lt_Some _ _ _ Hy).
    revert i j x y Hx Hy Hij Hil Hjl.
    induction d as [|z d IH]; intros i j x y Hx Hy Hij Hil Hjl;
      [simpl in Hil; lia|].
    destruct i as [|i], j as [|j]; simpl in *; try lia.
    + injection Hx as ->. 
      rewrite (delete_Permutation d j y) at 1 by exact Hy.
      rewrite (delete_Permutation (<[j:=x]> d) j x)
        by (apply list_lookup_insert_eq; lia).
      rewrite delete_insert_same. apply perm_swap.
    + injection Hy as ->.
      rewrite (delete_Permutation d i x) at 1 by exact Hx.
      rewrite (delete_Permutation (<[i:=y]> d) i y)
        by (apply list_lookup_insert_eq; lia).
      rewrite delete_insert_same. apply perm_swap.
    + constructor. apply (IH i j x y); try assumption; lia.
Qed.

Lemma Less_at (d : list A) i j x y :
  d !! i = Some x -> d !! j = Some y ->
  Less keyLess d i j = (key x <? key y)%Z.
Proof. intros Hx Hy. unfold Less. now rewrite Hx, Hy. Qed.

Lemma Within_refl a b (d : list A) : Within a b d d.
Proof. split; [reflexivity | intros k _; reflexivity]. Qed.

Lemma Within_trans a b (d1 d2 d3 : list A) :
  Within a b d1 d2 -> Within a b d2 d3 -> Within a b d1 d3.
Proof.
  intros [P1 S1] [P2 S2]. split; [now rewrite P1|].
  intros k Hk. now rewrite S2, S1.
Qed.

Lemma Within_widen a b a' b' (d d' : list A) :
  a' <= a -> b <= b' -> Within a b d d' -> Within a' b' d d'.
Proof.
  intros Ha Hb [P S]. split; [exact P|].
  intros k Hk. apply S. lia.
Qed.

Lemma Within_length a b (d d' : list A) :
  Within a b d d' -> length d' = length d.
Proof. intros [P _]. symmetry. now apply Permutation_length. Qed.

Lemma Within_swap a b (d : list A) i j :
  a <= i < b -> a <= j < b -> b <= length d -> Within a b d (Swap d i j).
Proof.
  intros Hi Hj Hb. split; [apply Swap_perm|].
  intros k Hk. rewrite Swap_lookup by lia.
  repeat case_decide; try reflexivity; lia.
Qed.

Lemma slice_split a b (d : list A) :
  a <= b -> d = take a d ++ slice a b d ++ drop b d.
Proof.
  intros Hab. unfold slice.
  rewrite <- (take_drop b d) at 1.
  rewrite <- (take_drop a (take b d)) at 1.
  rewrite take_take, Nat.min_l by lia. now rewrite <- app_assoc.
Qed.

Lemma slice_lookup a b (d : list A) k :
  k < b - a -> slice a b d !! k = d !! (a + k).
Proof.
  intros Hk. unfold slice. rewrite lookup_drop.
  apply lookup_take_lt. lia.
Qed.

Lemma slice_length a b (d : list A) :
  a <= b <= length d -> length (slice a b d) = b - a.
Proof.
  intros H. unfold slice. rewrite length_drop, length_take. lia.
Qed.

Lemma allR_slice P (d : list A) a b :
  a <= b <= length d -> (allR P d a b <-> Forall P (slice a b d)).
Proof.
  intros Hab. rewrite Forall_lookup. split.
  - intros H k x Hx.
    assert (k < b - a).
    { apply lookup_lt_Some in Hx. rewrite slice_length in Hx; lia. }
    rewrite slice_lookup in Hx by lia. apply (H (a + k)); [lia | exact Hx].
  - intros H k x Hk Hx. apply (H (k - a)).
    rewrite slice_lookup by lia. now replace (a + (k - a)) with k by lia.
Qed.

Lemma Within_slice a b (d d' : list A) :
  a <= b <= length d -> Within a b d d' -> slice a b d ≡ₚ slice a b d'.
Proof.
  intros Hab [P S].
  assert (Hlen : length d' = length d) by (symmetry; now apply Permutation_length).
  assert (Ht : take a d' = take a d).
  { apply list_eq. intros k. destruct (decide (k < a)).
    - rewrite !lookup_take_lt by lia. apply S. lia.
    - now rewrite !lookup_take_ge by lia. }
  assert (Hd : drop b d' = drop b d).
  { apply list_eq. intros k. rewrite !lookup_drop. apply S. lia. }
  rewrite (slice_split a b d) in P at 1 by lia.
  rewrite (slice_split a b d') in P at 1 by lia.
  rewrite Ht, Hd in P.
  apply Permutation_app_inv_l in P. now apply Permutation_app_inv_r in P.
Qed.

Lemma Within_allR P a b (d d' : list A) :
  a <= b <= length d -> Within a b d d' -> allR P d a b -> allR P d' a b.
Proof.
  intros Hab HW H.
  assert (Hlen := Within_length _ _ _ _ HW).
  apply allR_slice; [lia|]. apply allR_slice in H; [|lia].
  now rewrite <- (Within_slice a b d d').
Qed.

Lemma Within_allR_sub P a b a' b' (d d' : list A) :
  a <= a' -> a' <= b' -> b' <= b -> b <= length d ->
  Within a' b' d d' -> allR P d a b -> allR P d' a b.
Proof.
  intros Ha Hab Hb Hl HW H. 
  apply (Within_allR P a b d d'); [lia| |exact H].
  now apply (Within_widen a' b').
Qed.

Lemma Within_lbound a b (d d' : list A) :
  a <= b <= length d -> Within a b d d' -> lbound d a b -> lbound d' a b.
Proof.
  intros Hab HW [->|(p & Hp & Hall)]; [now left|].
  destruct (decide (a = 0)) as [->|Ha]; [now left|].
  right. exists p. split.
  - destruct HW as [_ S]. rewrite S; [exact Hp | lia].
  - now apply (Within_allR _ a b d d').
Qed.

Lemma allR_weaken P (d : list A) a b a' b' :
  a <= a' -> b' <= b -> allR P d a b -> allR P d a' b'.
Proof. intros Ha Hb H k x Hk. apply H. lia. Qed.

Lemma sortedR_join (d : list A) a mid b p :
  sortedR d a mid -> sortedR d (S mid) b ->
  d !! mid = Some p ->
  allR (fun x => (key x <= key p)%Z) d a mid ->
  allR (fun x => (key p <= key x)%Z) d (S mid) b ->
  sortedR d a b.
Proof.
  intros HL HR Hp HlP HrP i j x y Hai Hij Hjb Hx Hy.
  destruct (decide (j < mid)); [now apply (HL i j)|].
  destruct (decide (mid < i)); [now apply (HR i j); try lia|].
  assert (key x <= key p)%Z.
  { destruct (decide (i = mid)) as [->|]; [|apply (HlP i); [lia|exact Hx]].
    rewrite Hp in Hx. injection Hx as <-. lia. }
  assert (key p <= key y)%Z.
  { destruct (decide (j = mid)) as [->|]; [|apply (HrP j); [lia|exact Hy]].
    rewrite Hp in Hy. injection Hy as <-. lia. }
  lia.
Qed.

(** *** Insertion sort *)

Lemma insertDown_sorted a i : forall j (d : list A),
  a <= j <= i -> i < length d ->
  sortedR d a j -> sortedR d j (S i) ->
  (forall k1 k2 x y, a <= k1 < j -> j < k2 <= i ->
     d !! k1 = Some x -> d !! k2 = Some y -> (key x <= key y)%Z) ->
  Within a (S i) d (insertDown keyLess d a j)
  /\ sortedR (insertDown keyLess d a j) a (S i).
Proof.
  induction j as [|j IH]; intros d Hj Hi H1 H2 H3.
  - simpl. split; [apply Within_refl|].
    assert (a = 0) as -> by lia. exact H2.
  - cbn [insertDown].
    destruct (lookup_lt_is_Some_2 d (S j) ltac:(lia)) as [x Hx].
    destruct (lookup_lt_is_Some_2 d j ltac:(lia)) as [y Hy].
    rewrite (Less_at d (S j) j x y Hx Hy).
    destruct (a <? S j) eqn:Ea; simpl.
    2:{ apply Nat.ltb_ge in Ea. assert (a = S j) as -> by lia.
        split; [apply Within_refl | exact H2]. }
    apply Nat.ltb_lt in Ea.
    destruct (key x <? key y)%Z eqn:Exy.
    + apply Z.ltb_lt in Exy.
      set (d1 := Swap d (S j) j).
      assert (L1 : forall k, d1 !! k
                = if decide (k = j) then Some x
                  else if decide (k = S j) then Some y else d !! k).
      { intros k. unfold d1. rewrite Swap_lookup by lia.
        repeat case_decide; subst; try lia; congruence. }
      destruct (IH d1) as [HW HS].
      * lia.
      * unfold d1. rewrite Swap_length. lia.
      * intros k1 k2 u v ? ? ? Hu Hv. rewrite L1 in Hu, Hv.
        repeat case_decide; simplify_eq; try lia; by_sorted H1.
      * intros k1 k2 u v ? ? ? Hu Hv. rewrite L1 in Hu, Hv.
        repeat case_decide; simplify_eq; try lia;
          first [by_sorted H2 | by_between H3].
      * intros k1 k2 u v ? ? Hu Hv. rewrite L1 in Hu, Hv.
        repeat case_decide; simplify_eq; try lia;
          first [by_sorted H1 | by_between H3].
      * split; [|exact HS].
        eapply Within_trans; [|exact HW].
        apply Within_swap; lia.
    + apply Z.ltb_ge in Exy. split; [apply Within_refl|].
      intros k1 k2 u v ? ? ? Hu Hv.
      destruct (decide (k2 <= j)); [apply (H1 k1 k2); auto; lia|].
      destruct (decide (S j <= k1)); [apply (H2 k1 k2); auto; lia|].
      assert (key u <= key y)%Z by (apply (H1 k1 j); auto; lia).
      assert (key x <= key v)%Z by (apply (H2 (S j) k2); auto; lia).
      lia.
Qed.

Lemma insertFrom_sorted a b : forall n (d : list A) i,
  a < i -> i + n = b -> b <= length d ->
  sortedR d a i ->
  Within a b d (insertFrom keyLess n d a i)
  /\ sortedR (insertFrom keyLess n d a i) a b.
Proof.
  induction n as [|n IH]; intros d i Hai Hn Hb HS.
  - simpl. split; [apply Within_refl|]. now replace b with i by lia.
  - cbn [insertFrom].
    destruct (insertDown_sorted a i i d) as [HW1 HS1]; try lia; try exact HS.
    { intros k1 k2 x y ? ? ? Hx Hy. assert (k1 = k2) as -> by lia.
      rewrite Hx in Hy. injection Hy as <-. lia. }
    assert (Hlen := Within_length _ _ _ _ HW1).
    destruct (IH (insertDown keyLess d a i) (S i)) as [HW2 HS2];
      try lia; try exact HS1.
    split; [|exact HS2].
    eapply Within_trans; [|exact HW2].
    apply (Within_widen a (S i)); [lia | lia | exact HW1].
Qed.

Lemma insertionSort_sorted (d : list A) a b :
  a <= b <= length d ->
  Within a b d (insertionSort_func keyLess d a b)
  /\ sortedR (insertionSort_func keyLess d a b) a b.
Proof.
  intros Hab. unfold insertionSort_func.
  destruct (decide (b - (a + 1) = 0)) as [E|E].
  - rewrite E. simpl. split; [apply Within_refl|].
    intros i j x y ? ? ? Hx Hy. assert (i = j) as -> by lia.
    rewrite Hx in Hy. injection Hy as <-. lia.
  - apply insertFrom_sorted; try lia.
    intros i j x y ? ? ? Hx Hy. assert (i = j) as -> by lia.
    rewrite Hx in Hy. injection Hy as <-. lia.
Qed.

(** *** Insertion sort keeps elements of equal key in order *)

Lemma Swap_adjacent : forall j (d : list A) x y,
  d !! j = Some y -> d !! (S j) = Some x ->
  exists l1 l2, d = l1 ++ y :: x :: l2
                /\ Swap d (S j) j = l1 ++ x :: y :: l2.
Proof.
  induction j as [|j IH]; intros d x y Hy Hx.
  - destruct d as [|y' [|x' l]]; try discriminate.
    simpl in Hy, Hx. injection Hy as ->. injection Hx as ->.
    exists [], l. split; reflexivity.
  - destruct d as [|z d]; [discriminate|]. simpl in Hy, Hx.
    destruct (IH d x y Hy Hx) as (l1 & l2 & E1 & E2).
    exists (z :: l1), l2. split; [simpl; now f_equal|].
    unfold Swap in *. simpl. rewrite Hx, Hy in *. simpl. now f_equal.
Qed.

Lemma withKey_swap k l1 l2 (x y : A) :
  key x <> key y ->
  withKey k (l1 ++ x :: y :: l2) = withKey k (l1 ++ y :: x :: l2).
Proof.
  intros Hne. unfold SortSpec.withKey. rewrite !List.filter_app. f_equal. simpl.
  destruct (key x =? k)%Z eqn:Ex, (key y =? k)%Z eqn:Ey; try reflexivity.
  apply Z.eqb_eq in Ex, Ey. congruence.
Qed.

Lemma insertDown_stable a k : forall j (d : list A),
  j < length d ->
  withKey k (insertDown keyLess d a j) = withKey k d.
Proof.
  induction j as [|j IH]; intros d Hj; [reflexivity|].
  cbn [insertDown].
  destruct (lookup_lt_is_Some_2 d (S j) ltac:(lia)) as [x Hx].
  destruct (lookup_lt_is_Some_2 d j ltac:(lia)) as [y Hy].
  rewrite (Less_at d (S j) j x y Hx Hy).
  destruct ((a <? S j) && (key x <? key y)%Z) eqn:E; [|reflexivity].
  apply andb_true_iff in E as [_ E]. apply Z.ltb_lt in E.
  rewrite IH by (rewrite Swap_length; lia).
  destruct (Swap_adjacent j d x y Hy Hx) as (l1 & l2 & E1 & E2).
  rewrite E2. rewrite E1 at 1. apply withKey_swap. lia.
Qed.

Lemma insertFrom_stable a k : forall n (d : list A) i,
  i + n <= length d ->
  withKey k (insertFrom keyLess n d a i) = withKey k d.
Proof.
  induction n as [|n IH]; intros d i Hn; [reflexivity|].
  cbn [insertFrom]. 
  assert (Hlen : length (insertDown keyLess d a i) = length d).
  { clear. revert d. induction i as [|i IH]; intros d; [reflexivity|].
    cbn [insertDown]. destruct (_ && _); [|reflexivity].
    now rewrite IH, Swap_length. }
  rewrite IH by lia. apply insertDown_stable. lia.
Qed.

Lemma insertionSort_stable (d : list A) a b k :
  b <= length d ->
  withKey k (insertionSort_func keyLess d a b) = withKey k d.
Proof.
  intros Hb. unfold insertionSort_func.
  destruct (decide (b - (a + 1) = 0)) as [E|E]; [now rewrite E|].
  apply insertFrom_stable. lia.
Qed.

(** *** Heap sort *)

Lemma siftDown_loop_heap first hi lo : forall n (d : list A) r,
  first + hi <= length d -> hi <= n + r -> lo <= r ->
  (forall p, lo <= p -> p <> r -> heapOK d first hi p) ->
  (forall q c x y, lo <= q -> r = 2 * q + 1 \/ r = 2 * q + 2 ->
     c = 2 * r + 1 \/ c = 2 * r + 2 -> c < hi ->
     d !! (first + q) = Some x -> d !! (first + c) = Some y ->
     (key y <= key x)%Z) ->
  Within (first + r) (first + hi) d (siftDown_loop keyLess n d r hi first)
  /\ heapFrom (siftDown_loop keyLess n d r hi first) first hi lo.
Proof.
  induction n as [|n IH]; intros d r Hlen Hn Hlo H1 H2.
  - simpl. split; [apply Within_refl|]. intros p Hp.
    destruct (decide (p = r)) as [->|Hpr]; [|now apply H1].
    intros c x y Hc Hchi. lia.
  - cbn [siftDown_loop].
    destruct (hi <=? 2 * r + 1) eqn:E0.
    { apply Nat.leb_le in E0. split; [apply Within_refl|]. intros p Hp.
      destruct (decide (p = r)) as [->|Hpr]; [|now apply H1].
      intros c x y Hc Hchi. lia. }
    apply Nat.leb_gt in E0.
    destruct (lookup_lt_is_Some_2 d (first + r) ltac:(lia)) as [xr Hxr].
    destruct (lookup_lt_is_Some_2 d (first + (2 * r + 1)) ltac:(lia))
      as [x1 Hx1].
    (* the greater child [c], with its element [xc] *)
    assert (exists c xc,
      (if (2 * r + 1 + 1 <? hi)
          && Less keyLess d (first + (2 * r + 1)) (first + (2 * r + 1) + 1)
       then 2 * r + 1 + 1 else 2 * r + 1) = c
      /\ (c = 2 * r + 1 \/ c = 2 * r + 2) /\ c < hi
      /\ d !! (first + c) = Some xc
      /\ forall c' y, c' = 2 * r + 1 \/ c' = 2 * r + 2 -> c' < hi ->
           d !! (first + c') = Some y -> (key y <= key xc)%Z)
      as (c & xc & Ec & Hc & Hchi & Hxc & Hmax).
    { destruct (2 * r + 1 + 1 <? hi) eqn:E1; cbn [andb].
      - apply Nat.ltb_lt in E1.
        destruct (lookup_lt_is_Some_2 d (first + (2 * r + 1) + 1)
                    ltac:(lia)) as [x2 Hx2].
        rewrite (Less_at d _ _ x1 x2 Hx1 Hx2).
        destruct (key x1 <? key x2)%Z eqn:E2.
        + apply Z.ltb_lt in E2. exists (2 * r + 1 + 1), x2.
          split; [reflexivity|]. split; [lia|]. split; [lia|].
          split; [now replace (first + (2 * r + 1 + 1))
                    with (first + (2 * r + 1) + 1) by lia|].
          intros c' y [->| ->] _ Hy.
          * rewrite Hx1 in Hy. injection Hy as <-. lia.
          * replace (first + (2 * r + 2)) with (first + (2 * r + 1) + 1)
              in Hy by lia.
            rewrite Hx2 in Hy. injection Hy as <-. lia.
        + apply Z.ltb_ge in E2. exists (2 * r + 1), x1.
          split; [reflexivity|]. split; [lia|]. split; [lia|].
          split; [exact Hx1|].
          intros c' y [->| ->] _ Hy.
          * rewrite Hx1 in Hy. injection Hy as <-. lia.
          * replace (first + (2 * r + 2)) with (first + (2 * r + 1) + 1)
              in Hy by lia.
            rewrite Hx2 in Hy. injection Hy as <-. lia.
      - apply Nat.ltb_ge in E1. exists (2 * r + 1), x1.
        split; [reflexivity|]. split; [lia|]. split; [lia|].
        split; [exact Hx1|].
        intros c' y [->| ->] Hlt Hy; [|lia].
        rewrite Hx1 in Hy. injection Hy as <-. lia. }
    rewrite Ec. clear Ec. unfold SortSpec.heapOK in H1.
    rewrite (Less_at d _ _ xr xc Hxr Hxc).
    destruct (key xr <? key xc)%Z eqn:E3; cbn [negb].
    + apply Z.ltb_lt in E3.
      set (d1 := Swap d (first + r) (first + c)).
      assert (L1 : forall k, d1 !! (first + k)
                = if decide (k = c) then Some xr
                  else if decide (k = r) then Some xc
                  else d !! (first + k)).
      { intros k. unfold d1. rewrite Swap_lookup by lia.
        repeat case_decide; subst; try lia; congruence. }
      destruct (IH d1 c) as [HW HH].
      * unfold d1. rewrite Swap_length. lia.
      * lia.
      * lia.
      * intros p Hp Hpc c' x y Hc' Hc'hi Hx Hy.
        rewrite L1 in Hx, Hy.
        repeat case_decide; simplify_eq; try lia;
          first [use_two H1 | use_two H2 | use_one Hmax].
      * intros q c' x y Hq Hcq Hc' Hc'hi Hx Hy.
        rewrite L1 in Hx, Hy.
        repeat case_decide; simplify_eq; try lia;
          first [use_two H1 | use_two H2 | use_one Hmax].
      * split; [|exact HH].
        eapply Within_trans.
        -- apply (Within_swap (first + r) (first + hi) d
                    (first + r) (first + c)); lia.
        -- apply (Within_widen (first + c) (first + hi)); [lia|lia|exact HW].
    + apply Z.ltb_ge in E3. split; [apply Within_refl|]. intros p Hp.
      destruct (decide (p = r)) as [->|Hpr];
        [|intros c' x y ? ? ? ?; use_two H1].
      intros c' x y Hc' Hc'hi Hx Hy.
      rewrite Hxr in Hx. injection Hx as <-.
      specialize (Hmax c' y Hc' Hc'hi Hy). lia.
Qed.

Lemma siftDown_heap (d : list A) first hi lo :
  first + hi <= length d ->
  heapFrom d first hi (S lo) ->
  Within (first + lo) (first + hi) d (siftDown_func keyLess d lo hi first)
  /\ heapFrom (siftDown_func keyLess d lo hi first) first hi lo.
Proof.
  intros Hlen HH. unfold siftDown_func.
  apply siftDown_loop_heap; try lia.
  intros p Hp Hne. apply HH. lia.
Qed.

Lemma heap_root_max (d : list A) first hi x :
  heapFrom d first hi 0 -> first + hi <= length d ->
  d !! first = Some x ->
  allR (fun y => (key y <= key x)%Z) d first (first + hi).
Proof.
  intros HH Hlen Hx.
  assert (forall n k y, k <= n -> k < hi ->
            d !! (first + k) = Some y -> (key y <= key x)%Z) as Hk.
  { induction n as [|n IH]; intros k y Hkn Hkhi Hy.
    - assert (k = 0) as -> by lia. rewrite Nat.add_0_r, Hx in Hy.
      injection Hy as <-. lia.
    - destruct (decide (k <= n)); [now apply (IH k)|].
      assert (k = S n) as -> by lia.
      assert (Hdiv : n = 2 * (n / 2) + n mod 2) by (apply Nat.div_mod_eq).
      assert (Hmod : n mod 2 < 2) by (apply Nat.mod_upper_bound; lia).
      destruct (lookup_lt_is_Some_2 d (first + n / 2) ltac:(lia)) as [z Hz].
      assert (key y <= key z)%Z.
      { apply (HH (n / 2) ltac:(lia) (S n) z y); try assumption. lia. }
      assert (key z <= key x)%Z by (apply (IH (n / 2)); [lia|lia|exact Hz]).
      lia. }
  intros k y Hrange Hy. apply (Hk (k - first) (k - first)); try lia.
  now replace (first + (k - first)) with k by lia.
Qed.

Lemma heapBuild_heap first hi : forall n (d : list A),
  first + hi <= length d ->
  heapFrom d first hi n ->
  Within first (first + hi) d (heapBuild keyLess n d hi first)
  /\ heapFrom (heapBuild keyLess n d hi first) first hi 0.
Proof.
  induction n as [|n IH]; intros d Hlen HH.
  - simpl. split; [apply Within_refl | exact HH].
  - cbn [heapBuild].
    destruct (siftDown_heap d first hi n Hlen HH) as [HW1 HH1].
    assert (Hl1 := Within_length _ _ _ _ HW1).
    destruct (IH (siftDown_func keyLess d n hi first)) as [HW2 HH2];
      [lia | exact HH1 |].
    split; [|exact HH2].
    eapply Within_trans; [|exact HW2].
    apply (Within_widen (first + n) (first + hi)); [lia|lia|exact HW1].
Qed.

Lemma heapPop_sorted first hi : forall n (d : list A),
  n <= hi -> first + hi <= length d ->
  heapFrom d first n 0 ->
  sortedR d (first + n) (first + hi) ->
  (forall k y, first + n <= k < first + hi -> d !! k = Some y ->
     allR (fun x => (key x <= key y)%Z) d first (first + n)) ->
  Within first (first + hi) d (heapPop keyLess n d 0 first)
  /\ sortedR (heapPop keyLess n d 0 first) first (first + hi).
Proof.
  induction n as [|n IH]; intros d Hn Hlen HH HS Hle.
  - simpl. split; [apply Within_refl|].
    now rewrite Nat.add_0_r in HS.
  - cbn [heapPop].
    destruct (lookup_lt_is_Some_2 d first ltac:(lia)) as [top Htop].
    destruct (lookup_lt_is_Some_2 d (first + n) ltac:(lia)) as [z Hz].
    assert (Hmax := heap_root_max d first (S n) top HH ltac:(lia) Htop).
    set (d1 := Swap d first (first + n)).
    assert (L1 : forall k, d1 !! k
              = if decide (k = first + n) then Some top
                else if decide (k = first) then Some z else d !! k).
    { intros k. unfold d1. rewrite Swap_lookup by lia.
      repeat case_decide; subst; try lia; congruence. }
    assert (Hl1 : length d1 = length d) by apply Swap_length.
    assert (HW1 : Within first (first + S n) d d1)
      by (apply Within_swap; lia).
    (* the heap of size [n] is whole except at its root *)
    destruct (siftDown_heap d1 first n 0) as [HW2 HH2]; [lia| |].
    { intros p Hp c x y Hc Hcn Hx Hy.
      rewrite L1 in Hx, Hy. repeat case_decide; try lia.
      apply (HH p ltac:(lia) c x y); try assumption; lia. }
    set (d2 := siftDown_func keyLess d1 0 n first) in *.
    rewrite Nat.add_0_r in HW2.
    assert (Hl2 := Within_length _ _ _ _ HW2).
    assert (Hall1 : allR (fun x => (key x <= key top)%Z) d1 first (first + n)).
    { intros k x Hk Hx. rewrite L1 in Hx. repeat case_decide; try lia.
      - injection Hx as <-. apply (Hmax (first + n)); [lia | exact Hz].
      - apply (Hmax k); [lia | exact Hx]. }
    assert (Hout2 : forall k, first + n <= k -> d2 !! k = d1 !! k).
    { intros k Hk. destruct HW2 as [_ S2]. apply S2. lia. }
    destruct (IH d2) as [HW3 HS3]; try lia; try exact HH2.
    + intros i j x y Hi Hij Hj Hx Hy.
      rewrite Hout2, L1 in Hx, Hy by lia.
      repeat case_decide; simplify_eq; try lia.
      * eapply (Hle j); [| eassumption | | exact Htop]; lia.
      * apply (HS i j); try assumption; lia.
    + intros k y Hk Hy. rewrite Hout2, L1 in Hy by lia.
      apply (Within_allR _ first (first + n) d1 d2); [lia | exact HW2 |].
      repeat case_decide; simplify_eq; try lia; [exact Hall1|].
      intros k' x Hk' Hx. rewrite L1 in Hx.
      repeat case_decide; simplify_eq; try lia.
      * apply (Hle k y ltac:(lia) Hy (first + n)); [lia | exact Hz].
      * apply (Hle k y ltac:(lia) Hy k'); [lia | exact Hx].
    + split; [|exact HS3].
      eapply Within_trans;
        [apply (Within_widen first (first + S n)); [lia|lia|exact HW1]|].
      eapply Within_trans;
        [apply (Within_widen first (first + n)); [lia|lia|exact HW2]|].
      exact HW3.
Qed.

Lemma heapSort_sorted (d : list A) a b :
  a <= b <= length d ->
  Within a b d (heapSort_func keyLess d a b)
  /\ sortedR (heapSort_func keyLess d a b) a b.
Proof.
  intros Hab. unfold heapSort_func.
  remember (b - a) as hi eqn:Ehi. assert (b = a + hi) as -> by lia.
  clear Ehi. assert (Hlen : a + hi <= length d) by lia.
  destruct (heapBuild_heap a hi (S ((hi - 1) / 2)) d Hlen) as [HW1 HH1].
  { intros p Hp c x y Hc Hchi.
    assert (hi - 1 = 2 * ((hi - 1) / 2) + (hi - 1) mod 2)
      by (apply Nat.div_mod_eq).
    assert ((hi - 1) mod 2 < 2) by (apply Nat.mod_upper_bound; lia).
    lia. }
  assert (Hl1 := Within_length _ _ _ _ HW1).
  destruct (heapPop_sorted a hi hi (heapBuild keyLess (S ((hi - 1) / 2)) d hi a))
    as [HW2 HS2]; try lia; try exact HH1.
  - intros i j x y ? ? ?. lia.
  - split; [eapply Within_trans; eassumption | exact HS2].
Qed.

(** *** Partition *)

Lemma scanLess_loop_spec (d : list A) a p j : forall n i,
  d !! a = Some p -> j < length d -> S j - i <= n ->
  let i' := scanLess_loop keyLess n d a i j in
  i <= i' /\ (i <= S j -> i' <= S j)
  /\ allR (fun x => (key x < key p)%Z) d i i'
  /\ (i' <= j -> forall x, d !! i' = Some x -> (key p <= key x)%Z).
Proof.
  induction n as [|n IH]; intros i Hp Hj Hn; cbn [scanLess_loop].
  - split; [lia|]. split; [lia|]. split; [intros k x Hk; lia|]. lia.
  - destruct (i <=? j) eqn:E; cbn [andb].
    2:{ apply Nat.leb_gt in E. split; [lia|]. split; [lia|].
        split; [intros k x Hk; lia|]. lia. }
    apply Nat.leb_le in E.
    destruct (lookup_lt_is_Some_2 d i ltac:(lia)) as [x Hx].
    rewrite (Less_at d i a x p Hx Hp).
    destruct (key x <? key p)%Z eqn:E1.
    + apply Z.ltb_lt in E1.
      destruct (IH (S i) Hp Hj ltac:(lia)) as (H1 & H2 & H3 & H4).
      split; [lia|]. split; [lia|]. split; [|exact H4].
      intros k y Hk Hy. destruct (decide (k = i)) as [->|].
      * rewrite Hx in Hy. injection Hy as <-. exact E1.
      * apply (H3 k); [lia | exact Hy].
    + apply Z.ltb_ge in E1. split; [lia|]. split; [lia|].
      split; [intros k y Hk; lia|].
      intros _ y Hy. rewrite Hx in Hy. injection Hy as <-. exact E1.
Qed.

Lemma scanNotLess_loop_spec (d : list A) a p i : forall n j,
  d !! a = Some p -> j < length d -> 1 <= i -> S j - i <= n ->
  let j' := scanNotLess_loop keyLess n d a i j in
  j' <= j /\ (i <= S j -> i <= S j')
  /\ allR (fun x => (key p <= key x)%Z) d (S j') (S j)
  /\ (i <= j' -> forall x, d !! j' = Some x -> (key x < key p)%Z).
Proof.
  induction n as [|n IH]; intros j Hp Hj Hi Hn; cbn [scanNotLess_loop].
  - split; [lia|]. split; [lia|]. split; [intros k x Hk; lia|]. lia.
  - destruct (i <=? j) eqn:E; cbn [andb].
    2:{ apply Nat.leb_gt in E. split; [lia|]. split; [lia|].
        split; [intros k x Hk; lia|]. lia. }
    apply Nat.leb_le in E.
    destruct (lookup_lt_is_Some_2 d j ltac:(lia)) as [x Hx].
    rewrite (Less_at d j a x p Hx Hp).
    destruct (key x <? key p)%Z eqn:E1; cbn [negb].
    + apply Z.ltb_lt in E1. split; [lia|]. split; [lia|].
      split; [intros k y Hk; lia|].
      intros _ y Hy. rewrite Hx in Hy. injection Hy as <-. exact E1.
    + apply Z.ltb_ge in E1.
      destruct (IH (j - 1) Hp ltac:(lia) Hi ltac:(lia)) as (H1 & H2 & H3 & H4).
      split; [lia|]. split; [lia|]. split; [|exact H4].
      intros k y Hk Hy. destruct (decide (k = j)) as [->|].
      * rewrite Hx in Hy. injection Hy as <-. exact E1.
      * apply (H3 k); [lia | exact Hy].
Qed.

Lemma scans_spec (d : list A) a b i j p :
  b <= length d -> parted d a b i j p ->
  let i' := scanLess keyLess d a i j in
  let j' := scanNotLess keyLess d a i' j in
  parted d a b i' j' p
  /\ i <= i' /\ j' <= j
  /\ (j' < i' -> i' = j' + 1)
  /\ (i' <= j' ->
      i' < j'
      /\ (forall x, d !! i' = Some x -> (key p <= key x)%Z)
      /\ (forall x, d !! j' = Some x -> (key x < key p)%Z)).
Proof.
  intros Hb (Hp & Hai & Hij & Hjb & HL & HR). cbv zeta.
  unfold scanLess, scanNotLess.
  destruct (scanLess_loop_spec d a p j (S j - i) i Hp ltac:(lia) ltac:(lia))
    as (I1 & I2 & I3 & I4).
  set (i' := scanLess_loop keyLess (S j - i) d a i j) in *.
  destruct (scanNotLess_loop_spec d a p i' (S j - i') j Hp ltac:(lia)
              ltac:(lia) ltac:(lia)) as (J1 & J2 & J3 & J4).
  set (j' := scanNotLess_loop keyLess (S j - i') d a i' j) in *.
  specialize (I2 ltac:(lia)). specialize (J2 ltac:(lia)).
  split; [|split; [lia|split; [lia|split; [lia|]]]].
  - split; [exact Hp|]. split; [lia|]. split; [lia|]. split; [lia|].
    split.
    + intros k x Hk Hx. destruct (decide (k < i)).
      * apply (HL k); [lia | exact Hx].
      * apply (I3 k); [lia | exact Hx].
    + intros k x Hk Hx. destruct (decide (k <= j)).
      * apply (J3 k); [lia | exact Hx].
      * apply (HR k); [lia | exact Hx].
  - intros Hle. specialize (I4 ltac:(lia)). specialize (J4 Hle).
    split; [|split; assumption].
    destruct (decide (i' = j')) as [E|]; [|lia].
    destruct (lookup_lt_is_Some_2 d i' ltac:(lia)) as [x Hx].
    specialize (I4 x Hx). rewrite E in Hx. specialize (J4 x Hx). lia.
Qed.

Lemma parted_swap (d : list A) a b i j p :
  b <= length d -> parted d a b i j p -> i < j ->
  (forall x, d !! i = Some x -> (key p <= key x)%Z) ->
  (forall x, d !! j = Some x -> (key x < key p)%Z) ->
  parted (Swap d i j) a b (S i) (j - 1) p
  /\ Within (a + 1) b d (Swap d i j).
Proof.
  intros Hb (Hp & Hai & Hij & Hjb & HL & HR) Hlt Hi Hj.
  assert (L : forall k, Swap d i j !! k
            = if decide (k = j) then d !! i
              else if decide (k = i) then d !! j else d !! k)
    by (intros k; apply Swap_lookup; lia).
  split; [|apply Within_swap; lia].
  split; [rewrite L; repeat case_decide; try lia; exact Hp|].
  split; [lia|]. split; [lia|]. split; [lia|]. split.
  - intros k x Hk Hx. rewrite L in Hx.
    repeat case_decide; subst; try lia; [now apply Hj|].
    apply (HL k); [lia | exact Hx].
  - intros k x Hk Hx. rewrite L in Hx.
    repeat case_decide; subst; try lia; [now apply Hi|].
    apply (HR k); [lia | exact Hx].
Qed.

Lemma partition_loop_spec a b p : forall n (d : list A) i j,
  b <= length d -> parted d a b i j p -> S j - i <= n ->
  exists d' i' j',
    partition_loop keyLess n d a i j = (d', i', j')
    /\ Within (a + 1) b d d' /\ parted d' a b i' j' p /\ i' = j' + 1.
Proof.
  induction n as [|n IH]; intros d i j Hb HP Hn; cbn [partition_loop].
  - exists d, i, j. split; [reflexivity|]. split; [apply Within_refl|].
    split; [exact HP|]. destruct HP as (_ & _ & ? & _). lia.
  - destruct (scans_spec d a b i j p Hb HP) as (HP' & Hi & Hj & Hend & Hgo).
    set (i' := scanLess keyLess d a i j) in *.
    set (j' := scanNotLess keyLess d a i' j) in *.
    destruct (j' <? i') eqn:E.
    + apply Nat.ltb_lt in E. exists d, i', j'.
      split; [reflexivity|]. split; [apply Within_refl|].
      split; [exact HP' | now apply Hend].
    + apply Nat.ltb_ge in E. destruct (Hgo E) as (Hlt & Hxi & Hxj).
      destruct (parted_swap d a b i' j' p Hb HP' Hlt Hxi Hxj) as [HP1 HW1].
      destruct (IH (Swap d i' j') (S i') (j' - 1)) as (d' & i2 & j2 & E2 & HW2 & HP2 & Hij2).
      * rewrite Swap_length. exact Hb.
      * exact HP1.
      * lia.
      * exists d', i2, j2. split; [exact E2|].
        split; [eapply Within_trans; eassumption|]. split; assumption.
Qed.

Lemma partition_finish (d : list A) a b i j p :
  b <= length d -> parted d a b i j p -> i = j + 1 ->
  Within a b d (Swap d j a)
  /\ a <= j < b /\ Swap d j a !! j = Some p
  /\ allR (fun x => (key x < key p)%Z) (Swap d j a) a j
  /\ allR (fun x => (key p <= key x)%Z) (Swap d j a) (S j) b.
Proof.
  intros Hb (Hp & Hai & Hij & Hjb & HL & HR) ->.
  assert (L : forall k, Swap d j a !! k
            = if decide (k = a) then d !! j
              else if decide (k = j) then d !! a else d !! k)
    by (intros k; apply Swap_lookup; lia).
  split; [apply Within_swap; lia|]. split; [lia|]. split.
  - rewrite L. repeat case_decide; subst; try lia; exact Hp.
  - split.
    + intros k x Hk Hx. rewrite L in Hx.
      repeat case_decide; subst; try lia.
      * apply (HL j); [lia | exact Hx].
      * apply (HL k); [lia | exact Hx].
    + intros k x Hk Hx. rewrite L in Hx.
      repeat case_decide; subst; try lia.
      apply (HR k); [lia | exact Hx].
Qed.

Lemma partition_spec (d : list A) a b pivot p :
  a <= pivot < b -> b <= length d -> d !! pivot = Some p ->
  exists d' mid done,
    partition_func keyLess d a b pivot = (d', mid, done)
    /\ Within a b d d' /\ a <= mid < b /\ d' !! mid = Some p
    /\ allR (fun x => (key x < key p)%Z) d' a mid
    /\ allR (fun x => (key p <= key x)%Z) d' (S mid) b.
Proof.
  intros Hpv Hb Hp. unfold partition_func.
  set (d0 := Swap d a pivot).
  assert (Hl0 : length d0 = length d) by apply Swap_length.
  assert (HW0 : Within a b d d0) by (apply Within_swap; lia).
  assert (Hp0 : d0 !! a = Some p).
  { unfold d0. rewrite Swap_lookup by lia.
    repeat case_decide; subst; try lia; exact Hp. }
  assert (HP0 : parted d0 a b (a + 1) (b - 1) p).
  { split; [exact Hp0|]. split; [lia|]. split; [lia|]. split; [lia|].
    split; intros k x Hk; lia. }
  destruct (scans_spec d0 a b (a + 1) (b - 1) p ltac:(lia) HP0)
    as (HP' & Hi & Hj & Hend & Hgo).
  set (i' := scanLess keyLess d0 a (a + 1) (b - 1)) in *.
  set (j' := scanNotLess keyLess d0 a i' (b - 1)) in *.
  destruct (j' <? i') eqn:E.
  - apply Nat.ltb_lt in E.
    destruct (partition_finish d0 a b i' j' p ltac:(lia) HP' (Hend E))
      as (HW & Hmid & Hpm & HL & HR).
    exists (Swap d0 j' a), j', true. split; [reflexivity|].
    split; [eapply Within_trans; eassumption|]. auto.
  - apply Nat.ltb_ge in E. destruct (Hgo E) as (Hlt & Hxi & Hxj).
    destruct (parted_swap d0 a b i' j' p ltac:(lia) HP' Hlt Hxi Hxj)
      as [HP1 HW1].
    destruct (partition_loop_spec a b p (S (j' - 1) - S i') (Swap d0 i' j')
                (S i') (j' - 1)) as (d2 & i2 & j2 & E2 & HW2 & HP2 & Hij2).
    + rewrite Swap_length. lia.
    + exact HP1.
    + lia.
    + rewrite E2.
      assert (Hl2 : length d2 = length d).
      { rewrite (Within_length _ _ _ _ HW2), Swap_length. exact Hl0. }
      destruct (partition_finish d2 a b i2 j2 p ltac:(lia) HP2 Hij2)
        as (HW & Hmid & Hpm & HL & HR).
      exists (Swap d2 j2 a), j2, false. split; [reflexivity|].
      split; [|auto].
      eapply Within_trans; [exact HW0|].
      eapply Within_trans;
        [apply (Within_widen (a + 1) b); [lia|lia|exact HW1]|].
      eapply Within_trans;
        [apply (Within_widen (a + 1) b); [lia|lia|exact HW2]|].
      exact HW.
Qed.

(** *** Partition around a least pivot *)

Lemma scanNotGreater_loop_spec (d : list A) a p j : forall n i,
  d !! a = Some p -> j < length d -> S j - i <= n ->
  let i' := scanNotGreater_loop keyLess n d a i j in
  i <= i' /\ (i <= S j -> i' <= S j)
  /\ allR (fun x => (key x <= key p)%Z) d i i'
  /\ (i' <= j -> forall x, d !! i' = Some x -> (key p < key x)%Z).
Proof.
  induction n as [|n IH]; intros i Hp Hj Hn; cbn [scanNotGreater_loop].
  - split; [lia|]. split; [lia|]. split; [intros k x Hk; lia|]. lia.
  - destruct (i <=? j) eqn:E; cbn [andb].
    2:{ apply Nat.leb_gt in E. split; [lia|]. split; [lia|].
        split; [intros k x Hk; lia|]. lia. }
    apply Nat.leb_le in E.
    destruct (lookup_lt_is_Some_2 d i ltac:(lia)) as [x Hx].
    rewrite (Less_at d a i p x Hp Hx).
    destruct (key p <? key x)%Z eqn:E1; cbn [negb].
    + apply Z.ltb_lt in E1. split; [lia|]. split; [lia|].
      split; [intros k y Hk; lia|].
      intros _ y Hy. rewrite Hx in Hy. injection Hy as <-. exact E1.
    + apply Z.ltb_ge in E1.
      destruct (IH (S i) Hp Hj ltac:(lia)) as (H1 & H2 & H3 & H4).
      split; [lia|]. split; [lia|]. split; [|exact H4].
      intros k y Hk Hy. destruct (decide (k = i)) as [->|].
      * rewrite Hx in Hy. injection Hy as <-. exact E1.
      * apply (H3 k); [lia | exact Hy].
Qed.

Lemma scanGreater_loop_spec (d : list A) a p i : forall n j,
  d !! a = Some p -> j < length d -> 1 <= i -> S j - i <= n ->
  let j' := scanGreater_loop keyLess n d a i j in
  j' <= j /\ (i <= S j -> i <= S j')
  /\ allR (fun x => (key p < key x)%Z) d (S j') (S j)
  /\ (i <= j' -> forall x, d !! j' = Some x -> (key x <= key p)%Z).
Proof.
  induction n as [|n IH]; intros j Hp Hj Hi Hn; cbn [scanGreater_loop].
  - split; [lia|]. split; [lia|]. split; [intros k x Hk; lia|]. lia.
  - destruct (i <=? j) eqn:E; cbn [andb].
    2:{ apply Nat.leb_gt in E. split; [lia|]. split; [lia|].
        split; [intros k x Hk; lia|]. lia. }
    apply Nat.leb_le in E.
    destruct (lookup_lt_is_Some_2 d j ltac:(lia)) as [x Hx].
    rewrite (Less_at d a j p x Hp Hx).
    destruct (key p <? key x)%Z eqn:E1.
    + apply Z.ltb_lt in E1.
      destruct (IH (j - 1) Hp ltac:(lia) Hi ltac:(lia)) as (H1 & H2 & H3 & H4).
      split; [lia|]. split; [lia|]. split; [|exact H4].
      intros k y Hk Hy. destruct (decide (k = j)) as [->|].
      * rewrite Hx in Hy. injection Hy as <-. exact E1.
      * apply (H3 k); [lia | exact Hy].
    + apply Z.ltb_ge in E1. split; [lia|]. split; [lia|].
      split; [intros k y Hk; lia|].
      intros _ y Hy. rewrite Hx in Hy. injection Hy as <-. exact E1.
Qed.

Lemma partitionEqual_loop_spec a b p : forall n (d : list A) i j,
  b <= length d -> partedEq d a b i j p -> S j - i <= n ->
  exists d' i',
    partitionEqual_loop keyLess n d a i j = (d', i')
    /\ Within (a + 1) b d d' /\ d' !! a = Some p
    /\ a + 1 <= i' <= b
    /\ allR (fun x => (key x <= key p)%Z) d' (a + 1) i'
    /\ allR (fun x => (key p < key x)%Z) d' i' b.
Proof.
  induction n as [|n IH]; intros d i j Hb HP Hn;
    cbn [partitionEqual_loop].
  - destruct HP as (Hp & Hai & Hij & Hjb & HL & HR).
    exists d, i. split; [reflexivity|]. split; [apply Within_refl|].
    split; [exact Hp|]. split; [lia|]. split; [exact HL|].
    now replace i with (j + 1) by lia.
  - destruct HP as (Hp & Hai & Hij & Hjb & HL & HR).
    unfold scanNotGreater, scanGreater.
    destruct (scanNotGreater_loop_spec d a p j (S j - i) i Hp
                ltac:(lia) ltac:(lia)) as (I1 & I2 & I3 & I4).
    set (i' := scanNotGreater_loop keyLess (S j - i) d a i j) in *.
    destruct (scanGreater_loop_spec d a p i' (S j - i') j Hp ltac:(lia)
                ltac:(lia) ltac:(lia)) as (J1 & J2 & J3 & J4).
    set (j' := scanGreater_loop keyLess (S j - i') d a i' j) in *.
    specialize (I2 ltac:(lia)). specialize (J2 ltac:(lia)).
    assert (HL' : allR (fun x => (key x <= key p)%Z) d (a + 1) i').
    { intros k x Hk Hx. destruct (decide (k < i)).
      - apply (HL k); [lia | exact Hx].
      - apply (I3 k); [lia | exact Hx]. }
    assert (HR' : allR (fun x => (key p < key x)%Z) d (j' + 1) b).
    { intros k x Hk Hx. destruct (decide (k <= j)).
      - apply (J3 k); [lia | exact Hx].
      - apply (HR k); [lia | exact Hx]. }
    destruct (j' <? i') eqn:E.
    + apply Nat.ltb_lt in E. exists d, i'.
      split; [reflexivity|]. split; [apply Within_refl|].
      split; [exact Hp|]. split; [lia|]. split; [exact HL'|].
      now replace i' with (j' + 1) by lia.
    + apply Nat.ltb_ge in E.
      specialize (I4 ltac:(lia)). specialize (J4 E).
      assert (i' < j').
      { destruct (decide (i' = j')) as [E'|]; [|lia].
        destruct (lookup_lt_is_Some_2 d i' ltac:(lia)) as [x Hx].
        specialize (I4 x Hx). rewrite E' in Hx. specialize (J4 x Hx). lia. }
      assert (L : forall k, Swap d i' j' !! k
                = if decide (k = j') then d !! i'
                  else if decide (k = i') then d !! j' else d !! k)
        by (intros k; apply Swap_lookup; lia).
      destruct (IH (Swap d i' j') (S i') (j' - 1))
        as (d' & i2 & E2 & HW2 & Hp2 & Hi2 & HL2 & HR2).
      * rewrite Swap_length. exact Hb.
      * split; [rewrite L; repeat case_decide; try lia; exact Hp|].
        split; [lia|]. split; [lia|]. split; [lia|]. split.
        -- intros k x Hk Hx. rewrite L in Hx.
           repeat case_decide; subst; try lia; [now apply J4|].
           apply (HL' k); [lia | exact Hx].
        -- intros k x Hk Hx. rewrite L in Hx.
           repeat case_decide; subst; try lia; [now apply I4|].
           apply (HR' k); [lia | exact Hx].
      * lia.
      * exists d', i2. split; [exact E2|]. split; [|auto].
        eapply Within_trans; [|exact HW2]. apply Within_swap; lia.
Qed.

Lemma partitionEqual_spec (d : list A) a b pivot p :
  a <= pivot < b -> b <= length d -> d !! pivot = Some p ->
  exists d' mid,
    partitionEqual_func keyLess d a b pivot = (d', mid)
    /\ Within a b d d' /\ a < mid <= b
    /\ allR (fun x => (key x <= key p)%Z) d' a mid
    /\ allR (fun x => (key p < key x)%Z) d' mid b.
Proof.
  intros Hpv Hb Hp. unfold partitionEqual_func.
  set (d0 := Swap d a pivot).
  assert (Hl0 : length d0 = length d) by apply Swap_length.
  assert (HW0 : Within a b d d0) by (apply Within_swap; lia).
  assert (Hp0 : d0 !! a = Some p).
  { unfold d0. rewrite Swap_lookup by lia.
    repeat case_decide; subst; try lia; exact Hp. }
  destruct (partitionEqual_loop_spec a b p (S (b - 1) - (a + 1)) d0
              (a + 1) (b - 1))
    as (d' & mid & E & HW & Hp' & Hmid & HL & HR); [lia| |lia|].
  { split; [exact Hp0|]. split; [lia|]. split; [lia|]. split; [lia|].
    split; intros k x Hk; lia. }
  exists d', mid. split; [exact E|].
  split; [eapply Within_trans;
            [exact HW0 | apply (Within_widen (a + 1) b); [lia|lia|exact HW]]|].
  split; [lia|]. split; [|exact HR].
  intros k x Hk Hx. destruct (decide (k = a)) as [->|].
  - rewrite Hp' in Hx. injection Hx as <-. lia.
  - apply (HL k); [lia | exact Hx].
Qed.

(** *** breakPatterns and reverseRange rearrange the range *)

Lemma lxor_below M a b :
  (0 < M -> 0 <= a < 2 ^ M -> 0 <= b < 2 ^ M -> 0 <= Z.lxor a b < 2 ^ M)%Z.
Proof.
  intros HM Ha Hb.
  assert (Hnn : (0 <= Z.lxor a b)%Z) by (apply Z.lxor_nonneg; lia).
  split; [exact Hnn|].
  destruct (Z.eq_dec (Z.lxor a b) 0%Z) as [->|Hne]; [lia|].
  apply Z.log2_lt_pow2; [lia|].
  pose proof (Z.log2_lxor a b ltac:(lia) ltac:(lia)) as Hl.
  assert (forall c, (0 <= c < 2 ^ M -> Z.log2 c < M)%Z) as Hlog.
  { intros c Hc. destruct (Z.eq_dec c 0%Z) as [->|]; [simpl; lia|].
    apply Z.log2_lt_pow2; lia. }
  pose proof (Hlog a Ha). pose proof (Hlog b Hb). lia.
Qed.

Lemma xorshift_below M r :
  (64 <= M -> 0 <= r < 2 ^ M -> 0 <= xorshift_Next r < 2 ^ M)%Z.
Proof.
  intros HM Hr. unfold xorshift_Next.
  assert (H64 : (2 ^ 64 <= 2 ^ M)%Z) by (apply Z.pow_le_mono_r; lia).
  assert (Hmod : forall x, (0 <= x mod 2 ^ 64 < 2 ^ M)%Z).
  { intros x. pose proof (Z.mod_pos_bound x (2 ^ 64)%Z ltac:(lia)). lia. }
  assert (Hshr : forall x, (0 <= x < 2 ^ M -> 0 <= Z.shiftr x 7 < 2 ^ M)%Z).
  { intros x Hx. rewrite Z.shiftr_div_pow2 by lia.
    pose proof (Z.div_pos x (2 ^ 7)%Z ltac:(lia) ltac:(lia)).
    pose proof (Z.div_le_upper_bound x (2 ^ 7)%Z x ltac:(lia) ltac:(lia)).
    lia. }
  cbv zeta.
  assert (H1 : (0 <= Z.lxor r (Z.shiftl r 13 mod 2 ^ 64) < 2 ^ M)%Z)
    by (apply lxor_below; [lia | exact Hr | apply Hmod]).
  set (r1 := Z.lxor r (Z.shiftl r 13 mod 2 ^ 64)) in *.
  assert (H2 : (0 <= Z.lxor r1 (Z.shiftr r1 7) < 2 ^ M)%Z)
    by (apply lxor_below; [lia | exact H1 | now apply Hshr]).
  set (r2 := Z.lxor r1 (Z.shiftr r1 7)) in *.
  apply lxor_below; [lia | exact H2 | apply Hmod].
Qed.

Lemma pow2_bitsLen n :
  0 < n ->
  (Z.of_nat n < 2 ^ Z.of_nat (bitsLen n) <= 2 * Z.of_nat n)%Z.
Proof.
  intros Hn. unfold bitsLen. destruct n as [|n]; [lia|].
  destruct (Nat.log2_spec (S n) ltac:(lia)) as [H1 H2].
  pose proof (Nat2Z.inj_pow 2 (S (Nat.log2 (S n)))) as HP.
  change (Z.of_nat 2) with 2%Z in HP. rewrite <- HP.
  rewrite Nat.pow_succ_r' in *. lia.
Qed.

Lemma breakPatterns_other length random :
  0 < length ->
  let M := Z.max 64 (Z.of_nat (bitsLen length)) in
  (0 <= random < 2 ^ M)%Z ->
  let random' := xorshift_Next random in
  let other := Z.to_nat (Z.land random' (nextPowerOfTwo length - 1)) in
  (0 <= random' < 2 ^ M)%Z
  /\ (if length <=? other then other - length else other) < length.
Proof.
  intros Hlen M Hr random' other.
  assert (Hr' : (0 <= random' < 2 ^ M)%Z)
    by (apply xorshift_below; [lia | exact Hr]).
  split; [exact Hr'|].
  destruct (pow2_bitsLen length Hlen) as [P1 P2].
  assert (Hother : other < 2 * length).
  { unfold other, nextPowerOfTwo. rewrite Z.shiftl_1_l.
    destruct (Z.lt_ge_cases (Z.of_nat (bitsLen length)) 64%Z) as [Hb|Hb].
    - rewrite Z.mod_small.
      2:{ split; [lia|]. apply Z.pow_lt_mono_r; lia. }
      replace (2 ^ Z.of_nat (bitsLen length) - 1)%Z
        with (Z.ones (Z.of_nat (bitsLen length)))
        by (rewrite Z.ones_equiv; lia).
      rewrite Z.land_ones by lia.
      pose proof (Z.mod_pos_bound random' (2 ^ Z.of_nat (bitsLen length))%Z
                    ltac:(lia)).
      lia.
    - replace (2 ^ Z.of_nat (bitsLen length))%Z
        with (2 ^ 64 * 2 ^ (Z.of_nat (bitsLen length) - 64))%Z
        by (rewrite <- Z.pow_add_r by lia; f_equal; lia).
      rewrite Z.mul_comm, Z.mod_mul by lia.
      change (0 - 1)%Z with (-1)%Z. rewrite Z.land_m1_r.
      unfold M in Hr'. rewrite Z.max_r in Hr' by lia. lia. }
  destruct (length <=? other) eqn:E;
    [apply Nat.leb_le in E | apply Nat.leb_gt in E]; lia.
Qed.

Lemma breakPatterns_loop_within a b length modulus idx :
  forall n (d : list A) random i,
    0 < length -> b = a + length -> b <= List.length d ->
    modulus = nextPowerOfTwo length ->
    (0 <= random < 2 ^ Z.max 64 (Z.of_nat (bitsLen length)))%Z ->
    (forall i', i <= i' < i + n -> a <= idx + i' < b) ->
    Within a b d
      (breakPatterns_loop n d random modulus a length idx i).
Proof.
  induction n as [|n IH]; intros d random i Hlen Hb Hbd Hm Hr Hidx;
    cbn [breakPatterns_loop]; [apply Within_refl|].
  destruct (breakPatterns_other length random Hlen Hr) as [Hr' Ho].
  rewrite <- Hm in Ho.
  match goal with
  | |- Within _ _ _ (breakPatterns_loop _ (Swap _ ?x ?y) _ _ _ _ _ _) =>
      apply (Within_trans a b d (Swap d x y))
  end.
  - apply Within_swap; [apply Hidx; lia | | exact Hbd].
    split; [lia|]. rewrite Hb. apply Nat.add_lt_mono_l. exact Ho.
  - apply IH; try assumption.
    + now rewrite Swap_length.
    + intros i' Hi'. apply Hidx. lia.
Qed.

Lemma breakPatterns_within (d : list A) a b :
  a <= b <= List.length d -> Within a b d (breakPatterns_func d a b).
Proof.
  intros Hab. unfold breakPatterns_func.
  destruct (8 <=? b - a) eqn:E; [|apply Within_refl].
  apply Nat.leb_le in E.
  assert (Hdiv : b - a = 4 * ((b - a) / 4) + (b - a) mod 4)
    by (apply Nat.div_mod_eq).
  assert (Hmod : (b - a) mod 4 < 4) by (apply Nat.mod_upper_bound; lia).
  apply breakPatterns_loop_within; try lia; try reflexivity.
  destruct (pow2_bitsLen (b - a) ltac:(lia)) as [P1 P2].
  split; [lia|]. eapply Z.lt_le_trans; [exact P1|].
  apply Z.pow_le_mono_r; lia.
Qed.

Lemma reverseRange_loop_within a b : forall n (d : list A) i j,
  a <= i -> j < b -> b <= List.length d ->
  Within a b d (reverseRange_loop n d i j).
Proof.
  induction n as [|n IH]; intros d i j Hi Hj Hb;
    cbn [reverseRange_loop]; [apply Within_refl|].
  destruct (i <? j) eqn:E; [|apply Within_refl].
  apply Nat.ltb_lt in E.
  eapply Within_trans; [apply (Within_swap a b d i j); lia|].
  apply IH; try lia. now rewrite Swap_length.
Qed.

Lemma reverseRange_within (d : list A) a b :
  a < b <= List.length d -> Within a b d (reverseRange_func d a b).
Proof.
  intros Hab. unfold reverseRange_func.
  apply reverseRange_loop_within; lia.
Qed.

(** *** choosePivot picks an index of the range *)

Lemma order2_in (d : list A) x y s :
  let '(u, v, _) := order2_func keyLess d x y s in
  (u = x /\ v = y) \/ (u = y /\ v = x).
Proof. unfold order2_func. destruct (Less keyLess d y x); auto. Qed.

Lemma median_in (d : list A) x y z s :
  let '(m, _) := median_func keyLess d x y z s in m = x \/ m = y \/ m = z.
Proof.
  unfold median_func.
  pose proof (order2_in d x y s) as H1.
  destruct (order2_func keyLess d x y s) as [[x1 y1] s1].
  pose proof (order2_in d y1 z s1) as H2.
  destruct (order2_func keyLess d y1 z s1) as [[y2 z2] s2].
  pose proof (order2_in d x1 y2 s2) as H3.
  destruct (order2_func keyLess d x1 y2 s2) as [[x3 y3] s3].
  lia.
Qed.

Lemma choosePivot_in (d : list A) a b :
  8 <= b - a -> a <= fst (choosePivot_func keyLess d a b) < b.
Proof.
  intros Hl. unfold choosePivot_func, medianAdjacent_func, shortestNinther.
  assert (Hdiv : b - a = 4 * ((b - a) / 4) + (b - a) mod 4)
    by (apply Nat.div_mod_eq).
  assert (Hmod : (b - a) mod 4 < 4) by (apply Nat.mod_upper_bound; lia).
  set (q := (b - a) / 4) in *.
  destruct (8 <=? b - a) eqn:E8; [|apply Nat.leb_gt in E8; lia].
  destruct (50 <=? b - a) eqn:E50.
  - apply Nat.leb_le in E50.
    pose proof (median_in d (a + q * 1 - 1) (a + q * 1) (a + q * 1 + 1) 0) as H1.
    destruct (median_func keyLess d (a + q * 1 - 1) (a + q * 1)
                (a + q * 1 + 1) 0) as [i s1].
    pose proof (median_in d (a + q * 2 - 1) (a + q * 2) (a + q * 2 + 1) s1) as H2.
    destruct (median_func keyLess d (a + q * 2 - 1) (a + q * 2)
                (a + q * 2 + 1) s1) as [j s2].
    pose proof (median_in d (a + q * 3 - 1) (a + q * 3) (a + q * 3 + 1) s2) as H3.
    destruct (median_func keyLess d (a + q * 3 - 1) (a + q * 3)
                (a + q * 3 + 1) s2) as [k s3].
    pose proof (median_in d i j k s3) as H4.
    destruct (median_func keyLess d i j k s3) as [m s4].
    destruct (s4 =? 0); [simpl; lia|].
    destruct (s4 =? maxSwaps); simpl; lia.
  - pose proof (median_in d (a + q * 1) (a + q * 2) (a + q * 3) 0) as H4.
    destruct (median_func keyLess d (a + q * 1) (a + q * 2) (a + q * 3) 0)
      as [m s4].
    destruct (s4 =? 0); [simpl; lia|].
    destruct (s4 =? maxSwaps); simpl; lia.
Qed.

(** *** partialInsertionSort *)

Lemma sortedR_same (d d' : list A) a b :
  (forall k, a <= k < b -> d' !! k = d !! k) ->
  sortedR d a b -> sortedR d' a b.
Proof.
  intros Hsame HS i j x y Hi Hij Hj Hx Hy.
  rewrite Hsame in Hx, Hy by lia. now apply (HS i j).
Qed.

Lemma sortedR_weaken (d : list A) a b a' b' :
  a <= a' -> b' <= b -> sortedR d a b -> sortedR d a' b'.
Proof.
  intros Ha Hb HS i j x y Hi Hij Hj. apply (HS i j); lia.
Qed.

Lemma skipOrdered_loop_spec (d : list A) a b : forall n i,
  a < i -> b <= List.length d -> b - i <= n -> sortedR d a i ->
  let i' := skipOrdered_loop keyLess n d i b in
  i <= i' /\ (i <= b -> i' <= b) /\ sortedR d a i'
  /\ (i' < b -> forall x y, d !! (i' - 1) = Some x -> d !! i' = Some y ->
       (key y < key x)%Z).
Proof.
  induction n as [|n IH]; intros i Hai Hb Hn HS; cbn [skipOrdered_loop].
  - split; [lia|]. split; [lia|]. split; [exact HS|]. lia.
  - destruct (i <? b) eqn:E; cbn [andb].
    2:{ apply Nat.ltb_ge in E. split; [lia|]. split; [lia|].
        split; [exact HS|]. lia. }
    apply Nat.ltb_lt in E.
    destruct (lookup_lt_is_Some_2 d i ltac:(lia)) as [y Hy].
    destruct (lookup_lt_is_Some_2 d (i - 1) ltac:(lia)) as [x Hx].
    rewrite (Less_at d i (i - 1) y x Hy Hx).
    destruct (key y <? key x)%Z eqn:E1; cbn [negb].
    + apply Z.ltb_lt in E1. split; [lia|]. split; [lia|].
      split; [exact HS|]. intros _ x' y' Hx' Hy'. congruence.
    + apply Z.ltb_ge in E1.
      destruct (IH (S i)) as (H1 & H2 & H3 & H4); try lia.
      * intros k1 k2 u v Hk1 Hk12 Hk2 Hu Hv.
        destruct (decide (k2 < i)); [now apply (HS k1 k2)|].
        assert (k2 = i) as -> by lia. rewrite Hy in Hv. injection Hv as <-.
        destruct (decide (k1 = i)) as [->|].
        -- rewrite Hy in Hu. injection Hu as <-. lia.
        -- assert (key u <= key x)%Z by (apply (HS k1 (i - 1)); auto; lia).
           lia.
      * split; [lia|]. split; [lia|]. split; assumption.
Qed.

Lemma shiftLeft_insertDown a b : forall j (d : list A),
  a <= j < b -> b <= List.length d -> lbound d a b ->
  shiftLeft keyLess d j = insertDown keyLess d a j.
Proof.
  induction j as [|j IH]; intros d Hj Hb HL; [reflexivity|].
  cbn [shiftLeft insertDown].
  destruct (a <? S j) eqn:E; cbn [andb].
  - apply Nat.ltb_lt in E.
    destruct (Less keyLess d (S j) j) eqn:EL; cbn [negb]; [|reflexivity].
    apply IH; [lia | now rewrite Swap_length |].
    apply (Within_lbound a b d); [lia | apply Within_swap; lia | exact HL].
  - apply Nat.ltb_ge in E. assert (a = S j) as -> by lia.
    destruct HL as [?|(p & Hp & Hall)]; [lia|].
    replace (S j - 1) with j in Hp by lia.
    destruct (lookup_lt_is_Some_2 d (S j) ltac:(lia)) as [x Hx].
    rewrite (Less_at d (S j) j x p Hx Hp).
    specialize (Hall (S j) x ltac:(lia) Hx). cbv beta in Hall.
    destruct (key x <? key p)%Z eqn:E1; [apply Z.ltb_lt in E1; lia|].
    reflexivity.
Qed.

Lemma shiftRight_within b : forall n (d : list A) j,
  1 <= j -> j + n <= b -> b <= List.length d ->
  Within (j - 1) b d (shiftRight keyLess n d j).
Proof.
  induction n as [|n IH]; intros d j Hj Hn Hb;
    cbn [shiftRight]; [apply Within_refl|].
  destruct (Less keyLess d j (j - 1)); cbn [negb]; [|apply Within_refl].
  apply (Within_trans _ _ _ (Swap d j (j - 1))).
  - apply Within_swap; lia.
  - apply (Within_widen (S j - 1) b); [lia | lia |].
    apply IH; [lia | lia | now rewrite Swap_length].
Qed.

Lemma partialInsertion_loop_spec a b : forall steps (d : list A) i,
  a < i -> i <= b -> b <= List.length d ->
  lbound d a b -> sortedR d a i ->
  let r := partialInsertion_loop keyLess steps d a b i in
  Within a b d (fst r) /\ (snd r = true -> sortedR (fst r) a b).
Proof.
  induction steps as [|steps IH]; intros d i Hai Hib Hb HL HS;
    cbn [partialInsertion_loop].
  - split; [apply Within_refl | discriminate].
  - unfold skipOrdered.
    destruct (skipOrdered_loop_spec d a b (b - i) i Hai Hb ltac:(lia) HS)
      as (I1 & I2 & I3 & _).
    set (i' := skipOrdered_loop keyLess (b - i) d i b) in *.
    specialize (I2 Hib).
    destruct (i' =? b) eqn:E.
    { apply Nat.eqb_eq in E. rewrite E in I3.
      split; [apply Within_refl | intros _; exact I3]. }
    apply Nat.eqb_neq in E.
    destruct (b - a <? shortestShifting);
      [split; [apply Within_refl | discriminate]|].
    set (d1 := Swap d i' (i' - 1)).
    assert (HW1 : Within a b d d1) by (apply Within_swap; lia).
    assert (Hl1 : List.length d1 = List.length d) by apply Swap_length.
    assert (HL1 : lbound d1 a b) by (apply (Within_lbound a b d); auto; lia).
    assert (HS1 : sortedR d1 a (i' - 1)).
    { apply (sortedR_same d);
        [|apply (sortedR_weaken d a i'); [lia | lia | exact I3]].
      intros k Hk. unfold d1. rewrite Swap_lookup by lia.
      repeat case_decide; try lia; reflexivity. }
    (* the smaller one goes left *)
    set (d2 := if 2 <=? i' - a then shiftLeft keyLess d1 (i' - 1) else d1).
    assert (HW2 : Within a i' d1 d2 /\ sortedR d2 a i').
    { unfold d2. destruct (2 <=? i' - a) eqn:E2.
      - apply Nat.leb_le in E2.
        rewrite (shiftLeft_insertDown a b) by (auto; lia).
        replace i' with (S (i' - 1)) at 1 4 by lia.
        apply insertDown_sorted; try lia; try exact HS1.
        intros k1 k2 x y ? ? ? Hx Hy. assert (k1 = k2) as -> by lia.
        rewrite Hx in Hy. injection Hy as <-. lia.
      - apply Nat.leb_gt in E2. split; [apply Within_refl|].
        intros k1 k2 x y ? ? ? Hx Hy. assert (k1 = k2) as -> by lia.
        rewrite Hx in Hy. injection Hy as <-. lia. }
    destruct HW2 as [HW2 HS2].
    assert (Hl2 : List.length d2 = List.length d)
      by (rewrite (Within_length _ _ _ _ HW2); exact Hl1).
    (* the greater one goes right *)
    set (d3 := if 2 <=? b - i' then shiftRight keyLess (b - (i' + 1)) d2 (i' + 1)
               else d2).
    assert (HW3 : Within i' b d2 d3).
    { unfold d3. destruct (2 <=? b - i') eqn:E3; [|apply Within_refl].
      apply Nat.leb_le in E3.
      apply (Within_widen (i' + 1 - 1) b); [lia | lia |].
      apply shiftRight_within; lia. }
    assert (HWall : Within a b d d3).
    { eapply Within_trans; [exact HW1|].
      eapply Within_trans;
        [apply (Within_widen a i'); [lia | lia | exact HW2]|].
      apply (Within_widen i' b); [lia | lia | exact HW3]. }
    destruct (IH d3 i') as [HW4 HS4]; try lia.
    + rewrite (Within_length _ _ _ _ HW3). lia.
    + apply (Within_lbound a b d); auto; lia.
    + apply (sortedR_same d2); [|exact HS2].
      intros k Hk. destruct HW3 as [_ S3]. apply S3. lia.
    + split; [eapply Within_trans; eassumption | exact HS4].
Qed.

Lemma partialInsertionSort_spec (d : list A) a b :
  a < b <= List.length d -> lbound d a b ->
  let r := partialInsertionSort_func keyLess d a b in
  Within a b d (fst r) /\ (snd r = true -> sortedR (fst r) a b).
Proof.
  intros Hab HL. unfold partialInsertionSort_func.
  apply partialInsertion_loop_spec; try lia; try exact HL.
  intros k1 k2 x y ? ? ? Hx Hy. assert (k1 = k2) as -> by lia.
  rewrite Hx in Hy. injection Hy as <-. lia.
Qed.

(** *** pdqsort *)

Lemma allR_same P (d d' : list A) a b :
  (forall k, a <= k < b -> d' !! k = d !! k) ->
  allR P d a b -> allR P d' a b.
Proof.
  intros Hsame H k x Hk Hx. rewrite Hsame in Hx by lia. now apply (H k).
Qed.

Lemma lbound_same (d d' : list A) a b :
  a <= b ->
  (forall k, a - 1 <= k < b -> d' !! k = d !! k) ->
  lbound d a b -> lbound d' a b.
Proof.
  intros Hab Hsame [->|(p & Hp & Hall)]; [now left|].
  destruct (decide (a = 0)) as [->|Ha]; [now left|].
  right. exists p. split; [rewrite Hsame; [exact Hp | lia]|].
  intros k x Hk Hx. rewrite Hsame in Hx by lia. now apply (Hall k).
Qed.

Lemma lbound_narrow (d : list A) a b b' :
  b' <= b -> lbound d a b -> lbound d a b'.
Proof.
  intros Hb [->|(p & Hp & Hall)]; [now left|].
  right. exists p. split; [exact Hp|].
  apply (allR_weaken _ d a b); [lia | lia | exact Hall].
Qed.

Lemma sortedR_join2 (d : list A) a mid b (z : Z) :
  sortedR d a mid -> sortedR d mid b ->
  allR (fun x => (key x <= z)%Z) d a mid ->
  allR (fun x => (z <= key x)%Z) d mid b ->
  sortedR d a b.
Proof.
  intros HL HR HlP HrP i j x y Hai Hij Hjb Hx Hy.
  destruct (decide (j < mid)); [now apply (HL i j)|].
  destruct (decide (mid <= i)); [now apply (HR i j); try lia|].
  specialize (HlP i x ltac:(lia) Hx). specialize (HrP j y ltac:(lia) Hy).
  cbv beta in *. lia.
Qed.

(** Sorting the two sides of a partition, in either order, sorts the
    range. *)
Lemma sorted_sides (d d1 d2 : list A) a mid b p :
  a <= mid < b -> b <= List.length d ->
  d !! mid = Some p ->
  allR (fun x => (key x < key p)%Z) d a mid ->
  allR (fun x => (key p <= key x)%Z) d (S mid) b ->
  (Within a mid d d1 /\ Within (S mid) b d1 d2
   \/ Within (S mid) b d d1 /\ Within a mid d1 d2) ->
  sortedR d2 a mid -> sortedR d2 (S mid) b ->
  Within a b d d2 /\ sortedR d2 a b.
Proof.
  intros Hmid Hb Hp HL HR Hw HSl HSr.
  assert (Hl1 : List.length d1 = List.length d)
    by (destruct Hw as [[W1 _]|[W1 _]]; apply (Within_length _ _ _ _ W1)).
  assert (HW : Within a b d d2).
  { destruct Hw as [[W1 W2]|[W1 W2]].
    - eapply Within_trans;
        [apply (Within_widen a mid); [lia|lia|exact W1]|].
      apply (Within_widen (S mid) b); [lia|lia|exact W2].
    - eapply Within_trans;
        [apply (Within_widen (S mid) b); [lia|lia|exact W1]|].
      apply (Within_widen a mid); [lia|lia|exact W2]. }
  split; [exact HW|].
  assert (Hp2 : d2 !! mid = Some p).
  { destruct Hw as [[[_ S1] [_ S2]]|[[_ S1] [_ S2]]];
      rewrite S2, S1 by lia; exact Hp. }
  assert (HL2 : allR (fun x => (key x < key p)%Z) d2 a mid).
  { destruct Hw as [[W1 W2]|[W1 W2]].
    - apply (allR_same _ d1); [intros k Hk; apply W2; lia|].
      apply (Within_allR _ a mid d); [lia | exact W1 | exact HL].
    - apply (Within_allR _ a mid d1); [lia | exact W2 |].
      apply (allR_same _ d); [intros k Hk; apply W1; lia | exact HL]. }
  assert (HR2 : allR (fun x => (key p <= key x)%Z) d2 (S mid) b).
  { destruct Hw as [[W1 W2]|[W1 W2]].
    - apply (Within_allR _ (S mid) b d1); [lia | exact W2 |].
      apply (allR_same _ d); [intros k Hk; apply W1; lia | exact HR].
    - apply (allR_same _ d1); [intros k Hk; apply W2; lia|].
      apply (Within_allR _ (S mid) b d); [lia | exact W1 | exact HR]. }
  apply (sortedR_join d2 a mid b p); try assumption.
  intros k x Hk Hx. specialize (HL2 k x Hk Hx). cbv beta in *. lia.
Qed.

Lemma pdqsort_sorted : forall fuel (d : list A) a b limit wb wp,
  a <= b <= List.length d -> b - a < fuel -> lbound d a b ->
  exists d',
    pdqsort_func keyLess fuel d a b limit wb wp = Some d'
    /\ Within a b d d' /\ sortedR d' a b.
Proof.
  induction fuel as [|fuel IH]; intros d a b limit wb wp Hab Hfuel HLB;
    [lia|].
  cbn [pdqsort_func]. unfold maxInsertion.
  destruct (b - a <=? 12) eqn:E12.
  { eexists. split; [reflexivity|]. now apply insertionSort_sorted. }
  apply Nat.leb_gt in E12.
  destruct (limit =? 0) eqn:Elim.
  { eexists. split; [reflexivity|]. now apply heapSort_sorted. }
  (* breaking patterns *)
  set (st1 := if negb wb then (breakPatterns_func d a b, limit - 1)
              else (d, limit)).
  assert (HW1 : Within a b d (fst st1)).
  { unfold st1. destruct (negb wb); simpl;
      [apply breakPatterns_within; lia | apply Within_refl]. }
  clearbody st1. destruct st1 as [d1 limit1]. cbn [fst] in HW1.
  assert (Hl1 := Within_length _ _ _ _ HW1).
  (* the pivot *)
  pose proof (choosePivot_in d1 a b ltac:(lia)) as Hpv.
  destruct (choosePivot_func keyLess d1 a b) as [pivot hint].
  cbn [fst] in Hpv.
  set (st2 := if isDecreasing hint
              then (reverseRange_func d1 a b, b - 1 - (pivot - a),
                    increasingHint)
              else (d1, pivot, hint)).
  assert (HW2 : Within a b d1 (fst (fst st2))
                /\ a <= snd (fst st2) < b).
  { unfold st2. destruct (isDecreasing hint); simpl.
    - split; [apply reverseRange_within; lia | lia].
    - split; [apply Within_refl | lia]. }
  clearbody st2. destruct st2 as [[d2 pivot2] hint2]. cbn [fst snd] in HW2.
  destruct HW2 as [HW2 Hpv2].
  assert (Hl2 : List.length d2 = List.length d)
    by (rewrite (Within_length _ _ _ _ HW2); exact Hl1).
  assert (HLB2 : lbound d2 a b).
  { apply (Within_lbound a b d1); [lia | exact HW2|].
    apply (Within_lbound a b d); [lia | exact HW1 | exact HLB]. }
  (* an almost sorted range *)
  set (st3 := if wb && wp && isIncreasing hint2
              then partialInsertionSort_func keyLess d2 a b
              else (d2, false)).
  assert (HW3 : Within a b d2 (fst st3)
                /\ (snd st3 = true -> sortedR (fst st3) a b)).
  { unfold st3. destruct (wb && wp && isIncreasing hint2).
    - apply partialInsertionSort_spec; [lia | exact HLB2].
    - simpl. split; [apply Within_refl | discriminate]. }
  clearbody st3. destruct st3 as [d3 sorted]. cbn [fst snd] in HW3.
  destruct HW3 as [HW3 Hsorted].
  assert (Hl3 : List.length d3 = List.length d)
    by (rewrite (Within_length _ _ _ _ HW3); exact Hl2).
  assert (HLB3 : lbound d3 a b)
    by (apply (Within_lbound a b d2); [lia | exact HW3 | exact HLB2]).
  assert (HWd3 : Within a b d d3).
  { eapply Within_trans; [exact HW1|].
    eapply Within_trans; [exact HW2 | exact HW3]. }
  destruct sorted.
  { exists d3. split; [reflexivity|]. split; [exact HWd3 | now apply Hsorted]. }
  destruct (lookup_lt_is_Some_2 d3 pivot2 ltac:(lia)) as [p Hp].
  destruct ((0 <? a) && negb (Less keyLess d3 (a - 1) pivot2)) eqn:Eeq.
  - (* many equal elements *)
    apply andb_true_iff in Eeq as [Ea Eless]. apply Nat.ltb_lt in Ea.
    destruct HLB3 as [?|(q & Hq & Hqall)]; [lia|].
    rewrite (Less_at d3 (a - 1) pivot2 q p Hq Hp) in Eless.
    apply negb_true_iff, Z.ltb_ge in Eless.
    destruct (partitionEqual_spec d3 a b pivot2 p ltac:(lia) ltac:(lia) Hp)
      as (d4 & mid & E4 & HW4 & Hmid & HL4 & HR4).
    rewrite E4.
    assert (Hl4 : List.length d4 = List.length d)
      by (rewrite (Within_length _ _ _ _ HW4); exact Hl3).
    assert (Hq4 : allR (fun x => (key q <= key x)%Z) d4 a b)
      by (apply (Within_allR _ a b d3); [lia | exact HW4 | exact Hqall]).
    destruct (lookup_lt_is_Some_2 d4 (mid - 1) ltac:(lia)) as [z Hz].
    destruct (IH d4 mid b limit1 wb wp) as (d5 & E5 & HW5 & HS5);
      [lia | lia | |].
    { right. exists z. replace (S (mid - 1)) with mid by lia.
      split; [exact Hz|]. intros k x Hk Hx.
      specialize (HR4 k x Hk Hx). specialize (HL4 (mid - 1) z ltac:(lia) Hz).
      cbv beta in *. lia. }
    exists d5. split; [exact E5|]. split.
    + eapply Within_trans; [exact HWd3|].
      eapply Within_trans; [exact HW4|].
      apply (Within_widen mid b); [lia | lia | exact HW5].
    + apply (sortedR_join2 d5 a mid b (key p)).
      * apply (sortedR_same d4); [intros k Hk; apply HW5; lia|].
        intros i j x y Hi Hij Hj Hx Hy.
        specialize (HL4 i x ltac:(lia) Hx).
        specialize (Hq4 j y ltac:(lia) Hy). cbv beta in *. lia.
      * exact HS5.
      * apply (allR_same _ d4); [intros k Hk; apply HW5; lia | exact HL4].
      * apply (Within_allR _ mid b d4); [lia | exact HW5 |].
        intros k x Hk Hx. specialize (HR4 k x Hk Hx). cbv beta in *. lia.
  - (* the general partition *)
    destruct (partition_spec d3 a b pivot2 p ltac:(lia) ltac:(lia) Hp)
      as (d4 & mid & done & E4 & HW4 & Hmid & Hp4 & HL4 & HR4).
    rewrite E4.
    assert (Hl4 : List.length d4 = List.length d)
      by (rewrite (Within_length _ _ _ _ HW4); exact Hl3).
    assert (HLB4 : lbound d4 a b)
      by (apply (Within_lbound a b d3); [lia | exact HW4 | exact HLB3]).
    assert (HLBr : lbound d4 (mid + 1) b).
    { right. exists p. replace (mid + 1 - 1) with mid by lia.
      split; [exact Hp4|]. now replace (mid + 1) with (S mid) by lia. }
    assert (HWd4 : Within a b d d4)
      by (eapply Within_trans; [exact HWd3 | exact HW4]).
    destruct (mid - a <? b - mid).
    + (* the left side first *)
      destruct (IH d4 a mid limit1 true true) as (d5 & E5 & HW5 & HS5);
        [lia | lia | apply (lbound_narrow d4 a b); [lia | exact HLB4] |].
      rewrite E5.
      assert (Hl5 := Within_length _ _ _ _ HW5).
      destruct (IH d5 (mid + 1) b limit1 ((b - a) / 8 <=? mid - a) done)
        as (d6 & E6 & HW6 & HS6); [lia | lia | |].
      { apply (lbound_same d4); [lia | | exact HLBr].
        intros k Hk. apply HW5. lia. }
      exists d6. split; [exact E6|].
      replace (mid + 1) with (S mid) in * by lia.
      destruct (sorted_sides d4 d5 d6 a mid b p) as [HWs HSs];
        try assumption; try lia.
      * left. split; assumption.
      * apply (sortedR_same d5); [intros k Hk; apply HW6; lia | exact HS5].
      * split; [eapply Within_trans; eassumption | exact HSs].
    + (* the right side first *)
      destruct (IH d4 (mid + 1) b limit1 true true)
        as (d5 & E5 & HW5 & HS5); [lia | lia | exact HLBr |].
      rewrite E5.
      assert (Hl5 := Within_length _ _ _ _ HW5).
      destruct (IH d5 a mid limit1 ((b - a) / 8 <=? b - mid) done)
        as (d6 & E6 & HW6 & HS6); [lia | lia | |].
      { apply (lbound_same d4); [lia | |].
        - intros k Hk. apply HW5. lia.
        - apply (lbound_narrow d4 a b); [lia | exact HLB4]. }
      exists d6. split; [exact E6|].
      replace (mid + 1) with (S mid) in * by lia.
      destruct (sorted_sides d4 d5 d6 a mid b p) as [HWs HSs];
        try assumption; try lia.
      * right. split; assumption.
      * apply (sortedR_same d5); [intros k Hk; apply HW6; lia | exact HS5].
      * split; [eapply Within_trans; eassumption | exact HSs].
Qed.
End Ranges.
End SortFacts.

(** ** The ranking of a tick *)

Module RankFacts.
Import Sort SortSpec SortFacts.

Section AnyKey.
Context {A : Type} (key : A -> Z).

Lemma Slice_run_sorted (d : list A) :
  exists d',
    Slice_run (keyLess key) d = Some d'
    /\ d ≡ₚ d' /\ sortedR key d' 0 (List.length d').
Proof.
  unfold Slice_run.
  destruct (pdqsort_sorted key (S (List.length d)) d 0 (List.length d)
              (bitsLen (List.length d)) true true)
    as (d' & E & [HP HS] & Hsorted); [lia | lia | now left |].
  exists d'. split; [exact E|]. split; [exact HP|].
  now rewrite <- (Permutation_length HP).
Qed.

Lemma Slice_sorted (d : list A) :
  Slice_run (keyLess key) d = Some (Slice (keyLess key) d)
  /\ d ≡ₚ Slice (keyLess key) d
  /\ sortedR key (Slice (keyLess key) d) 0
       (List.length (Slice (keyLess key) d)).
Proof.
  destruct (Slice_run_sorted d) as (d' & E & HP & HS).
  unfold Slice. rewrite E. auto.
Qed.

Lemma sortedR_StronglySorted (d : list A) :
  sortedR key d 0 (List.length d) ->
  StronglySorted (fun x y => (key x <= key y)%Z) d.
Proof.
  induction d as [|x d IH]; intros HS; constructor.
  - apply IH. intros i j u v Hi Hij Hj Hu Hv.
    apply (HS (S i) (S j) u v); simpl; try assumption; lia.
  - apply Forall_lookup. intros i y Hy.
    apply (HS 0 (S i) x y); simpl; try (assumption || reflexivity || lia).
    apply lookup_lt_Some in Hy. lia.
Qed.

Lemma Slice_small (d : list A) :
  List.length d <= 12 ->
  Slice (keyLess key) d
  = insertionSort_func (keyLess key) d 0 (List.length d).
Proof.
  intros Hlen. unfold Slice, Slice_run. cbn [pdqsort_func].
  unfold maxInsertion. rewrite Nat.sub_0_r.
  destruct (List.length d <=? 12) eqn:E; [reflexivity|].
  apply Nat.leb_gt in E. lia.
Qed.

Lemma Slice_small_stable (d : list A) (k : Z) :
  List.length d <= 12 ->
  withKey key k (Slice (keyLess key) d) = withKey key k d.
Proof.
  intros Hlen. rewrite Slice_small by exact Hlen.
  now apply insertionSort_stable.
Qed.
End AnyKey.

Lemma rank_sorted (ps : list pingStats) :
  Slice_run lessRttAvg ps = Some (rank ps)
  /\ ps ≡ₚ rank ps
  /\ forall i j x y, i <= j ->
       rank ps !! i = Some x -> rank ps !! j = Some y ->
       (RttAvg x <= RttAvg y)%Z.
Proof.
  destruct (Slice_sorted RttAvg ps) as (E & HP & HS).
  split; [exact E|]. split; [exact HP|].
  intros i j x y Hij Hx Hy.
  apply (HS i j x y); try assumption; [lia|].
  apply lookup_lt_Some in Hy. exact Hy.
Qed.

Lemma rank_StronglySorted (ps : list pingStats) :
  StronglySorted (fun x y => (RttAvg x <= RttAvg y)%Z) (rank ps).
Proof.
  apply sortedR_StronglySorted.
  destruct (Slice_sorted RttAvg ps) as (_ & _ & HS). exact HS.
Qed.

(** The claim of C1 as it was stated fails on thirteen targets: the
    target [t6] comes out before [t1] ... [t5], which have the same mean
    and stood before it. *)
Lemma rank_thirteen_not_stable :
  map Name (rank thirteen)
  = ["t6"; "t1"; "t2"; "t3"; "t4"; "t5"; "t7"; "t8"; "t9"; "t10"; "t11";
     "t12"; "t0"]%string
  /\ ~ sameOrderOfEquals thirteen (rank thirteen).
Proof.
  split; [vm_compute; reflexivity|].
  intros H. specialize (H (Duration.ms 10)).
  apply (f_equal (map Name)) in H. vm_compute in H. discriminate H.
Qed.

(** C1, amended.  The ranking of a tick is the list of targets
    rearranged so that the means do not decrease.  On at most twelve
    targets, which [sort.Slice] sorts by insertion, targets of equal mean
    keep their relative order; the targets A (20ms), B (10ms), C (20ms)
    come out as B, A, C. *)
Theorem rank_sorted_stable_small :
  (forall ps : list pingStats,
     Permutation ps (rank ps)
     /\ StronglySorted (fun x y => (RttAvg x <= RttAvg y)%Z) (rank ps)
     /\ (List.length ps <= 12 -> sameOrderOfEquals ps (rank ps)))
  /\ rank [targetA; targetB; targetC] = [targetB; targetA; targetC].
Proof.
  split; [|vm_compute; reflexivity].
  intros ps. destruct (rank_sorted ps) as (_ & HP & _).
  split; [exact HP|]. split; [apply rank_StronglySorted|].
  intros Hlen mean. now apply (Slice_small_stable RttAvg).
Qed.

Lemma rank_sorted_stable_small_witness :
  sameOrderOfEquals [targetA; targetB; targetC]
    (rank [targetA; targetB; targetC]).
Proof.
  apply (proj1 rank_sorted_stable_small [targetA; targetB; targetC]).
  simpl. lia.
Defined.

(** A target that has only sent so far still has the zero mean it was
    created with. *)
Lemma unreplied_mean_zero name addr es s :
  (Z.of_nat (List.length es) <= Go.maxInt64)%Z ->
  run_events (newPingStats name addr) es = Some s ->
  pktsRecv s = 0%Z -> RttAvg s = 0%Z.
Proof.
  intros Hlen Hrun H0.
  assert (Hgen : forall es s0 s1,
            run_events s0 es = Some s1 -> recvs es = 0%Z ->
            rttAvg s1 = rttAvg s0).
  { clear. induction es as [|e es IH]; intros s0 s1 Hrun Hr.
    - simpl in Hrun. now injection Hrun as <-.
    - rewrite recvs_cons in Hr. pose proof (recvs_nonneg es).
      destruct e as [pkt|pkt]; simpl in Hr; [|lia].
      simpl in Hrun. now rewrite (IH _ _ Hrun) by lia. }
  pose proof (sends_recvs_length es). pose proof (sends_nonneg es).
  pose proof (recvs_nonneg es).
  destruct (run_events_counters es (newPingStats name addr))
    as (s' & Hrun' & _ & HR & _); simpl; try lia.
  rewrite Hrun in Hrun'. injection Hrun' as <-. simpl in HR.
  unfold RttAvg. rewrite (Hgen es _ _ Hrun); [reflexivity | lia].
Qed.

(** The claim of C2 as it was stated fails: the target without a reply
    is ranked first, before the one that has answered. *)
Lemma rank_silent_first :
  rank [answered; silent] = [silent; answered]
  /\ ~ unrepliedLast (rank [answered; silent]).
Proof.
  split; [vm_compute; reflexivity|].
  intros H.
  specialize (H 0 1 silent answered eq_refl eq_refl eq_refl eq_refl). lia.
Qed.

(** C2, amended.  Ranking never fails, and a target that has received
    nothing, whatever it has sent, is ranked by the zero mean it was
    created with: it comes before every target whose mean is positive. *)
Theorem rank_unreplied_first
    (ps : list pingStats) (name addr : string) (es : list event)
    (i j : nat) (x y : pingStats) :
  rank ps !! i = Some x -> rank ps !! j = Some y ->
  (Z.of_nat (List.length es) <= Go.maxInt64)%Z ->
  run_events (newPingStats name addr) es = Some x ->
  pktsRecv x = 0%Z ->
  (0 < RttAvg y)%Z ->
  Sort.Slice_run lessRttAvg ps = Some (rank ps)
  /\ RttAvg x = 0%Z /\ i < j.
Proof.
  intros Hx Hy Hlen Hrun H0 Hpos.
  destruct (rank_sorted ps) as (E & _ & HS).
  assert (Hz : RttAvg x = 0%Z)
    by (eapply unreplied_mean_zero; eassumption).
  split; [exact E|]. split; [exact Hz|].
  destruct (decide (i < j)) as [|Hge]; [assumption|].
  pose proof (HS j i y x ltac:(lia) Hy Hx). lia.
Qed.

Lemma rank_unreplied_first_witness :
  Sort.Slice_run lessRttAvg [answered; silent]
  = Some (rank [answered; silent])
  /\ RttAvg silent = 0%Z /\ 0 < 1.
Proof.
  apply (rank_unreplied_first [answered; silent] "down" EmptyString
           [EvSend (mkPacket 0); EvSend (mkPacket 0); EvSend (mkPacket 0)]
           0 1 silent answered).
  - reflexivity.
  - reflexivity.
  - vm_compute. discriminate.
  - reflexivity.
  - reflexivity.
  - vm_compute. reflexivity.
Defined.
End RankFacts.

(** * Further properties *)

(** ** The counters and the mean over a run of callbacks *)

Section Callbacks.
Local Open Scope Z_scope.

Lemma rttsOf_cons e es :
  rttsOf (e :: es)
  = match e with EvSend _ => [] | EvRecv pkt => [Rtt pkt] end ++ rttsOf es.
Proof. reflexivity. Qed.

Lemma recvs_rttsOf es : recvs es = Z.of_nat (List.length (rttsOf es)).
Proof.
  induction es as [|[pkt|pkt] es IH]; [reflexivity| |];
    rewrite recvs_cons, rttsOf_cons; simpl; lia.
Qed.

(** X1.  A run of fewer than 2^63 callbacks on a fresh target never
    panics and leaves [pktsSent] at the number of [OnPktSend] calls and
    [pktsRecv] at the number of [OnPktRecv] calls, whatever their order;
    the name and the address are those the target was created with. *)
Theorem callbacks_counted (name addr : string) (es : list event) :
  Z.of_nat (List.length es) <= Go.maxInt64 ->
  exists s,
    run_events (newPingStats name addr) es = Some s
    /\ pktsSent s = sends es
    /\ pktsRecv s = recvs es
    /\ Name s = name /\ Addr s = addr.
Proof.
  intros Hlen.
  pose proof (sends_recvs_length es) as Hsum.
  pose proof (sends_nonneg es) as Hs0.
  pose proof (recvs_nonneg es) as Hr0.
  destruct (run_events_counters es (newPingStats name addr))
    as (s & E & H1 & H2 & H3 & H4); simpl; try lia.
  exists s. simpl in H1, H2, H3, H4. repeat split; assumption.
Qed.

Lemma callbacks_counted_witness :
  exists s,
    run_events (newPingStats "gw" "10.0.0.1") sample_calls = Some s
    /\ pktsSent s = sends sample_calls
    /\ pktsRecv s = recvs sample_calls
    /\ Name s = "gw"%string /\ Addr s = "10.0.0.1"%string.
Proof.
  apply (callbacks_counted "gw" "10.0.0.1" sample_calls).
  vm_compute. discriminate.
Defined.

Lemma OnPktSend_OnPktRecv s p q :
  OnPktRecv (OnPktSend s p) q
  = option_map (fun s' => OnPktSend s' p) (OnPktRecv s q).
Proof.
  unfold OnPktRecv. simpl.
  destruct (Go.add64 (pktsRecv s) 1 =? 1); [reflexivity|].
  destruct (Go.div64 _ _); reflexivity.
Qed.

Lemma run_events_send_first s p es :
  run_events (OnPktSend s p) es
  = option_map (fun s' => OnPktSend s' p) (run_events s es).
Proof.
  revert s. induction es as [|[p'|q] es IH]; intros s; simpl.
  - reflexivity.
  - rewrite <- IH. reflexivity.
  - rewrite OnPktSend_OnPktRecv.
    destruct (OnPktRecv s q) as [s1|]; simpl; [apply IH | reflexivity].
Qed.

(** X2.  [OnPktSend] and [OnPktRecv] commute: a run of callbacks leaves
    the target in the state (or ends in the panic) of the run that makes
    its [OnPktRecv] calls first, in their order, and its [OnPktSend]
    calls after them.  How the sends fall between the replies changes
    nothing. *)
Theorem callbacks_interleave_freely (s : pingStats) (es : list event) :
  run_events s es = run_events s (recvPart es ++ sendPart es).
Proof.
  revert s. induction es as [|[p|q] es IH]; intros s.
  - reflexivity.
  - change (recvPart (EvSend p :: es)) with (recvPart es).
    change (sendPart (EvSend p :: es)) with (EvSend p :: sendPart es).
    simpl run_events at 1. rewrite run_events_send_first, IH.
    rewrite !ConcurrentFacts.run_events_app.
    destruct (run_events s (recvPart es)) as [s1|]; [|reflexivity].
    simpl. now rewrite run_events_send_first.
  - change (recvPart (EvRecv q :: es)) with (EvRecv q :: recvPart es).
    change (sendPart (EvRecv q :: es)) with (sendPart es).
    simpl. destruct (OnPktRecv s q); [apply IH | reflexivity].
Qed.

Lemma quot_between (d n : Z) :
  1 <= n ->
  (0 <= d -> 0 <= Z.quot d n <= d)
  /\ (d <= 0 -> d <= Z.quot d n <= 0).
Proof.
  intros Hn. split; intros Hd.
  - rewrite Z.quot_div_nonneg by lia.
    split; [apply Z.div_pos; lia|].
    apply Z.div_le_upper_bound; nia.
  - replace d with (- (- d)) at 2 3 by lia.
    rewrite Z.quot_opp_l by lia.
    rewrite Z.quot_div_nonneg by lia.
    assert (0 <= - d / n) by (apply Z.div_pos; lia).
    assert (- d / n <= - d) by (apply Z.div_le_upper_bound; nia).
    lia.
Qed.

Lemma quot_rem_bound (d n : Z) :
  1 <= n -> Z.abs (d - n * Z.quot d n) <= n - 1.
Proof.
  intros Hn.
  pose proof (Z.quot_rem' d n) as E.
  pose proof (Z.rem_bound_abs d n ltac:(lia)) as B.
  replace (d - n * Z.quot d n) with (Z.rem d n) by lia.
  lia.
Qed.

Lemma OnPktRecv_meanOK lo hi s total x :
  Go.inInt64 lo -> Go.inInt64 hi -> hi - lo <= Go.maxInt64 ->
  lo <= x <= hi ->
  pktsRecv s < Go.maxInt64 ->
  meanOK lo hi s total ->
  exists s', OnPktRecv s (mkPacket x) = Some s'
    /\ pktsRecv s' = pktsRecv s + 1
    /\ meanOK lo hi s' (total + x).
Proof.
  intros Hlo Hhi Hspan Hx Hmax (Hn0 & Hin & Hzero & Hacc).
  assert (Hm : Go.maxInt64 = 2 ^ 63 - 1) by reflexivity.
  unfold Go.inInt64, Go.minInt64 in Hlo, Hhi.
  destruct (Z.eq_dec (pktsRecv s) 0) as [E0|Hne].
  - destruct (OnPktRecv_first s (mkPacket x) E0) as (s' & E & H1 & H2 & _).
    exists s'. split; [exact E|]. split; [lia|].
    simpl in H2. unfold meanOK. rewrite H1, H2, (Hzero E0).
    repeat split; try lia.
  - destruct (OnPktRecv_later s (mkPacket x) ltac:(lia))
      as (s' & E & H1 & H2 & _).
    specialize (Hin ltac:(lia)). simpl in H2.
    exists s'. split; [exact E|]. split; [exact H1|].
    set (n := pktsRecv s + 1) in *.
    assert (Hd : Go.sub64 x (rttAvg s) = x - rttAvg s)
      by (apply sub64_small; unfold Go.inInt64, Go.minInt64; lia).
    rewrite Hd in H2.
    set (d := x - rttAvg s) in *.
    destruct (quot_between d n ltac:(lia)) as [Qp Qn].
    pose proof (quot_rem_bound d n ltac:(lia)) as Qr.
    assert (Hq : Go.wrap64 (Z.quot d n) = Z.quot d n).
    { apply wrap64_inrange. unfold Go.inInt64, Go.minInt64.
      destruct (Z.le_ge_cases 0 d); [specialize (Qp ltac:(lia))
                                    | specialize (Qn ltac:(lia))]; lia. }
    rewrite Hq in H2.
    assert (Ha : Go.add64 (rttAvg s) (Z.quot d n) = rttAvg s + Z.quot d n).
    { apply add64_small. unfold Go.inInt64, Go.minInt64.
      destruct (Z.le_ge_cases 0 d); [specialize (Qp ltac:(lia))
                                    | specialize (Qn ltac:(lia))]; lia. }
    rewrite Ha in H2.
    unfold meanOK. rewrite H1, H2.
    split; [lia|]. split.
    { intros _.
      destruct (Z.le_ge_cases 0 d); [specialize (Qp ltac:(lia))
                                    | specialize (Qn ltac:(lia))]; lia. }
    split; [lia|].
    replace (n * (rttAvg s + Z.quot d n) - (total + x))
      with ((pktsRecv s * rttAvg s - total) - (d - n * Z.quot d n))
      by (unfold n, d; ring).
    replace (n * (n - 1))
      with (pktsRecv s * (pktsRecv s - 1) + 2 * pktsRecv s)
      by (unfold n; ring).
    replace (n - 1) with (pktsRecv s) in Qr by (unfold n; lia).
    generalize dependent (pktsRecv s * (pktsRecv s - 1)).
    generalize dependent (pktsRecv s * rttAvg s - total).
    generalize dependent (d - n * Z.quot d n).
    intros; lia.
Qed.

Lemma run_events_meanOK lo hi es : forall s total,
  Go.inInt64 lo -> Go.inInt64 hi -> hi - lo <= Go.maxInt64 ->
  samplesIn lo hi (rttsOf es) ->
  pktsRecv s + recvs es <= Go.maxInt64 ->
  meanOK lo hi s total ->
  exists s', run_events s es = Some s'
    /\ pktsRecv s' = pktsRecv s + recvs es
    /\ meanOK lo hi s' (total + sumZ (rttsOf es)).
Proof.
  induction es as [|e es IH]; intros s total Hlo Hhi Hspan Hin Hmax Hok.
  - exists s. split; [reflexivity|]. unfold recvs. simpl.
    rewrite !Z.add_0_r. auto.
  - rewrite recvs_cons in Hmax. pose proof (recvs_nonneg es) as Hr.
    unfold samplesIn in Hin.
    rewrite rttsOf_cons in Hin |- *. rewrite recvs_cons.
    destruct e as [pkt|[x]]; simpl in Hmax |- *.
    + destruct (IH (OnPktSend s pkt) total) as (s' & E & H1 & H2);
        try assumption.
      exists s'. split; [exact E|]. simpl in H1. split; [lia|exact H2].
    + apply Forall_cons in Hin as [Hx Hin]. simpl in Hx.
      destruct (OnPktRecv_meanOK lo hi s total x)
        as (s1 & E1 & H1 & Hok1); try assumption; try lia.
      rewrite E1.
      destruct (IH s1 (total + x)) as (s' & E & H2 & H3);
        try assumption; try lia.
      exists s'. split; [exact E|]. split; [lia|].
      now rewrite Z.add_assoc.
Qed.

Lemma meanOK_fresh lo hi name addr : meanOK lo hi (newPingStats name addr) 0.
Proof. unfold meanOK. simpl. repeat split; lia. Qed.

(** X3.  The running mean never leaves the range of the samples: when
    all the round-trip times received so far lie between [lo] and [hi]
    (a range no wider than an [int64] can hold), so does [RttAvg],
    after any run of callbacks with at least one reply. *)
Theorem mean_within_samples
    (name addr : string) (es : list event) (lo hi : Z) :
  Z.of_nat (List.length es) <= Go.maxInt64 ->
  Go.inInt64 lo -> Go.inInt64 hi -> hi - lo <= Go.maxInt64 ->
  samplesIn lo hi (rttsOf es) ->
  rttsOf es <> [] ->
  exists s,
    run_events (newPingStats name addr) es = Some s
    /\ lo <= RttAvg s <= hi.
Proof.
  intros Hlen Hlo Hhi Hspan Hin Hne.
  pose proof (sends_recvs_length es) as Hsum.
  pose proof (sends_nonneg es) as Hs0.
  destruct (run_events_meanOK lo hi es (newPingStats name addr) 0)
    as (s & E & Hn & (_ & Hr & _)); try assumption.
  - simpl. lia.
  - apply meanOK_fresh.
  - exists s. split; [exact E|]. apply Hr. rewrite Hn. simpl.
    rewrite recvs_rttsOf. destruct (rttsOf es); [congruence|simpl; lia].
Qed.

Lemma mean_within_samples_witness :
  exists s,
    run_events (newPingStats "gw" "10.0.0.1") jittery = Some s
    /\ Duration.ns 1 <= RttAvg s <= Duration.ns 2.
Proof.
  apply (mean_within_samples "gw" "10.0.0.1" jittery
           (Duration.ns 1) (Duration.ns 2)).
  - vm_compute. discriminate.
  - vm_compute. split; discriminate.
  - vm_compute. split; discriminate.
  - vm_compute. discriminate.
  - repeat constructor; vm_compute; discriminate.
  - discriminate.
Defined.

(** X4.  The truncations of the mean update do not pile up beyond half
    a nanosecond per reply, as long as nothing overflows: for a run of
    fewer than 2^63 callbacks on a fresh target whose round-trip times
    all lie between two int64 values [lo] and [hi] that are less than
    2^63 apart, no call panics and, with [n] the number of replies, [n]
    times [RttAvg] is off the sum of the round-trip times by at most
    [n (n - 1) / 2], so [RttAvg] is within [(n - 1) / 2] nanoseconds of
    their exact mean. *)
Theorem mean_accuracy
    (name addr : string) (es : list event) (lo hi : Z) :
  Z.of_nat (List.length es) <= Go.maxInt64 ->
  Go.inInt64 lo -> Go.inInt64 hi -> hi - lo <= Go.maxInt64 ->
  samplesIn lo hi (rttsOf es) ->
  exists s,
    run_events (newPingStats name addr) es = Some s
    /\ pktsRecv s = Z.of_nat (List.length (rttsOf es))
    /\ 2 * Z.abs (pktsRecv s * RttAvg s - sumZ (rttsOf es))
       <= pktsRecv s * (pktsRecv s - 1).
Proof.
  intros Hlen Hlo Hhi Hspan Hin.
  pose proof (sends_recvs_length es) as Hsum.
  pose proof (sends_nonneg es) as Hs0.
  destruct (run_events_meanOK lo hi es (newPingStats name addr) 0)
    as (s & E & Hn & (_ & _ & _ & Hacc)); try assumption.
  - simpl. lia.
  - apply meanOK_fresh.
  - exists s. split; [exact E|]. split.
    + rewrite Hn. simpl. apply recvs_rttsOf.
    + exact Hacc.
Qed.

Lemma mean_accuracy_witness :
  exists s,
    run_events (newPingStats "gw" "10.0.0.1") jittery = Some s
    /\ pktsRecv s = 2
    /\ 2 * Z.abs (pktsRecv s * RttAvg s - 3) <= pktsRecv s * (pktsRecv s - 1).
Proof.
  apply (mean_accuracy "gw" "10.0.0.1" jittery
           (Duration.ns 1) (Duration.ns 2)).
  - vm_compute. discriminate.
  - vm_compute. split; discriminate.
  - vm_compute. split; discriminate.
  - vm_compute. discriminate.
  - repeat constructor; vm_compute; discriminate.
Defined.
End Callbacks.

(** ** The float side: the loss and the deviation *)

Section Floats.
Local Open Scope Z_scope.

Lemma digits2_pos_bounds (p : positive) :
  2 ^ (Zpos (digits2_pos p) - 1) <= Zpos p < 2 ^ Zpos (digits2_pos p).
Proof.
  induction p as [p IH|p IH|]; cbn [digits2_pos].
  - rewrite Pos2Z.inj_succ.
    replace (Z.succ (Zpos (digits2_pos p)) - 1)
      with (Zpos (digits2_pos p) - 1 + 1) by lia.
    rewrite !Z.pow_succ_r by lia.
    rewrite Z.pow_add_r by lia. lia.
  - rewrite Pos2Z.inj_succ.
    replace (Z.succ (Zpos (digits2_pos p)) - 1)
      with (Zpos (digits2_pos p) - 1 + 1) by lia.
    rewrite !Z.pow_succ_r by lia.
    rewrite Z.pow_add_r by lia. lia.
  - simpl. lia.
Qed.

Lemma digits2_pos_small (p : positive) (n : Z) :
  0 <= n -> Zpos p < 2 ^ n -> Zpos (digits2_pos p) <= n.
Proof.
  intros Hn Hp. destruct (digits2_pos_bounds p) as [Hlo _].
  destruct (Z.le_gt_cases (Zpos (digits2_pos p)) n) as [|Hgt]; [assumption|].
  assert (2 ^ n <= 2 ^ (Zpos (digits2_pos p) - 1))
    by (apply Z.pow_le_mono_r; lia).
  lia.
Qed.

Lemma digits2_pos_shift (p k : positive) :
  digits2_pos (Pos.iter xO p k) = (digits2_pos p + k)%positive.
Proof.
  induction k as [|k IH] using Pos.peano_ind.
  - simpl. lia.
  - rewrite Pos.iter_succ. cbn [digits2_pos]. rewrite IH. lia.
Qed.

(** Rounding leaves a mantissa and an exponent in canonical form as
    they are. *)
Lemma binary_round_aux_canonical s m e :
  fexp 53 1024 (Zpos (digits2_pos m) + e) = e -> e <= 971 ->
  binary_round_aux 53 1024 s (Zpos m) e loc_Exact = S754_finite s m e.
Proof.
  intros Hc He. unfold binary_round_aux, shr_fexp.
  cbn [Zdigits2]. rewrite Hc, Z.sub_diag. cbn [shr shr_record_of_loc
    shr_m loc_of_shr_record round_nearest_even Zdigits2].
  rewrite Hc, Z.sub_diag. cbn [shr shr_record_of_loc shr_m].
  destruct (e <=? 1024 - 53) eqn:E; [reflexivity|].
  apply Z.leb_gt in E. lia.
Qed.

(** [float64(z)] for a positive [z] below 2^53 is a positive finite
    number. *)
Lemma float64_of_int_finite (z : Z) :
  0 < z < 2 ^ 53 ->
  exists m e, Prim2SF (Go.float64_of_int z) = S754_finite false m e.
Proof.
  intros Hz. destruct z as [|p|p]; try lia.
  pose proof (digits2_pos_small p 53 ltac:(lia) ltac:(lia)) as Hd.
  assert (Hfexp : forall d, 0 < d <= 53 -> fexp 53 1024 d = d - 53).
  { intros d Hd'. unfold fexp, emin. lia. }
  assert (Hfin : exists m e,
            binary_normalize 53 1024 (Zpos p) 0 false = S754_finite false m e
            /\ SpecFloat.valid_binary 53 1024 (S754_finite false m e) = true).
  { unfold binary_normalize, binary_round, shl_align.
    rewrite Z.add_0_r, Hfexp by lia. rewrite Z.sub_0_r.
    destruct (Zpos (digits2_pos p) - 53) as [|k|k] eqn:Ek; [|lia|].
    - exists p, 0.
      assert (Hc : fexp 53 1024 (Zpos (digits2_pos p) + 0) = 0)
        by (rewrite Z.add_0_r, Hfexp; lia).
      rewrite binary_round_aux_canonical by (assumption || lia).
      split; [reflexivity|].
      unfold SpecFloat.valid_binary, bounded, canonical_mantissa.
      rewrite Hc. reflexivity.
    - exists (Pos.iter xO p k), (Zneg k).
      assert (Hc : fexp 53 1024
                     (Zpos (digits2_pos (Pos.iter xO p k)) + Zneg k)
                   = Zneg k).
      { rewrite digits2_pos_shift, Pos2Z.inj_add.
        replace (Zpos (digits2_pos p) + Zpos k + Zneg k)
          with (Zpos (digits2_pos p)) by lia.
        rewrite Hfexp; lia. }
      rewrite binary_round_aux_canonical by (assumption || lia).
      split; [reflexivity|].
      unfold SpecFloat.valid_binary, bounded, canonical_mantissa.
      rewrite Hc, Z.eqb_refl. reflexivity. }
  destruct Hfin as (m & e & E & Hv).
  exists m, e. unfold Go.float64_of_int. rewrite E.
  now apply FloatAxioms.Prim2SF_SF2Prim.
Qed.

Lemma float64_of_int_class (z : Z) :
  0 <= z < 2 ^ 53 ->
  Prim2SF (Go.float64_of_int z) = S754_zero false
  \/ exists m e, Prim2SF (Go.float64_of_int z) = S754_finite false m e.
Proof.
  intros Hz. destruct (Z.eq_dec z 0) as [->|Hne]; [now left|].
  right. apply float64_of_int_finite. lia.
Qed.

Lemma float_zero_div (y : float) m e :
  Prim2SF y = S754_finite false m e -> (0 / y)%float = 0%float.
Proof.
  intros Hy. apply FloatAxioms.Prim2SF_inj.
  rewrite FloatAxioms.div_spec, Hy. reflexivity.
Qed.

Lemma float_div_self (y : float) m e :
  Prim2SF y = S754_finite false m e -> (y / y)%float = 1%float.
Proof.
  intros Hy. apply FloatAxioms.Prim2SF_inj.
  rewrite FloatAxioms.div_spec, Hy.
  unfold FloatAxioms.SF64div, SFdiv, SFdiv_core_binary.
  replace (Zdigits2 (Zpos m) + e - (Zdigits2 (Zpos m) + e)) with 0 by lia.
  rewrite Z.sub_diag.
  change (Z.min (fexp FloatOps.prec FloatOps.emax 0) 0) with (-53).
  change (0 - -53) with 53.
  cbv iota.
  assert (Hdiv : Z.div_eucl (Z.shiftl (Zpos m) 53) (Zpos m) = (2 ^ 53, 0)).
  { rewrite Z.shiftl_mul_pow2 by lia.
    pose proof (Z.mod_pos_bound (Zpos m * 2 ^ 53) (Zpos m) ltac:(lia)) as Hb.
    unfold Z.modulo in Hb.
    assert (Hq : Zpos m * 2 ^ 53 / Zpos m = 2 ^ 53)
      by (rewrite Z.mul_comm; apply Z.div_mul; lia).
    unfold Z.div in Hq.
    pose proof (Z.div_eucl_eq (Zpos m * 2 ^ 53) (Zpos m) ltac:(lia)) as Heq.
    destruct (Z.div_eucl (Zpos m * 2 ^ 53) (Zpos m)) as [q r].
    simpl in Hq, Hb. subst q. f_equal. lia. }
  rewrite Hdiv.
  assert (Hloc : new_location (Zpos m) 0 = loc_Exact).
  { unfold new_location, new_location_even, new_location_odd.
    destruct (Z.even (Zpos m)); reflexivity. }
  rewrite Hloc. vm_compute. reflexivity.
Qed.

Lemma shr_1_nonneg mrs : 0 <= shr_m mrs -> 0 <= shr_m (shr_1 mrs).
Proof.
  destruct mrs as [m r s]. destruct m as [|[p|p|]|p]; simpl; lia.
Qed.

Lemma iter_pos_nonneg n : forall mrs,
  0 <= shr_m mrs -> 0 <= shr_m (SpecFloat.iter_pos shr_1 n mrs).
Proof.
  induction n as [n IH|n IH|]; intros mrs H; cbn [SpecFloat.iter_pos].
  - apply IH, IH, shr_1_nonneg, H.
  - apply IH, IH, H.
  - apply shr_1_nonneg, H.
Qed.

Lemma shr_fexp_nonneg m e l :
  0 <= m -> 0 <= shr_m (fst (shr_fexp 53 1024 m e l)).
Proof.
  intros Hm. unfold shr_fexp, shr.
  assert (H0 : 0 <= shr_m (shr_record_of_loc m l))
    by (destruct l as [|[]]; exact Hm).
  destruct (fexp 53 1024 (Zdigits2 m + e) - e); cbn [fst];
    try exact H0. now apply iter_pos_nonneg.
Qed.

Lemma round_nearest_even_nonneg m l :
  0 <= m -> 0 <= round_nearest_even m l.
Proof.
  intros Hm. destruct l as [|[]]; cbn [round_nearest_even]; try lia.
  destruct (Z.even m); lia.
Qed.

(** Rounding a mantissa that is not negative, with the sign bit clear,
    gives a number that is not negative. *)
Lemma binary_round_aux_nonneg mx ex lx :
  0 <= mx -> nonnegSF (binary_round_aux 53 1024 false mx ex lx).
Proof.
  intros Hm. unfold binary_round_aux.
  pose proof (shr_fexp_nonneg mx ex lx Hm) as H1.
  destruct (shr_fexp 53 1024 mx ex lx) as [mrs' e']. cbn [fst] in H1.
  pose proof (shr_fexp_nonneg
                (round_nearest_even (shr_m mrs') (loc_of_shr_record mrs'))
                e' loc_Exact
                (round_nearest_even_nonneg _ _ H1)) as H2.
  destruct (shr_fexp 53 1024 _ e' loc_Exact) as [mrs'' e''].
  cbn [fst] in H2.
  destruct (shr_m mrs'') as [|m|m]; [now left | | lia].
  destruct (e'' <=? 1024 - 53); [right; left; eauto | now right; right].
Qed.

Lemma div_nonneg (x y : float) m e :
  Prim2SF x = S754_zero false
  \/ (exists mx ex, Prim2SF x = S754_finite false mx ex) ->
  Prim2SF y = S754_finite false m e ->
  nonnegSF (Prim2SF (x / y)).
Proof.
  intros Hx Hy. rewrite FloatAxioms.div_spec, Hy.
  destruct Hx as [Hx|(mx & ex & Hx)]; rewrite Hx.
  - now left.
  - unfold FloatAxioms.SF64div, SFdiv. cbn [xorb].
    destruct (SFdiv_core_binary FloatOps.prec FloatOps.emax (Zpos mx) ex
                (Zpos m) e)
      as [[mz ez] lz] eqn:E.
    apply binary_round_aux_nonneg.
    unfold SFdiv_core_binary in E.
    set (m' := match _ - _ - _ with Zpos _ => _ | Z0 => _ | Zneg _ => _ end)
      in E.
    assert (Hm' : 0 <= m').
    { subst m'. destruct (_ - _ - _) as [|k|k]; try lia.
      apply Z.shiftl_nonneg. lia. }
    pose proof (Z_div_mod m' (Zpos m) ltac:(lia)) as Hdm.
    destruct (Z.div_eucl m' (Zpos m)) as [q r].
    injection E as <- _ _. nia.
Qed.

Lemma mul_100_nonneg (x : float) :
  nonnegSF (Prim2SF x) ->
  nonnegSF (Prim2SF (x * Go.float64_of_int 100)).
Proof.
  intros Hx. rewrite FloatAxioms.mul_spec.
  change (Prim2SF (Go.float64_of_int 100))
    with (S754_finite false 7036874417766400 (-46)).
  destruct Hx as [Hx|[(m & e & Hx)|Hx]]; rewrite Hx.
  - now left.
  - unfold FloatAxioms.SF64mul, SFmul. cbn [xorb]. apply binary_round_aux_nonneg. lia.
  - now right; right.
Qed.

Lemma nonneg_not_nan (x : float) :
  nonnegSF (Prim2SF x) ->
  PrimFloat.is_nan x = false /\ (0 <=? x)%float = true.
Proof.
  intros Hx. unfold PrimFloat.is_nan.
  rewrite FloatAxioms.eqb_spec, FloatAxioms.leb_spec.
  change (Prim2SF 0) with (S754_zero false).
  destruct Hx as [Hx|[(m & e & Hx)|Hx]]; rewrite Hx;
    try (split; reflexivity).
  unfold SFeqb, SFleb, SFcompare.
  rewrite Z.compare_refl, Pos.compare_cont_refl. split; reflexivity.
Qed.

Lemma inInt64_small z : - 2 ^ 53 <= z <= 2 ^ 53 -> Go.inInt64 z.
Proof. unfold Go.inInt64, Go.minInt64, Go.maxInt64. lia. Qed.

(** X5.  Past the first send the loss is a number: for a target that
    has sent something (fewer than 2^53 packets, the integers a
    [float64] holds exactly) and received no more than it has sent,
    [PktLoss] is not NaN and is not negative. *)
Theorem PktLoss_is_a_number (s : pingStats) :
  0 < pktsSent s < 2 ^ 53 ->
  0 <= pktsRecv s <= pktsSent s ->
  PrimFloat.is_nan (PktLoss s) = false
  /\ (0 <=? PktLoss s)%float = true.
Proof.
  intros Hs Hr. apply nonneg_not_nan. unfold PktLoss.
  rewrite sub64_small by (apply inInt64_small; lia).
  destruct (float64_of_int_finite (pktsSent s) Hs) as (m & e & Hy).
  apply mul_100_nonneg. eapply div_nonneg; [|exact Hy].
  apply float64_of_int_class. lia.
Qed.

Lemma PktLoss_is_a_number_witness :
  PrimFloat.is_nan (PktLoss after_one_sample) = false
  /\ (0 <=? PktLoss after_one_sample)%float = true.
Proof.
  apply (PktLoss_is_a_number after_one_sample); simpl; lia.
Defined.

(** X6.  The two ends of the scale are exact: the row of a target that
    has sent something shows 0.0% when every packet has been answered,
    and 100.0% when none has. *)
Theorem PktLoss_all_or_nothing (s : pingStats) :
  0 < pktsSent s < 2 ^ 53 ->
  (pktsRecv s = pktsSent s -> lossCell (rowOf s) = "0.0%"%string)
  /\ (pktsRecv s = 0 -> lossCell (rowOf s) = "100.0%"%string).
Proof.
  intros Hs.
  destruct (float64_of_int_finite (pktsSent s) Hs) as (m & e & Hy).
  unfold lossCell, rowOf. cbn [nth]. unfold PktLoss. split; intros Hr.
  - rewrite Hr, sub64_small by (apply inInt64_small; lia).
    rewrite Z.sub_diag.
    change (Go.float64_of_int 0) with 0%float.
    rewrite (float_zero_div _ m e Hy). vm_compute. reflexivity.
  - rewrite Hr, sub64_small by (apply inInt64_small; lia).
    rewrite Z.sub_0_r, (float_div_self _ m e Hy). vm_compute. reflexivity.
Qed.

Lemma PktLoss_all_or_nothing_witness :
  lossCell (rowOf silent) = "100.0%"%string.
Proof.
  apply (PktLoss_all_or_nothing silent); [simpl; lia | reflexivity].
Defined.

Lemma OnPktRecv_steady x s :
  Go.inInt64 x -> pktsRecv s < 2 ^ 53 - 1 -> steadyOK x s ->
  exists s', OnPktRecv s (mkPacket x) = Some s'
    /\ pktsRecv s' = pktsRecv s + 1 /\ steadyOK x s'.
Proof.
  intros Hx Hmax (Hn & Hd & Hst).
  assert (HM : Go.maxInt64 = 2 ^ 63 - 1) by reflexivity.
  destruct (Z.eq_dec (pktsRecv s) 0) as [E0|Hne].
  - unfold OnPktRecv. rewrite E0.
    change (Go.add64 0 1) with 1. cbn [Z.eqb Pos.eqb].
    eexists. split; [reflexivity|]. cbn [pktsRecv]. split; [reflexivity|].
    unfold steadyOK. cbn [pktsRecv rttStdDev rttAvg rttVar Rtt].
    repeat split; auto; lia.
  - destruct (Hst ltac:(lia)) as [Ha Hv].
    destruct (OnPktRecv_later s (mkPacket x) ltac:(lia))
      as (s' & E & H1 & H2 & H3 & H4).
    simpl in H2, H3, H4. rewrite Ha in H2, H3, H4.
    assert (Hdelta : Go.sub64 x x = 0)
      by (rewrite sub64_small; [lia | rewrite Z.sub_diag; now vm_compute]).
    rewrite Hdelta in H2, H3, H4.
    assert (Hq : Z.quot 0 (pktsRecv s + 1) = 0)
      by now rewrite Z.quot_0_l by lia.
    rewrite Hq in H2, H3, H4.
    change (Go.wrap64 0) with 0 in H2, H3, H4.
    assert (Havg : Go.add64 x 0 = x)
      by (rewrite add64_small; [lia | now rewrite Z.add_0_r]).
    rewrite Havg in H2, H3, H4. rewrite Hdelta, Hv in H3, H4.
    change (0 + Go.float64_of_int 0 * Go.float64_of_int 0)%float
      with 0%float in H3, H4.
    replace (pktsRecv s + 1 - 1) with (pktsRecv s) in H4 by lia.
    destruct (float64_of_int_finite (pktsRecv s) ltac:(lia)) as (m & e & Hy).
    rewrite (float_zero_div _ m e Hy) in H4.
    exists s'. split; [exact E|]. split; [exact H1|].
    unfold steadyOK. rewrite H1, H2, H3, H4.
    repeat split; try lia.
Qed.

Lemma run_events_steady x es : forall s,
  Go.inInt64 x ->
  Forall (fun r => r = x) (rttsOf es) ->
  pktsRecv s + recvs es < 2 ^ 53 ->
  steadyOK x s ->
  exists s', run_events s es = Some s'
    /\ pktsRecv s' = pktsRecv s + recvs es /\ steadyOK x s'.
Proof.
  induction es as [|e es IH]; intros s Hx Hall Hmax Hok.
  - exists s. unfold recvs. simpl. rewrite Z.add_0_r. auto.
  - rewrite recvs_cons in Hmax |- *. pose proof (recvs_nonneg es) as Hr.
    rewrite rttsOf_cons in Hall.
    destruct e as [pkt|[r]]; simpl in Hmax |- *.
    + destruct (IH (OnPktSend s pkt)) as (s' & E & H1 & H2);
        try assumption.
      exists s'. split; [exact E|]. simpl in H1. split; [lia | exact H2].
    + apply Forall_cons in Hall as [Hrx Hall]. simpl in Hrx. subst r.
      destruct (OnPktRecv_steady x s) as (s1 & E1 & H1 & Hok1);
        try assumption; try lia.
      rewrite E1.
      destruct (IH s1) as (s' & E & H2 & H3); try assumption; try lia.
      exists s'. split; [exact E|]. split; [lia | exact H3].
Qed.

(** X7.  Replies that all take the same time leave no deviation: when
    every round-trip time received is [x], after any run of fewer than
    2^53 callbacks with at least one reply [RttAvg] is [x] and
    [RttStdDev] is zero. *)
Theorem steady_replies_no_deviation
    (name addr : string) (es : list event) (x : Z) :
  Go.inInt64 x ->
  Z.of_nat (List.length es) < 2 ^ 53 ->
  Forall (fun r => r = x) (rttsOf es) ->
  rttsOf es <> [] ->
  exists s,
    run_events (newPingStats name addr) es = Some s
    /\ RttAvg s = x /\ RttStdDev s = 0.
Proof.
  intros Hx Hlen Hall Hne.
  pose proof (sends_recvs_length es) as Hsum.
  pose proof (sends_nonneg es) as Hs0.
  destruct (run_events_steady x es (newPingStats name addr))
    as (s & E & Hn & (_ & Hd & Hst)); try assumption.
  - simpl. lia.
  - unfold steadyOK. simpl. repeat split; lia.
  - exists s. split; [exact E|]. split; [|exact Hd].
    apply Hst. rewrite Hn. simpl. rewrite recvs_rttsOf.
    destruct (rttsOf es); [congruence | simpl; lia].
Qed.

Lemma steady_replies_no_deviation_witness :
  exists s,
    run_events (newPingStats "gw" "10.0.0.1") steady_calls = Some s
    /\ RttAvg s = Duration.ms 10 /\ RttStdDev s = 0.
Proof.
  apply (steady_replies_no_deviation "gw" "10.0.0.1" steady_calls).
  - vm_compute. split; discriminate.
  - vm_compute. reflexivity.
  - repeat constructor.
  - discriminate.
Defined.
End Floats.

(** ** The duration cells *)

Section Rendering.
Local Open Scope Z_scope.

Lemma lessThanHalf_small r m :
  0 <= r < m -> m <= Go.maxInt64 ->
  DurationFmt.lessThanHalf r m = (2 * r <? m).
Proof.
  intros Hr Hm. unfold Go.maxInt64 in Hm.
  unfold DurationFmt.lessThanHalf, Go.toUint64.
  rewrite (Z.mod_small r), (Z.mod_small m), Z.mod_small by lia.
  f_equal. lia.
Qed.

(** Away from the ends of the range, [Duration.Round] returns a
    multiple of the unit nearest to the duration. *)
Lemma Round_nearest (d m : Z) :
  0 < m ->
  Go.minInt64 + m <= d <= Go.maxInt64 - m ->
  nearestMultiple m d (DurationFmt.Round d m).
Proof.
  intros Hm Hd.
  assert (HM : Go.maxInt64 = 2 ^ 63 - 1) by reflexivity.
  assert (Hm' : Go.minInt64 = - 2 ^ 63) by reflexivity.
  unfold DurationFmt.Round, Go.rem64.
  destruct (m <=? 0) eqn:E; [lia|]. clear E.
  pose proof (Z.quot_rem' d m) as Hqr.
  destruct (d <? 0) eqn:Eneg.
  - apply Z.ltb_lt in Eneg.
    pose proof (Z.rem_nonpos d m ltac:(lia) ltac:(lia)) as Hr1.
    pose proof (Z.rem_bound_abs d m ltac:(lia)) as Hr2.
    rewrite (wrap64_inrange (- Z.rem d m))
      by (unfold Go.inInt64; lia).
    rewrite lessThanHalf_small by lia.
    destruct (2 * - Z.rem d m <? m) eqn:Eh.
    + apply Z.ltb_lt in Eh.
      rewrite add64_small by (unfold Go.inInt64; lia).
      split; [exists (Z.quot d m); lia | lia].
    + apply Z.ltb_ge in Eh.
      rewrite (sub64_small d m) by (unfold Go.inInt64; lia).
      rewrite add64_small by (unfold Go.inInt64; lia).
      destruct (d - m + - Z.rem d m <? d) eqn:El;
        [|apply Z.ltb_ge in El; lia].
      split; [exists (Z.quot d m - 1); lia | lia].
  - apply Z.ltb_ge in Eneg.
    pose proof (Z.rem_bound_pos d m ltac:(lia) ltac:(lia)) as Hr1.
    rewrite lessThanHalf_small by lia.
    destruct (2 * Z.rem d m <? m) eqn:Eh.
    + apply Z.ltb_lt in Eh.
      rewrite sub64_small by (unfold Go.inInt64; lia).
      split; [exists (Z.quot d m); lia | lia].
    + apply Z.ltb_ge in Eh.
      rewrite (add64_small d m) by (unfold Go.inInt64; lia).
      rewrite sub64_small by (unfold Go.inInt64; lia).
      destruct (d <? d + m - Z.rem d m) eqn:El;
        [|apply Z.ltb_ge in El; lia].
      split; [exists (Z.quot d m + 1); lia | lia].
Qed.

(** X8.  The two duration cells of a row show the mean and the
    deviation rounded to a nearest multiple of 100 microseconds: what is
    shown is within 50 microseconds of what is stored (for durations at
    least 100 microseconds away from the ends of the [int64] range). *)
Theorem row_durations_rounded (s : pingStats) :
  Go.minInt64 + cellUnit <= RttAvg s <= Go.maxInt64 - cellUnit ->
  Go.minInt64 + cellUnit <= RttStdDev s <= Go.maxInt64 - cellUnit ->
  exists a d,
    avgCell (rowOf s) = DurationFmt.String_ a
    /\ devCell (rowOf s) = DurationFmt.String_ d
    /\ nearestMultiple cellUnit (RttAvg s) a
    /\ nearestMultiple cellUnit (RttStdDev s) d.
Proof.
  intros Ha Hd.
  exists (DurationFmt.Round (RttAvg s) cellUnit),
         (DurationFmt.Round (RttStdDev s) cellUnit).
  split; [reflexivity|]. split; [reflexivity|].
  split; apply Round_nearest; try assumption; reflexivity.
Qed.

Lemma row_durations_rounded_witness :
  exists a d,
    avgCell (rowOf after_one_sample) = DurationFmt.String_ a
    /\ devCell (rowOf after_one_sample) = DurationFmt.String_ d
    /\ nearestMultiple cellUnit (Duration.ms 10) a
    /\ nearestMultiple cellUnit 0 d.
Proof.
  apply (row_durations_rounded after_one_sample);
    vm_compute; split; discriminate.
Defined.

Lemma fmtFrac_step prec v print acc :
  DurationFmt.fmtFrac_loop (S prec) (v * 10) print acc
  = DurationFmt.fmtFrac_loop prec v print
      (if print then String (DurationFmt.digit 0) acc else acc).
Proof.
  cbn [DurationFmt.fmtFrac_loop].
  rewrite Z.mod_mul, Z.div_mul by lia.
  simpl (negb (0 =? 0)). now rewrite orb_false_r.
Qed.

Lemma String_tenths (k : Z) :
  10 <= k < 10000 ->
  DurationFmt.String_ (k * 100000) = tenthsOfMs k.
Proof.
  intros Hk. unfold DurationFmt.String_, tenthsOfMs.
  destruct (k * 100000 <? 0) eqn:E; [apply Z.ltb_lt in E; lia|]. clear E.
  unfold Go.toUint64. rewrite Z.mod_small by lia.
  unfold Duration.Second, Duration.Millisecond, Duration.Microsecond,
    Duration.Nanosecond.
  destruct (k * 100000 <? 1000 * (1000 * (1000 * 1))) eqn:E;
    [clear E | apply Z.ltb_ge in E; lia].
  destruct (k * 100000 =? 0) eqn:E; [lia|]. clear E.
  destruct (k * 100000 <? 1000 * 1) eqn:E; [lia|]. clear E.
  destruct (k * 100000 <? 1000 * (1000 * 1)) eqn:E; [lia|]. clear E.
  unfold DurationFmt.fmtFrac.
  replace (k * 100000) with (k * 10 * 10 * 10 * 10 * 10) by lia.
  rewrite !fmtFrac_step. cbn [DurationFmt.fmtFrac_loop orb].
  destruct (k mod 10 =? 0) eqn:E; cbn [negb]; reflexivity.
Qed.

(** X9.  A mean above 0.95ms and below 999.95ms is shown in
    milliseconds with at most one decimal: the cell reads the digits of
    [k / 10], then a point and the digit [k mod 10] unless that is
    zero, then [ms], where [k] tenths of a millisecond is the mean
    rounded to 100 microseconds. *)
Theorem mean_cell_in_ms (s : pingStats) :
  950000 < RttAvg s < 999950000 ->
  exists k,
    10 <= k < 10000
    /\ avgCell (rowOf s) = tenthsOfMs k
    /\ nearestMultiple cellUnit (RttAvg s) (k * cellUnit).
Proof.
  intros Hr.
  destruct (Round_nearest (RttAvg s) cellUnit) as [[k Hk] Hnear].
  - reflexivity.
  - unfold cellUnit, Go.minInt64, Go.maxInt64, Duration.Microsecond,
      Duration.Nanosecond. lia.
  - assert (Hu : cellUnit = 100000) by reflexivity.
    rewrite Hk in Hnear. rewrite Hu in Hnear, Hk.
    exists k. split; [lia|]. split.
    + unfold avgCell, rowOf. cbn [nth].
      change (100 * Duration.Microsecond) with cellUnit.
      rewrite Hu, Hk. apply String_tenths. lia.
    + split; [exists k; reflexivity|]. rewrite Hu. exact Hnear.
Qed.

Lemma mean_cell_in_ms_witness :
  exists k,
    10 <= k < 10000
    /\ avgCell (rowOf after_one_sample) = tenthsOfMs k
    /\ nearestMultiple cellUnit (Duration.ms 10) (k * cellUnit).
Proof.
  apply (mean_cell_in_ms after_one_sample). vm_compute. split; reflexivity.
Defined.
End Rendering.

(** ** Target lists *)

Section Written.

Lemma notIn_check (c : ascii) (l : list ascii) :
  forallb (fun x => negb (Ascii.eqb x c)) l = true -> ~ In c l.
Proof.
  intros H Hin. rewrite forallb_forall in H. specialize (H c Hin).
  now rewrite Ascii.eqb_refl in H.
Qed.

Lemma plainLine_check (l : list ascii) :
  forallb (fun x => negb (Ascii.eqb x Bufio.LF)) l = true ->
  forallb (fun x => negb (Ascii.eqb x Bufio.CR)) l = true ->
  (List.length l <? Bufio.MaxScanTokenSize) = true ->
  plainLine l.
Proof.
  intros H1 H2 H3. split; [now apply notIn_check|].
  split; [now apply notIn_check | now apply Nat.ltb_lt].
Qed.

Lemma noBar_check (s : string) :
  forallb (fun x => negb (Ascii.eqb x "|")) (list_ascii_of_string s) = true ->
  ~ hasBar s.
Proof. apply notIn_check. Qed.

Lemma index_bar_first name addr :
  ~ hasBar name ->
  index 0 "|" (name ++ String "|" addr) = Some (String.length name).
Proof.
  unfold hasBar. induction name as [|c name IH]; intros Hno.
  - cbn [String.append index String.prefix].
    destruct (ascii_dec "|" "|") as [_|Hne]; [|congruence].
    destruct addr; reflexivity.
  - simpl in Hno. cbn [String.append index String.prefix].
    destruct (ascii_dec "|" c) as [E|Hne].
    + exfalso. apply Hno. left. now symmetry.
    + rewrite IH; [reflexivity|]. intros Hin. apply Hno. now right.
Qed.

Lemma substring_start name rest :
  substring 0 (String.length name) (name ++ rest) = name.
Proof.
  induction name as [|c name IH]; simpl.
  - destruct rest; reflexivity.
  - now rewrite IH.
Qed.

Lemma substring_whole s : substring 0 (String.length s) s = s.
Proof. induction s as [|c s IH]; simpl; [reflexivity | now rewrite IH]. Qed.

Lemma substring_rest name rest :
  substring (String.length name) (String.length rest) (name ++ rest) = rest.
Proof.
  induction name as [|c name IH]; simpl; [apply substring_whole | exact IH].
Qed.

Lemma length_append_string s t :
  String.length (s ++ t) = String.length s + String.length t.
Proof. induction s as [|c s IH]; simpl; [reflexivity | now rewrite IH]. Qed.

(** [strings.Cut] splits at the first separator. *)
Lemma Cut_first_bar name addr :
  ~ hasBar name ->
  Strings.Cut (name ++ "|" ++ addr) "|" = (name, addr, true).
Proof.
  intros Hno. unfold Strings.Cut.
  change ("|" ++ addr)%string with (String "|" addr).
  rewrite index_bar_first by exact Hno.
  rewrite substring_start.
  rewrite length_append_string. cbn [String.length].
  replace (String.length name + S (String.length addr)
           - (String.length name + 1)) with (String.length addr) by lia.
  replace (name ++ String "|" addr)%string
    with ((name ++ "|") ++ addr)%string.
  - replace (String.length name + 1) with (String.length (name ++ "|")).
    + now rewrite substring_rest.
    + rewrite length_append_string. reflexivity.
  - clear. induction name as [|c name IH]; simpl; [reflexivity|].
    now rewrite IH.
Qed.

Lemma dropCR_plain l :
  ~ In Bufio.CR l -> Bufio.token (rev l) = string_of_list_ascii l.
Proof.
  intros Hno. unfold Bufio.token, Bufio.dropCR.
  destruct (rev l) as [|c r] eqn:E; [now rewrite <- (rev_involutive l), E|].
  destruct (Ascii.eqb c Bufio.CR) eqn:Ec.
  - apply Ascii.eqb_eq in Ec. subst c. exfalso. apply Hno.
    apply in_rev. rewrite E. now left.
  - now rewrite <- E, rev_involutive.
Qed.

Lemma plainLine_okLine l : plainLine l -> okLine l.
Proof. intros (H1 & _ & H3). now split. Qed.

(** X10.  A target list written as the README says loads back: from a
    file of lines [name|address], each closed by a line feed,
    [readPingTargets] returns the targets of these names and addresses,
    fresh, in the order of the file.  The line is cut at its first
    separator, so a name cannot hold one but an address can. *)
Theorem readPingTargets_written
    (fs : FileSystem) (path : string) (targets : list (string * string)) :
  fs path = inr (fileOf (map lineOf targets)) ->
  Forall writable targets ->
  readPingTargets fs path
  = Continue (map (fun t => newPingStats (fst t) (snd t)) targets).
Proof.
  intros Hfs Hok. unfold readPingTargets. rewrite Hfs.
  rewrite scanLines_fileOf.
  - f_equal. rewrite !map_map. apply map_ext_Forall.
    eapply Forall_impl; [exact Hok|].
    intros [name addr] [Hno (_ & Hcr & _)]. simpl in Hno |- *.
    rewrite dropCR_plain by exact Hcr. unfold lineOf.
    rewrite string_of_list_ascii_of_string. simpl fst. simpl snd.
    unfold targetOfLine. now rewrite Cut_first_bar.
  - rewrite Forall_map. eapply Forall_impl; [exact Hok|].
    intros t [_ Hp]. now apply plainLine_okLine.
Qed.

Lemma readPingTargets_written_witness :
  readPingTargets files "written.txt"
  = Continue [newPingStats "router" "192.168.0.1";
              newPingStats "dns" "9.9.9.9|backup"].
Proof.
  apply (readPingTargets_written files "written.txt" sample_targets).
  - reflexivity.
  - apply List.Forall_forall. intros t Ht. unfold sample_targets in Ht.
    simpl in Ht. destruct Ht as [<-|[<-|[]]];
      (split; [apply noBar_check | apply plainLine_check];
       vm_compute; reflexivity).
Defined.

Lemma scan_fileOf_app lines rest :
  Forall okLine lines ->
  Bufio.scanLines (fileOf lines ++ rest)
  = map (fun l => Bufio.token (rev l)) lines ++ Bufio.scan rest [] 0.
Proof.
  unfold Bufio.scanLines.
  induction lines as [|l lines IH]; intros Hok.
  - reflexivity.
  - inversion Hok as [|? ? [Hno Hlen] Hrest]; subst.
    cbn [fileOf fold_right].
    replace ((string_of_list_ascii l
              ++ String Bufio.LF (fold_right
                   (fun l rest => string_of_list_ascii l
                                  ++ String Bufio.LF rest)
                   EmptyString lines)) ++ rest)%string
      with (string_of_list_ascii l
            ++ String Bufio.LF (fileOf lines ++ rest))%string.
    + rewrite scan_line by (simpl; assumption).
      rewrite app_nil_r. cbn [map app]. f_equal. now apply IH.
    + unfold fileOf. generalize (string_of_list_ascii l).
      intros s. induction s as [|c s IHs]; simpl; [reflexivity|].
      now rewrite IHs.
Qed.

Lemma scan_last l : forall cur n,
  ~ In Bufio.LF l ->
  n + List.length l < Bufio.MaxScanTokenSize ->
  0 < n + List.length l ->
  Bufio.scan (string_of_list_ascii l) cur n = [Bufio.token (rev l ++ cur)].
Proof.
  induction l as [|c l IH]; intros cur n Hno Hlen Hpos.
  - cbn [string_of_list_ascii Bufio.scan rev app]. simpl in Hlen, Hpos.
    destruct (n =? 0) eqn:E0; [apply Nat.eqb_eq in E0; lia|].
    destruct (Bufio.MaxScanTokenSize <=? n) eqn:E;
      [apply Nat.leb_le in E; lia | reflexivity].
  - cbn [string_of_list_ascii Bufio.scan].
    destruct (Ascii.eqb c Bufio.LF) eqn:E.
    + apply Ascii.eqb_eq in E. exfalso. apply Hno. now left.
    + rewrite IH.
      * simpl rev. now rewrite <- app_assoc.
      * intros Hin. apply Hno. now right.
      * simpl in Hlen. lia.
      * lia.
Qed.

Lemma scan_long l : forall rest cur n,
  ~ In Bufio.LF l ->
  Bufio.MaxScanTokenSize <= n + List.length l ->
  Bufio.scan (string_of_list_ascii l ++ String Bufio.LF rest) cur n = [].
Proof.
  induction l as [|c l IH]; intros rest cur n Hno Hlen.
  - cbn [string_of_list_ascii String.append Bufio.scan].
    rewrite Ascii.eqb_refl. simpl in Hlen.
    destruct (Bufio.MaxScanTokenSize <=? n) eqn:E;
      [reflexivity | apply Nat.leb_gt in E; lia].
  - cbn [string_of_list_ascii String.append Bufio.scan].
    destruct (Ascii.eqb c Bufio.LF) eqn:E.
    + apply Ascii.eqb_eq in E. exfalso. apply Hno. now left.
    + apply IH.
      * intros Hin. apply Hno. now right.
      * simpl in Hlen. lia.
Qed.

Lemma scan_long_end l : forall cur n,
  ~ In Bufio.LF l ->
  Bufio.MaxScanTokenSize <= n + List.length l ->
  Bufio.scan (string_of_list_ascii l) cur n = [].
Proof.
  induction l as [|c l IH]; intros cur n Hno Hlen.
  - cbn [string_of_list_ascii Bufio.scan]. simpl in Hlen.
    destruct (Bufio.MaxScanTokenSize <=? n) eqn:E;
      [now rewrite orb_true_r | apply Nat.leb_gt in E; lia].
  - cbn [string_of_list_ascii Bufio.scan].
    destruct (Ascii.eqb c Bufio.LF) eqn:E.
    + apply Ascii.eqb_eq in E. exfalso. apply Hno. now left.
    + apply IH.
      * intros Hin. apply Hno. now right.
      * simpl in Hlen. lia.
Qed.

Lemma fileOf_cons_app l lines rest :
  (fileOf (l :: lines) ++ rest)%string
  = (string_of_list_ascii l ++ String Bufio.LF (fileOf lines ++ rest))%string.
Proof.
  cbn [fileOf fold_right]. fold (fileOf lines).
  generalize (string_of_list_ascii l). intros s.
  induction s as [|c s IHs]; simpl; [reflexivity | now rewrite IHs].
Qed.

(** What the scanner delivers of any file at all: the lines before the
    first one of 64 KiB or more, each without its line ending. *)
Lemma scanLines_any lines tail :
  Forall (fun l => ~ In Bufio.LF l) lines -> ~ In Bufio.LF tail ->
  Bufio.scanLines (fileOf lines ++ string_of_list_ascii tail)
  = map (fun l => Bufio.token (rev l)) (beforeLong (linesOf lines tail)).
Proof.
  intros Hlines Htail. unfold Bufio.scanLines.
  induction Hlines as [|l lines Hl Hlines IH].
  - cbn [fileOf fold_right String.append linesOf app].
    destruct tail as [|c tail]; [reflexivity|].
    cbn [beforeLong]. unfold fits.
    destruct (List.length (c :: tail) <? Bufio.MaxScanTokenSize) eqn:E.
    + apply Nat.ltb_lt in E.
      rewrite scan_last; [| assumption | simpl; simpl in E; lia
                          | simpl; lia].
      now rewrite app_nil_r.
    + apply Nat.ltb_ge in E.
      rewrite scan_long_end; [reflexivity | assumption | simpl; exact E].
  - rewrite fileOf_cons_app.
    change (linesOf (l :: lines) tail) with (l :: linesOf lines tail).
    cbn [beforeLong]. unfold fits.
    destruct (List.length l <? Bufio.MaxScanTokenSize) eqn:E.
    + apply Nat.ltb_lt in E.
      rewrite scan_line by (simpl; assumption).
      rewrite app_nil_r. cbn [map]. now rewrite IH.
    + apply Nat.ltb_ge in E.
      rewrite scan_long; [reflexivity | assumption | simpl; exact E].
Qed.

(** Every file content is made of lines that end in a line feed and of
    what follows the last line feed. *)
Lemma file_has_lines (content : string) :
  exists lines tail,
    content = (fileOf lines ++ string_of_list_ascii tail)%string
    /\ Forall (fun l => ~ In Bufio.LF l) lines /\ ~ In Bufio.LF tail.
Proof.
  induction content as [|c content (lines & tail & E & Hlines & Htail)].
  - exists [], []. repeat split; [constructor | easy].
  - destruct (Ascii.eqb c Bufio.LF) eqn:Ec.
    + apply Ascii.eqb_eq in Ec. subst c.
      exists ([] :: lines), tail. rewrite fileOf_cons_app, <- E.
      repeat split; [constructor; easy | assumption].
    + apply Ascii.eqb_neq in Ec.
      destruct Hlines as [|l lines Hl Hlines].
      * exists [], (c :: tail). subst content.
        repeat split; [constructor|].
        intros [Hc|Hin]; [now apply Ec | now apply Htail].
      * exists ((c :: l) :: lines), tail.
        rewrite fileOf_cons_app in E. rewrite fileOf_cons_app, E.
        repeat split; [constructor | assumption]; [|assumption].
        intros [Hc|Hin]; [now apply Ec | now apply Hl].
Qed.

Lemma dropCR_incl (c : ascii) r : In c (Bufio.dropCR r) -> In c r.
Proof.
  destruct r as [|x r]; [easy|]. simpl.
  destruct (Ascii.eqb x Bufio.CR); [now right | easy].
Qed.

Lemma token_no_bar l : ~ In "|"%char l -> ~ hasBar (Bufio.token (rev l)).
Proof.
  intros Hno Hin. apply Hno. unfold hasBar, Bufio.token in Hin.
  rewrite list_ascii_of_string_of_list_ascii in Hin.
  apply in_rev, dropCR_incl, in_rev in Hin. exact Hin.
Qed.

Lemma token_CR l :
  Bufio.token (rev (l ++ [Bufio.CR])) = string_of_list_ascii l.
Proof.
  rewrite rev_app_distr. unfold Bufio.token. cbn [rev app Bufio.dropCR].
  rewrite Ascii.eqb_refl. now rewrite rev_involutive.
Qed.

Lemma scanLines_plain lines :
  Forall plainLine lines ->
  Bufio.scanLines (fileOf lines) = map string_of_list_ascii lines.
Proof.
  intros Hp. rewrite scanLines_fileOf.
  - apply map_ext_Forall. eapply Forall_impl; [exact Hp|].
    intros l (_ & Hcr & _). now apply dropCR_plain.
  - eapply Forall_impl; [exact Hp | apply plainLine_okLine].
Qed.

Lemma scanLines_CRLF lines :
  Forall plainLine lines ->
  Forall (fun l => S (List.length l) < Bufio.MaxScanTokenSize) lines ->
  Bufio.scanLines (fileOfCRLF lines) = map string_of_list_ascii lines.
Proof.
  intros Hp Hlen. unfold fileOfCRLF. rewrite scanLines_fileOf.
  - rewrite map_map. apply map_ext. intros l. apply token_CR.
  - rewrite Forall_map. rewrite Forall_forall in Hp, Hlen.
    apply Forall_forall. intros l Hin.
    destruct (Hp l Hin) as (H1 & H2 & H3). split.
    + intros Hin'. apply in_app_or in Hin' as [Hin'|[E|[]]];
        [now apply H1 | discriminate E].
    + rewrite length_app. simpl. specialize (Hlen l Hin). simpl in Hlen.
      lia.
Qed.

Lemma scanLines_open lines last :
  Forall plainLine lines -> plainLine last -> last <> [] ->
  Bufio.scanLines (fileOf lines ++ string_of_list_ascii last)
  = map string_of_list_ascii (lines ++ [last]).
Proof.
  intros Hp (H1 & H2 & H3) Hne.
  rewrite scan_fileOf_app
    by (eapply Forall_impl; [exact Hp | apply plainLine_okLine]).
  rewrite scan_last; [| assumption | simpl; lia
                      | destruct last; [congruence | simpl; lia]].
  rewrite app_nil_r, map_app. cbn [map]. f_equal.
  - apply map_ext_Forall. eapply Forall_impl; [exact Hp|].
    intros l (_ & Hcr & _). now apply dropCR_plain.
  - f_equal. now apply dropCR_plain.
Qed.

(** X11.  The line endings do not matter for lines the scanner's
    buffer holds with a carriage return: for lines without carriage
    return and line feed, each at least two bytes under 64 KiB (65534
    bytes at most), the file with DOS line endings loads into the same
    targets as the file with Unix line endings; and a last line that is
    not empty, under 64 KiB and without carriage return and line feed
    is read without its line feed like with it. *)
Theorem readPingTargets_line_endings
    (fs : FileSystem) (unix dos closed open : string)
    (lines : list (list ascii)) (last : list ascii) :
  Forall plainLine lines ->
  Forall (fun l => S (List.length l) < Bufio.MaxScanTokenSize) lines ->
  plainLine last -> last <> [] ->
  fs unix = inr (fileOf lines) ->
  fs dos = inr (fileOfCRLF lines) ->
  fs closed = inr (fileOf (lines ++ [last])) ->
  fs open = inr (fileOf lines ++ string_of_list_ascii last)%string ->
  readPingTargets fs dos = readPingTargets fs unix
  /\ readPingTargets fs open = readPingTargets fs closed.
Proof.
  intros Hp Hlen Hl Hne Hu Hd Hc Ho. unfold readPingTargets.
  rewrite Hu, Hd, Hc, Ho.
  rewrite scanLines_plain by exact Hp.
  rewrite scanLines_CRLF by assumption.
  rewrite scanLines_open by assumption.
  rewrite scanLines_plain;
    [split; reflexivity | apply Forall_app; split; [exact Hp|]].
  now constructor.
Qed.

Lemma readPingTargets_line_endings_witness :
  readPingTargets files "dos.txt" = readPingTargets files "unix.txt"
  /\ readPingTargets files "open.txt" = readPingTargets files "closed.txt".
Proof.
  apply (readPingTargets_line_endings files "unix.txt" "dos.txt"
           "closed.txt" "open.txt" sample_lines
           (list_ascii_of_string "nas")).
  - apply List.Forall_forall. intros l Hl. unfold sample_lines in Hl.
    simpl in Hl. destruct Hl as [<-|[<-|[]]];
      apply plainLine_check; vm_compute; reflexivity.
  - apply List.Forall_forall. intros l Hl. unfold sample_lines in Hl.
    simpl in Hl. destruct Hl as [<-|[<-|[]]];
      apply Nat.ltb_lt; vm_compute; reflexivity.
  - apply plainLine_check; vm_compute; reflexivity.
  - discriminate.
  - reflexivity.
  - reflexivity.
  - reflexivity.
  - reflexivity.
Defined.

Lemma longLine_check (l : list ascii) :
  forallb (fun x => negb (Ascii.eqb x Bufio.LF)) l = true ->
  (Bufio.MaxScanTokenSize <=? List.length l) = true ->
  longLine l.
Proof.
  intros H1 H2. split; [now apply notIn_check | now apply Nat.leb_le].
Qed.

(** X12.  A line of 64 KiB or more ends the loading without a word:
    [readPingTargets] returns the targets of the lines before it and
    drops that line and every line after it; it does not exit and
    prints nothing ([scanner.Err] is never looked at). *)
Theorem readPingTargets_long_line
    (fs : FileSystem) (path : string)
    (lines : list (list ascii)) (long : list ascii) (rest : string) :
  fs path
  = inr (fileOf lines ++ string_of_list_ascii long
           ++ String Bufio.LF rest)%string ->
  Forall okLine lines ->
  longLine long ->
  readPingTargets fs path
  = Continue (map (fun l => targetOfLine (Bufio.token (rev l))) lines).
Proof.
  intros Hfs Hok [Hno Hlen]. unfold readPingTargets. rewrite Hfs.
  rewrite scan_fileOf_app by exact Hok.
  rewrite scan_long by (simpl; assumption).
  now rewrite app_nil_r, map_map.
Qed.

Lemma readPingTargets_long_line_witness :
  readPingTargets files "long.txt"
  = Continue
      (map (fun l => targetOfLine (Bufio.token (rev l)))
         [list_ascii_of_string "router|192.168.0.1"]).
Proof.
  apply (readPingTargets_long_line files "long.txt"
           [list_ascii_of_string "router|192.168.0.1"] overlong "printer").
  - reflexivity.
  - apply List.Forall_forall. intros l Hl. simpl in Hl.
    destruct Hl as [<-|[]].
    split; [apply notIn_check | apply Nat.ltb_lt]; vm_compute; reflexivity.
  - apply longLine_check; vm_compute; reflexivity.
Defined.

(** A target list of three lines without separator, the second of
    64 KiB: the loading returns one target, that of the first line, so
    the second and the third line have none. *)
Lemma readPingTargets_overlong_line_lost :
  cut_list
  = (fileOf [list_ascii_of_string "printer"; overlong] ++ "nas")%string
  /\ ~ In "|"%char overlong
  /\ ~ In "|"%char (list_ascii_of_string "nas")
  /\ readPingTargets cut_fs "cut.txt"
     = Continue [newPingStats "printer" EmptyString].
Proof.
  split; [unfold cut_list; rewrite !fileOf_cons_app; reflexivity|].
  split; [apply notIn_check; vm_compute; reflexivity|].
  split; [apply notIn_check; vm_compute; reflexivity|].
  vm_compute. reflexivity.
Qed.

(** C8, as amended.  Whatever a readable target list holds (every
    content is made of [lines] and a [tail], see [file_has_lines]), the
    loading does not exit: it returns one target for each line before
    the first line of 64 KiB or more, in the order of the file, and the
    target of such a line without separator has the line, less one
    trailing carriage return, for its name and the empty string for its
    address.  (The first line of 64 KiB or more and the lines after it
    have no target.) *)
Theorem readPingTargets_no_separator
    (fs : FileSystem) (path : string)
    (lines : list (list ascii)) (tail : list ascii) :
  fs path = inr (fileOf lines ++ string_of_list_ascii tail)%string ->
  Forall (fun l => ~ In Bufio.LF l) lines -> ~ In Bufio.LF tail ->
  exists stats,
    readPingTargets fs path = Continue stats
    /\ List.length stats = List.length (beforeLong (linesOf lines tail))
    /\ forall i l,
         beforeLong (linesOf lines tail) !! i = Some l ->
         ~ In "|"%char l ->
         exists t,
           stats !! i = Some t
           /\ Name t = Bufio.token (rev l) /\ Addr t = EmptyString.
Proof.
  intros Hfs Hlines Htail. unfold readPingTargets. rewrite Hfs.
  rewrite scanLines_any by assumption.
  eexists. split; [reflexivity|]. split.
  - now rewrite !length_map.
  - intros i l Hi Hno. rewrite map_map, list_lookup_fmap, Hi.
    eexists. split; [reflexivity|].
    rewrite targetOfLine_no_bar by now apply token_no_bar.
    split; reflexivity.
Qed.

Lemma readPingTargets_no_separator_witness :
  exists stats,
    readPingTargets cut_fs "cut.txt" = Continue stats
    /\ List.length stats
       = List.length
           (beforeLong
              (linesOf [list_ascii_of_string "printer"; overlong]
                 (list_ascii_of_string "nas")))
    /\ forall i l,
         beforeLong
           (linesOf [list_ascii_of_string "printer"; overlong]
              (list_ascii_of_string "nas")) !! i = Some l ->
         ~ In "|"%char l ->
         exists t,
           stats !! i = Some t
           /\ Name t = Bufio.token (rev l) /\ Addr t = EmptyString.
Proof.
  apply (readPingTargets_no_separator cut_fs "cut.txt"
           [list_ascii_of_string "printer"; overlong]
           (list_ascii_of_string "nas")).
  - transitivity (@inr string string cut_list); [reflexivity|].
    f_equal.
  - apply List.Forall_forall. intros l Hl. simpl in Hl.
    destruct Hl as [<-|[<-|[]]]; apply notIn_check; vm_compute; reflexivity.
  - apply notIn_check. vm_compute. reflexivity.
Defined.
End Written.

(** ** The command line *)

Section CommandLine.

(** X13.  An empty target list is not an error: when the file named on
    the command line is readable and empty, [main] goes on with no
    prober and an empty table. *)
Theorem main_empty_file
    (prog : string) (args positional : list string) (fs : FileSystem) :
  Flag.Parse prog args = Continue positional ->
  fs (Flag.Arg positional 0) = inr EmptyString ->
  main prog args fs = Continue started_empty.
Proof.
  intros Hparse Hfs. unfold main, readPingTargets.
  now rewrite Hparse, Hfs.
Qed.

Lemma main_empty_file_witness :
  main "pinglist" ["empty.txt"%string] files = Continue started_empty.
Proof.
  apply (main_empty_file "pinglist" ["empty.txt"%string]
           ["empty.txt"%string] files); reflexivity.
Defined.

Lemma Parse_positional prog p rest :
  flagLike p = false -> Flag.Parse prog (p :: rest) = Continue (p :: rest).
Proof.
  intros Hp. unfold Flag.Parse.
  destruct p as [|c [|c1 s2]]; try reflexivity;
    destruct c as [[] [] [] [] [] [] [] []]; try reflexivity.
  simpl in Hp. discriminate Hp.
Qed.

Lemma Parse_dashes prog rest :
  Flag.Parse prog ("--"%string :: rest) = Continue rest.
Proof. reflexivity. Qed.

Lemma beforeEq_head c name :
  exists rest, Flag.beforeEq (String c name) = String c rest.
Proof.
  unfold Flag.beforeEq. cbn [index].
  destruct (index 0 "=" name) as [i|]; [simpl|]; eauto.
Qed.

Lemma Parse_name prog s name :
  name <> EmptyString ->
  exists err,
    match name with
    | EmptyString | String "-" _ | String "=" _ =>
        @Exit (list string) 2 EmptyString
          ("bad flag syntax: " ++ s ++ newline ++ Flag.usage prog)
    | _ =>
        let name := Flag.beforeEq name in
        if (String.eqb name "help" || String.eqb name "h")%bool
        then Exit 0 EmptyString (Flag.usage prog)
        else
          Exit 2 EmptyString
            ("flag provided but not defined: -" ++ name
               ++ newline ++ Flag.usage prog)
    end
    = Exit (if (String.eqb (Flag.beforeEq name) "help"
                || String.eqb (Flag.beforeEq name) "h")%bool
            then 0 else 2) EmptyString err
    /\ ((String.eqb (Flag.beforeEq name) "help"
         || String.eqb (Flag.beforeEq name) "h")%bool = true ->
        err = Flag.usage prog).
Proof.
  intros Hne. destruct name as [|c name]; [congruence|].
  destruct (beforeEq_head c name) as (rest & E).
  destruct c as [[] [] [] [] [] [] [] []];
    cbv zeta;
    try (destruct (String.eqb _ "help" || String.eqb _ "h")%bool;
         (eexists; split; [reflexivity | intros; congruence]));
    rewrite E; simpl; eexists; (split; [reflexivity | discriminate]).
Qed.

Lemma Parse_flag prog s rest :
  flagLike s = true -> s <> "--"%string ->
  exists err,
    Flag.Parse prog (s :: rest)
    = Exit (if helpFlag s then 0 else 2) EmptyString err
    /\ (helpFlag s = true -> err = Flag.usage prog).
Proof.
  intros Hs Hne. unfold Flag.Parse, helpFlag.
  destruct s as [|c [|c1 s2]]; try discriminate Hs;
    destruct c as [[] [] [] [] [] [] [] []]; try discriminate Hs.
  destruct (Ascii.eqb c1 "-") eqn:E1.
  - apply Ascii.eqb_eq in E1. subst c1.
    destruct s2 as [|c2 s3]; [exfalso; apply Hne; reflexivity|].
    exact (Parse_name prog (String "-" (String "-" (String c2 s3)))
             (String c2 s3) ltac:(discriminate)).
  - replace (flagName (String "-" (String c1 s2)))
      with (Flag.beforeEq (String c1 s2)).
    + exact (Parse_name prog (String "-" (String c1 s2))
               (String c1 s2) ltac:(discriminate)).
    + unfold flagName.
      destruct c1 as [[] [] [] [] [] [] [] []];
        try reflexivity; discriminate E1.
Qed.

(** X14.  A flag ends the run before any file is read: when the first
    argument is a dash followed by something other than a lone second
    dash, [main] exits whatever the file system holds, with nothing on
    standard output: with status 0 and the usage line alone on standard
    error when the flag's name (what follows the one or two dashes, up
    to an equals sign) is [h] or [help], with status 2 for any other
    flag. *)
Theorem main_stops_at_flag (prog s : string) (rest : list string) :
  flagLike s = true -> s <> "--"%string ->
  exists err,
    (helpFlag s = true -> err = Flag.usage prog)
    /\ forall fs,
         main prog (s :: rest) fs
         = Exit (if helpFlag s then 0 else 2) EmptyString err.
Proof.
  intros Hs Hne.
  destruct (Parse_flag prog s rest Hs Hne) as (err & E & Hu).
  exists err. split; [exact Hu|].
  intros fs. unfold main. now rewrite E.
Qed.

Lemma main_stops_at_flag_witness :
  (forall fs,
     main "pinglist" ["--help"; "targets.txt"]%string fs
     = Exit 0 EmptyString (Flag.usage "pinglist"))
  /\ exists err,
       forall fs,
         main "pinglist" ["-v"; "targets.txt"]%string fs
         = Exit 2 EmptyString err.
Proof.
  split.
  - destruct (main_stops_at_flag "pinglist" "--help"
                ["targets.txt"%string]) as (err & Hu & Hm);
      [reflexivity | discriminate |].
    intros fs. rewrite Hm, Hu by reflexivity. reflexivity.
  - destruct (main_stops_at_flag "pinglist" "-v"
                ["targets.txt"%string]) as (err & _ & Hm);
      [reflexivity | discriminate |].
    exists err. exact Hm.
Defined.

(** X15.  The target list is the first positional argument and nothing
    else is looked at: with a first argument that is not a flag, [main]
    does what it does with that argument alone, also when a [--] stands
    before it. *)
Theorem main_reads_first_argument
    (prog path : string) (rest : list string) (fs : FileSystem) :
  flagLike path = false ->
  main prog (path :: rest) fs = main prog [path] fs
  /\ main prog ("--"%string :: path :: rest) fs = main prog [path] fs.
Proof.
  intros Hp. unfold main.
  rewrite Parse_dashes, !Parse_positional by exact Hp.
  split; reflexivity.
Qed.

Lemma main_reads_first_argument_witness :
  main "pinglist" ["targets.txt"; "more.txt"]%string sample_fs
  = main "pinglist" ["targets.txt"%string] sample_fs
  /\ main "pinglist" ["--"; "targets.txt"; "more.txt"]%string sample_fs
     = main "pinglist" ["targets.txt"%string] sample_fs.
Proof.
  apply (main_reads_first_argument "pinglist" "targets.txt"
           ["more.txt"%string] sample_fs).
  reflexivity.
Defined.

End CommandLine.

(** ** Ranking what is already in order *)

Module SteadyFacts.
Import Sort SortSpec SortFacts.

Section Ordered.
Context {A : Type} (key : A -> Z).

Local Abbreviation keyLess := (SortSpec.keyLess key).
Local Abbreviation sortedR := (SortSpec.sortedR key).

(** In a slice in ascending order no element is less than one before
    it. *)
Lemma Less_ordered (d : list A) i j :
  sortedR d 0 (List.length d) -> i <= j -> Less keyLess d j i = false.
Proof.
  intros HS Hij. unfold Less.
  destruct (d !! j) as [y|] eqn:Hy; [|reflexivity].
  destruct (d !! i) as [x|] eqn:Hx; [|reflexivity].
  unfold SortSpec.keyLess. apply Z.ltb_ge.
  apply (HS i j x y); try assumption; [lia|].
  now apply lookup_lt_Some in Hy.
Qed.

Lemma insertDown_ordered (d : list A) a j :
  sortedR d 0 (List.length d) -> insertDown keyLess d a j = d.
Proof.
  intros HS. destruct j as [|j]; [reflexivity|].
  cbn [insertDown]. rewrite (Less_ordered d j (S j)) by (assumption || lia).
  now rewrite andb_false_r.
Qed.

Lemma insertFrom_ordered (d : list A) a : forall n i,
  sortedR d 0 (List.length d) -> insertFrom keyLess n d a i = d.
Proof.
  induction n as [|n IH]; intros i HS; [reflexivity|].
  cbn [insertFrom]. rewrite insertDown_ordered by assumption. now apply IH.
Qed.

Lemma order2_ordered (d : list A) a b swaps :
  sortedR d 0 (List.length d) -> a <= b ->
  order2_func keyLess d a b swaps = (a, b, swaps).
Proof.
  intros HS Hab. unfold order2_func.
  now rewrite Less_ordered by assumption.
Qed.

Lemma median_ordered (d : list A) a b c swaps :
  sortedR d 0 (List.length d) -> a <= b -> b <= c ->
  median_func keyLess d a b c swaps = (b, swaps).
Proof.
  intros HS Hab Hbc. unfold median_func.
  rewrite (order2_ordered d a b) by assumption.
  rewrite (order2_ordered d b c) by assumption.
  now rewrite (order2_ordered d a b) by assumption.
Qed.

(** [choosePivot_func] swaps nothing and reports an increasing slice. *)
Lemma choosePivot_ordered (d : list A) a b :
  sortedR d 0 (List.length d) ->
  snd (choosePivot_func keyLess d a b) = increasingHint.
Proof.
  intros HS. unfold choosePivot_func, medianAdjacent_func.
  destruct (8 <=? b - a); [|reflexivity].
  destruct (shortestNinther <=? b - a).
  - rewrite !median_ordered by (assumption || lia). reflexivity.
  - rewrite median_ordered by (assumption || lia). reflexivity.
Qed.

Lemma skipOrdered_ordered (d : list A) b : forall n i,
  sortedR d 0 (List.length d) -> i + n = b ->
  skipOrdered_loop keyLess n d i b = b.
Proof.
  induction n as [|n IH]; intros i HS Hn; [simpl; lia|].
  cbn [skipOrdered_loop].
  rewrite Less_ordered by (assumption || lia).
  destruct (i <? b) eqn:E; [|apply Nat.ltb_ge in E; lia].
  cbn [andb negb]. apply IH; [assumption | lia].
Qed.

(** [partialInsertionSort_func] finds nothing out of order and reports
    the slice sorted. *)
Lemma partialInsertion_loop_ordered (d : list A) steps a b i :
  sortedR d 0 (List.length d) -> i <= b ->
  partialInsertion_loop keyLess (S steps) d a b i = (d, true).
Proof.
  intros HS Hib. cbn [partialInsertion_loop]. unfold skipOrdered.
  rewrite (skipOrdered_ordered d b) by (assumption || lia).
  now rewrite Nat.eqb_refl.
Qed.

Lemma partialInsertionSort_ordered (d : list A) a b :
  sortedR d 0 (List.length d) -> a < b ->
  partialInsertionSort_func keyLess d a b = (d, true).
Proof.
  intros HS Hab. unfold partialInsertionSort_func, maxSteps.
  apply partialInsertion_loop_ordered; [assumption | lia].
Qed.

Lemma bitsLen_pos n : 0 < n -> 0 < bitsLen n.
Proof. destruct n; simpl; lia. Qed.

(** [sort.Slice] leaves a slice that is in ascending order as it is. *)
Lemma Slice_ordered (d : list A) :
  sortedR d 0 (List.length d) -> Slice keyLess d = d.
Proof.
  intros HS. unfold Slice, Slice_run. cbn [pdqsort_func].
  rewrite Nat.sub_0_r.
  destruct (List.length d <=? maxInsertion) eqn:E.
  - unfold insertionSort_func. now rewrite insertFrom_ordered.
  - apply Nat.leb_gt in E. unfold maxInsertion in E.
    destruct (bitsLen (List.length d) =? 0) eqn:E0.
    { apply Nat.eqb_eq in E0.
      pose proof (bitsLen_pos (List.length d) ltac:(lia)). lia. }
    cbn [negb].
    pose proof (choosePivot_ordered d 0 (List.length d) HS) as Hh.
    destruct (choosePivot_func keyLess d 0 (List.length d)) as [pivot hint].
    simpl in Hh. subst hint. cbn [isDecreasing isIncreasing andb].
    rewrite partialInsertionSort_ordered by (assumption || lia).
    reflexivity.
Qed.
End Ordered.

Lemma ascending_sortedR (ps : list pingStats) :
  ascending ps -> SortSpec.sortedR RttAvg ps 0 (List.length ps).
Proof.
  intros HS i j x y _ Hij Hj Hx Hy.
  destruct (decide (i = j)) as [->|Hne];
    [rewrite Hx in Hy; injection Hy as ->; lia|].
  revert i j Hij Hj Hx Hy Hne.
  induction HS as [|z l HS IH Hall]; intros i j Hij Hj Hx Hy Hne;
    [discriminate|].
  destruct i as [|i], j as [|j]; try lia.
  - simpl in Hx, Hy. injection Hx as ->.
    rewrite Forall_forall in Hall. apply Hall.
    eapply list_elem_of_lookup_2, Hy.
  - simpl in Hx, Hy, Hj. apply (IH i j); (assumption || lia).
Qed.

Lemma rank_ordered (ps : list pingStats) :
  SortSpec.sortedR RttAvg ps 0 (List.length ps) -> rank ps = ps.
Proof. apply (Slice_ordered RttAvg). Qed.

Lemma fresh_ascending (ps : list pingStats) :
  Forall (fun t => exists name addr, t = newPingStats name addr) ps ->
  ascending ps.
Proof.
  induction 1 as [|t ps (name & addr & ->) Hall IH]; constructor.
  - exact IH.
  - eapply Forall_impl; [exact Hall|].
    intros t (n & a & ->). simpl. lia.
Qed.

(** X17.  The ranking leaves targets that are already in order where
    they are: when the means do not decrease along the list, the tick's
    [sort.Slice] returns the list as it is, whatever the number of
    targets and however many of them are tied.  (Targets of equal mean
    can change places only on a tick at which some target is out of
    order.) *)
Theorem rank_keeps_ascending_order (ps : list pingStats) :
  ascending ps -> rank ps = ps.
Proof.
  intros HS. apply rank_ordered. now apply ascending_sortedR.
Qed.

Lemma rank_keeps_ascending_order_witness : rank idle_targets = idle_targets.
Proof.
  apply (rank_keeps_ascending_order idle_targets).
  apply fresh_ascending. unfold idle_targets. rewrite Forall_map.
  apply Forall_forall. intros name _. eauto.
Defined.

(** X18.  A tick right after a tick changes nothing: with no packet
    event in between, the second [Update] on an [updateRowsMsg] returns
    the model and the command of the first. *)
Theorem Update_tick_twice (m : model) :
  Update (fst (Update m updateRowsMsg)) updateRowsMsg
  = Update m updateRowsMsg.
Proof.
  assert (E : rank (rank (pings m)) = rank (pings m)).
  { apply rank_ordered.
    destruct (RankFacts.Slice_sorted RttAvg (pings m)) as (_ & _ & HS).
    exact HS. }
  unfold Update. cbn [fst pings]. now rewrite E.
Qed.

Lemma sentOnly_ascending (ps : list pingStats) :
  Forall sentOnly ps -> ascending ps.
Proof.
  induction 1 as [|t ps (name & addr & es & Hlen & Hrun & H0) Hall IH];
    constructor.
  - exact IH.
  - eapply Forall_impl; [exact Hall|].
    intros t' (name' & addr' & es' & Hlen' & Hrun' & H0').
    rewrite (RankFacts.unreplied_mean_zero name addr es t) by assumption.
    rewrite (RankFacts.unreplied_mean_zero name' addr' es' t')
      by assumption.
    lia.
Qed.

(** X19.  Until the first reply the table stays in the order it is in:
    when no target of the model has counted a reply (each is a fresh
    target after fewer than 2^63 callbacks, however many packets it has
    sent), a tick that reads these states leaves the targets in their
    order, rebuilds the rows from them in that order and re-arms the
    timer. *)
Theorem tick_before_any_reply (m : model) :
  Forall sentOnly (pings m) ->
  Update m updateRowsMsg
  = ({| table := pingsToRows (pings m); pings := pings m |},
     updateRowsCmd).
Proof.
  intros Hall. unfold Update.
  rewrite rank_ordered; [reflexivity|].
  now apply ascending_sortedR, sentOnly_ascending.
Qed.

Lemma tick_before_any_reply_witness :
  Update waiting updateRowsMsg
  = ({| table := pingsToRows (pings waiting); pings := pings waiting |},
     updateRowsCmd).
Proof.
  apply (tick_before_any_reply waiting).
  unfold waiting. cbn [pings]. repeat constructor.
  - exists "gw"%string, "10.0.0.1"%string, [EvSend (mkPacket 0)].
    split; [vm_compute; discriminate|]. split; reflexivity.
  - exists "dns"%string, "9.9.9.9"%string, [].
    split; [vm_compute; discriminate|]. split; reflexivity.
Defined.
End SteadyFacts.

(** ** The lock discipline *)

Module ProgressFacts.
Import Concurrent Observed ObservedMore ConcurrentFacts.

Lemma sending_reached : steps (initial gw ping_once) sending.
Proof.
  eapply steps_step; [apply steps_refl|]. apply step_send_lock.
Qed.

(** X20.  The mutex is held exactly inside the critical sections, and
    by one thread at a time: in every configuration an execution
    reaches, the prober holds it if and only if it is inside a
    callback, the presenter if and only if it is inside an accessor,
    and the two are never inside at once. *)
Theorem lock_discipline (s0 : pingStats) (es0 : list event) (c : config) :
  steps (initial s0 es0) c ->
  wp c <> WPanicked ->
  (mtx c = Some Prober <-> wLocked (wp c) = true)
  /\ (mtx c = Some Presenter <-> rLocked (rp c) = true)
  /\ wLocked (wp c) && rLocked (rp c) = false.
Proof.
  intros H Hw. destruct (Inv_steps _ _ _ H)
    as [done sd k1 k2 k3 _ _ _ Hmw Hmr _ _ _ _ _ _].
  specialize (Hmw Hw). split; [exact Hmw|]. split; [exact Hmr|].
  destruct (wLocked (wp c)) eqn:E1, (rLocked (rp c)) eqn:E2;
    try reflexivity.
  destruct Hmw as [_ H1]. destruct Hmr as [_ H2].
  rewrite H1 in H2 by reflexivity. specialize (H2 eq_refl). discriminate.
Qed.

Lemma lock_discipline_witness :
  (mtx sending = Some Prober <-> wLocked (wp sending) = true)
  /\ (mtx sending = Some Presenter <-> rLocked (rp sending) = true)
  /\ wLocked (wp sending) && rLocked (rp sending) = false.
Proof.
  apply (lock_discipline gw ping_once sending).
  - exact sending_reached.
  - discriminate.
Defined.

(** The prober inside a callback can always take its next step. *)
Lemma prober_steps s m es w r :
  wLocked w = true -> w <> WPanicked ->
  exists c', step (mkConfig s m es w r) c'.
Proof.
  intros Hl Hp. destruct w; try discriminate Hl; try congruence;
    try (eexists; econstructor; fail).
  - destruct (Z.eq_dec (pktsRecv s) 1%Z) as [E|E].
    + eexists. now apply step_recv_first.
    + eexists. now apply step_recv_delta.
  - destruct (Go.div64 delta (pktsRecv s)) as [q|] eqn:E.
    + eexists. eapply step_recv_avg. exact E.
    + eexists. now apply step_recv_panic.
Qed.

(** X21.  The prober and the presenter never block each other for
    good: every configuration an execution reaches either has a next
    step or is the end of the run, with all callbacks made and the row
    read. *)
Theorem no_deadlock (s0 : pingStats) (es0 : list event) (c : config) :
  steps (initial s0 es0) c ->
  wp c <> WPanicked ->
  (exists c', step c c') \/ finished c.
Proof.
  intros H Hw.
  destruct (Inv_steps _ _ _ H)
    as [done sd k1 k2 k3 _ _ _ Hmw Hmr _ _ _ _ _ _].
  specialize (Hmw Hw).
  destruct c as [s m es w r]. simpl in *.
  destruct (wLocked w) eqn:Elw.
  { left. now apply prober_steps. }
  destruct w; try discriminate Elw. clear Elw Hw.
  assert (Hnp : m <> Some Prober)
    by (intros E; apply Hmw in E; discriminate).
  destruct (rLocked r) eqn:Elr.
  - left. destruct r; try discriminate Elr;
      eexists; econstructor; discriminate.
  - assert (Hm : m = None).
    { destruct m as [[]|]; [congruence | | reflexivity].
      destruct Hmr as [Hmr _]. specialize (Hmr eq_refl). discriminate. }
    subst m.
    destruct r; try discriminate Elr;
      try (left; eexists; econstructor; discriminate).
    destruct es as [|[pkt|pkt] es].
    + right. unfold finished. simpl. eauto 6.
    + left. eexists. apply step_send_lock.
    + left. eexists. apply step_recv_lock.
Qed.

Lemma no_deadlock_witness :
  (exists c', step sending c') \/ finished sending.
Proof.
  apply (no_deadlock gw ping_once sending).
  - exact sending_reached.
  - discriminate.
Defined.

(** X22.  The presenter changes nothing and the callbacks take effect
    one at a time: whenever the prober is between two callbacks, the
    target is in the state that the callbacks made so far leave when
    they run alone, one after the other. *)
Theorem idle_state_is_sequential
    (s0 : pingStats) (es0 : list event) (c : config) :
  steps (initial s0 es0) c ->
  wp c = WIdle ->
  exists done : nat,
    es0 = take done es0 ++ todo c
    /\ run_events s0 (take done es0) = Some (shared c).
Proof.
  intros H Hw.
  destruct (Inv_steps _ _ _ H)
    as [done sd k1 k2 k3 Hafter _ HwInv _ _ _ _ _ _ _ _].
  unfold wInv in HwInv. rewrite Hw in HwInv.
  destruct HwInv as [Hcur Hsh].
  exists done. split.
  - rewrite <- Hcur. now rewrite take_drop.
  - rewrite Hsh. exact Hafter.
Qed.

Lemma idle_state_is_sequential_witness :
  exists done : nat,
    ping_once = take done ping_once ++ todo torn
    /\ run_events gw (take done ping_once) = Some (shared torn).
Proof.
  apply (idle_state_is_sequential gw ping_once torn).
  - exact torn_execution.
  - reflexivity.
Defined.

Lemma panic_only_by_zero c c' :
  step c c' -> wp c <> WPanicked -> wp c' = WPanicked ->
  exists pkt delta,
    wp c = WRecvDelta pkt delta
    /\ Go.div64 delta (pktsRecv (shared c)) = None.
Proof.
  intros Hs Hw Hp. inversion Hs; subst; simpl in *;
    try discriminate Hp; try congruence.
  eauto.
Qed.

(** X23.  The callbacks never panic, however they interleave with the
    presenter: on a fresh target, no execution of fewer than 2^63
    callbacks reaches the division by zero of [OnPktRecv]. *)
Theorem prober_never_panics
    (name addr : string) (es0 : list event) (c : config) :
  (Z.of_nat (List.length es0) <= Go.maxInt64)%Z ->
  steps (initial (newPingStats name addr) es0) c ->
  wp c <> WPanicked.
Proof.
  intros Hlen H.
  remember (initial (newPingStats name addr) es0) as c0 eqn:E0.
  induction H as [c|c1 c2 c3 H12 IH H23].
  - subst c. discriminate.
  - specialize (IH E0). intros Hp.
    destruct (panic_only_by_zero _ _ H23 IH Hp) as (pkt & delta & Hw & Hdiv).
    subst c1.
    destruct (Inv_steps _ _ _ H12)
      as [done sd k1 k2 k3 Hafter Hdone HwInv _ _ _ _ _ _ _ _].
    unfold wInv in HwInv. rewrite Hw in HwInv.
    destruct HwInv as (Hcur & _ & _ & Hsh).
    rewrite Hsh in Hdiv. simpl in Hdiv.
    unfold after in Hafter.
    destruct (drop_cons_inv _ _ _ _ Hcur) as (Hlt & _ & _).
    pose proof (sends_recvs_length (take done es0)) as Hsum.
    pose proof (sends_nonneg (take done es0)) as Hs0.
    pose proof (recvs_nonneg (take done es0)) as Hr0.
    rewrite length_take in Hsum.
    assert (HM : Go.maxInt64 = (2 ^ 63 - 1)%Z) by reflexivity.
    destruct (run_events_counters (take done es0) (newPingStats name addr))
      as (s' & Hrun & _ & HR & _); simpl; try lia.
    rewrite Hafter in Hrun. injection Hrun as <-. simpl in HR.
    rewrite add64_small in Hdiv
      by (unfold Go.inInt64, Go.minInt64; lia).
    unfold Go.div64 in Hdiv.
    destruct (pktsRecv sd + 1 =? 0)%Z eqn:E; [lia | discriminate Hdiv].
Qed.

Lemma prober_never_panics_witness : wp torn <> WPanicked.
Proof.
  apply (prober_never_panics "gw" "10.0.0.1" ping_once torn).
  - vm_compute. discriminate.
  - exact torn_execution.
Defined.
End ProgressFacts.
